(** * Elemental: the Mehrotra predictor-corrector driver for primal conic
      linear programs and the regularized solve layer

    A shallow embedding of
      - [lp::primal::Mehrotra] (dense sequential, dense distributed and
        sparse sequential specialisations),
      - the indexing helpers of the distributed storage: the element-wise
        ones ([Length_], [Shift_], [Mod_], [GlobalIndex], [MaxLength_]),
        the blocked ones ([BlockedLength_], [GlobalBlockedIndex]), their
        checked variants and the miscellaneous integer routines
        ([LastOffset], [DiagonalLength], [GCD_], [PowerOfTwo],
        [FlooredLog2]),
      - [reg_ldl::RegularizedSolveAfter] and its [Promote]/[NoPromote]
        companions,
      - the recommendations [aed::NumShifts] and [aed::DeflationSize] of
        the Hessenberg QR iteration, the grid selection of the Gaussian
        elimination example and the sequential [ConjugateSubmatrix].

    The drivers are written with the template parameter [Real] read as the
    field of real numbers: every arithmetic operation is exact, and
    division is the total division of [R].  The statements whose outcome
    depends on how [Real] rounds (the cone check, the step-length rule and
    the update) are given a second time over an arbitrary arithmetic, of
    which the reals, the rationals and the binary64 numbers of [double] are
    instances.  [Int] is read as [Z]; where the arithmetic of a routine can
    leave the range of the machine type, the statements about it assume
    that the values the source computes are representable.  Dimensions and
    counts, which are never negative, are read as [nat].  The sparse
    distributed specialisation of the driver, which follows the same loop
    on other storage and solvers, is not embedded. *)

From Stdlib Require Import Reals Lra Lia ZArith String List Bool Arith.
From Stdlib Require Import FunInd Recdef.
From Stdlib Require PrimFloat QArith Qreals.
Import ListNotations.

Local Open Scope R_scope.

(** ** Scalars *)

Definition Real := R.
Definition Int := Z.

(** [El::Min] is [std::min]: the second argument wins only when it is
    strictly smaller. *)
Definition Min (a b : Real) : Real := if Rlt_dec b a then b else a.

Definition Abs (a : Real) : Real := Rabs a.

(** [Pow(alpha, Real(3))]: the only exponent the driver uses is the
    literal 3. *)
Definition Pow3 (alpha : Real) : Real := alpha ^ 3.

(** ** Column vectors and dense matrices *)

(** An [n x 1] [Matrix<Real>] is the list of its entries. *)
Definition vec := list Real.

(** [Matrix<Real>]: column-major buffer with leading dimension [Height]. *)
Record Matrix : Type := mkMatrix
  { Height : nat;
    Width : nat;
    Buffer : list Real }.

Definition Get (x : vec) (i : nat) : Real := nth i x 0.

Definition MGet (A : Matrix) (i j : nat) : Real :=
  nth (i + j * Height A) (Buffer A) 0.

Inductive Orientation : Type := NORMAL | TRANSPOSE.

(** The BLAS-like kernels below are defined in other translation units of
    the library. *)

(** Modelled from the spec: [Dot], the dot product of two column vectors
    (section 6, linear algebra primitives). *)
Fixpoint Dot (x y : vec) : Real :=
  match x, y with
  | a :: x', b :: y' => a * b + Dot x' y'
  | _, _ => 0
  end.

(** Modelled from the spec: [Nrm2], the vector 2-norm (section 6). *)
Definition Nrm2 (x : vec) : Real := sqrt (Dot x x).

(** Modelled from the spec: [Scale(alpha, X)], [X := alpha X]. *)
Definition Scale (alpha : Real) (X : vec) : vec := map (Rmult alpha) X.

(** Modelled from the spec: [Axpy(alpha, X, Y)], the scaled accumulation
    [Y := Y + alpha X].  [Y] keeps its height. *)
Fixpoint Axpy (alpha : Real) (X Y : vec) : vec :=
  match Y with
  | [] => []
  | b :: Y' =>
      match X with
      | [] => Y
      | a :: X' => (b + alpha * a) :: Axpy alpha X' Y'
      end
  end.

(** Modelled from the spec: [DiagonalScale(LEFT, NORMAL, d, X)], the
    diagonal (Hadamard) scale [X := diag(d) X]. *)
Fixpoint DiagonalScale (d X : vec) : vec :=
  match X with
  | [] => []
  | b :: X' =>
      match d with
      | [] => X
      | a :: d' => (a * b) :: DiagonalScale d' X'
      end
  end.

(** Modelled from the spec: [DiagonalSolve(LEFT, NORMAL, d, X)], the
    diagonal solve [X := diag(d)^{-1} X]. *)
Fixpoint DiagonalSolve (d X : vec) : vec :=
  match X with
  | [] => []
  | b :: X' =>
      match d with
      | [] => X
      | a :: d' => (b / a) :: DiagonalSolve d' X'
      end
  end.

(** Modelled from the spec: [Shift(X, alpha)] adds [alpha] to every
    entry. *)
Definition Shift (X : vec) (alpha : Real) : vec :=
  map (fun v => v + alpha) X.

(** Modelled from the spec: [Zeros(X, m, 1)]. *)
Definition Zeros (m : nat) : vec := repeat 0 m.

(** Sum of [f i] for [i < k]. *)
Fixpoint rsum (f : nat -> Real) (k : nat) : Real :=
  match k with
  | O => 0
  | S k' => rsum f k' + f k'
  end.

(** Modelled from the spec: [Gemv(orientation, alpha, A, x, beta, y)], the
    matrix-vector product [y := alpha op(A) x + beta y] in both
    orientations (section 6). *)
Definition Gemv (o : Orientation) (alpha : Real) (A : Matrix) (x : vec)
    (beta : Real) (y : vec) : vec :=
  match o with
  | NORMAL =>
      map (fun i => alpha * rsum (fun j => MGet A i j * Get x j) (Width A)
                    + beta * Get y i)
          (seq 0 (Height A))
  | TRANSPOSE =>
      map (fun j => alpha * rsum (fun i => MGet A i j * Get x i) (Height A)
                    + beta * Get y j)
          (seq 0 (Width A))
  end.

(** Modelled from the spec: [NumNonPositive(x)], the number of entries of
    [x] that are not strictly positive (the cone check of section 4.3). *)
Fixpoint NumNonPositive (x : vec) : nat :=
  match x with
  | [] => O
  | a :: x' =>
      if Rle_dec a 0 then S (NumNonPositive x') else NumNonPositive x'
  end.

(** ** Element-wise indexing (the indexing implementation header) *)

(** C++ integer division and remainder truncate toward zero. *)
Definition Mod_ (a b : Int) : Int :=
  let rem := Z.rem a b in
  if (rem >=? 0)%Z then rem else (rem + b)%Z.

Definition Shift_ (rank align stride : Int) : Int :=
  Mod_ (rank - align)%Z stride.

Definition Length_ (n shift stride : Int) : Int :=
  if (n >? shift)%Z then (Z.quot (n - shift - 1) stride + 1)%Z else 0%Z.

Definition GlobalIndex (iLoc shift numProcs : Int) : Int :=
  (shift + iLoc * numProcs)%Z.

(** ** Step-length loops *)

(** The loop
<<
    for( Int i=0; i<n; ++i )
    {
        const Real xi = x.Get(i,0);
        const Real dxi = dx.Get(i,0);
        if( dxi < Real(0) )
            alpha = Min(alpha,-xi/dxi);
    }
>>
    which the sequential driver runs four times per iteration (for
    [alphaAffPri], [alphaAffDual], [alphaPri] and [alphaDual]). *)
Definition StepBody (x dx : vec) (alpha : Real) (i : nat) : Real :=
  let xi := Get x i in
  let dxi := Get dx i in
  if Rlt_dec dxi 0 then Min alpha (- xi / dxi) else alpha.

Definition StepLoop (n : nat) (x dx : vec) (alpha : Real) : Real :=
  fold_left (StepBody x dx) (seq 0 n) alpha.

(** ** The driver's variables

    The in/out arguments [x], [y], [z] and the temporaries the driver
    declares before its loop: [J], [d], the residuals, the affine and the
    combined directions, and the factorization data [dSub], [p].  The
    sanity-check temporaries [dxError], [dyError], [dzError] exist only when
    [EL_RELEASE] is not defined; the release build is the one embedded
    here, and console output ([ctrl.print]) is not part of the state. *)
Record State : Type := mkState
  { v_x : vec;
    v_y : vec;
    v_z : vec;
    v_J : Matrix;
    v_d : vec;
    v_rb : vec;
    v_rc : vec;
    v_rmu : vec;
    v_dxAff : vec;
    v_dyAff : vec;
    v_dzAff : vec;
    v_dx : vec;
    v_dy : vec;
    v_dz : vec;
    v_dSub : vec;
    v_p : list Int }.

Definition set_x (v : vec) (s : State) : State :=
  mkState v (v_y s) (v_z s) (v_J s) (v_d s) (v_rb s) (v_rc s) (v_rmu s)
    (v_dxAff s) (v_dyAff s) (v_dzAff s) (v_dx s) (v_dy s) (v_dz s)
    (v_dSub s) (v_p s).

Definition set_y (v : vec) (s : State) : State :=
  mkState (v_x s) v (v_z s) (v_J s) (v_d s) (v_rb s) (v_rc s) (v_rmu s)
    (v_dxAff s) (v_dyAff s) (v_dzAff s) (v_dx s) (v_dy s) (v_dz s)
    (v_dSub s) (v_p s).

Definition set_z (v : vec) (s : State) : State :=
  mkState (v_x s) (v_y s) v (v_J s) (v_d s) (v_rb s) (v_rc s) (v_rmu s)
    (v_dxAff s) (v_dyAff s) (v_dzAff s) (v_dx s) (v_dy s) (v_dz s)
    (v_dSub s) (v_p s).

Definition set_J (v : Matrix) (s : State) : State :=
  mkState (v_x s) (v_y s) (v_z s) v (v_d s) (v_rb s) (v_rc s) (v_rmu s)
    (v_dxAff s) (v_dyAff s) (v_dzAff s) (v_dx s) (v_dy s) (v_dz s)
    (v_dSub s) (v_p s).

Definition set_d (v : vec) (s : State) : State :=
  mkState (v_x s) (v_y s) (v_z s) (v_J s) v (v_rb s) (v_rc s) (v_rmu s)
    (v_dxAff s) (v_dyAff s) (v_dzAff s) (v_dx s) (v_dy s) (v_dz s)
    (v_dSub s) (v_p s).

Definition set_rb (v : vec) (s : State) : State :=
  mkState (v_x s) (v_y s) (v_z s) (v_J s) (v_d s) v (v_rc s) (v_rmu s)
    (v_dxAff s) (v_dyAff s) (v_dzAff s) (v_dx s) (v_dy s) (v_dz s)
    (v_dSub s) (v_p s).

Definition set_rc (v : vec) (s : State) : State :=
  mkState (v_x s) (v_y s) (v_z s) (v_J s) (v_d s) (v_rb s) v (v_rmu s)
    (v_dxAff s) (v_dyAff s) (v_dzAff s) (v_dx s) (v_dy s) (v_dz s)
    (v_dSub s) (v_p s).

Definition set_rmu (v : vec) (s : State) : State :=
  mkState (v_x s) (v_y s) (v_z s) (v_J s) (v_d s) (v_rb s) (v_rc s) v
    (v_dxAff s) (v_dyAff s) (v_dzAff s) (v_dx s) (v_dy s) (v_dz s)
    (v_dSub s) (v_p s).

Definition set_dxAff (v : vec) (s : State) : State :=
  mkState (v_x s) (v_y s) (v_z s) (v_J s) (v_d s) (v_rb s) (v_rc s)
    (v_rmu s) v (v_dyAff s) (v_dzAff s) (v_dx s) (v_dy s) (v_dz s)
    (v_dSub s) (v_p s).

Definition set_dyAff (v : vec) (s : State) : State :=
  mkState (v_x s) (v_y s) (v_z s) (v_J s) (v_d s) (v_rb s) (v_rc s)
    (v_rmu s) (v_dxAff s) v (v_dzAff s) (v_dx s) (v_dy s) (v_dz s)
    (v_dSub s) (v_p s).

Definition set_dzAff (v : vec) (s : State) : State :=
  mkState (v_x s) (v_y s) (v_z s) (v_J s) (v_d s) (v_rb s) (v_rc s)
    (v_rmu s) (v_dxAff s) (v_dyAff s) v (v_dx s) (v_dy s) (v_dz s)
    (v_dSub s) (v_p s).

Definition set_dx (v : vec) (s : State) : State :=
  mkState (v_x s) (v_y s) (v_z s) (v_J s) (v_d s) (v_rb s) (v_rc s)
    (v_rmu s) (v_dxAff s) (v_dyAff s) (v_dzAff s) v (v_dy s) (v_dz s)
    (v_dSub s) (v_p s).

Definition set_dy (v : vec) (s : State) : State :=
  mkState (v_x s) (v_y s) (v_z s) (v_J s) (v_d s) (v_rb s) (v_rc s)
    (v_rmu s) (v_dxAff s) (v_dyAff s) (v_dzAff s) (v_dx s) v (v_dz s)
    (v_dSub s) (v_p s).

Definition set_dz (v : vec) (s : State) : State :=
  mkState (v_x s) (v_y s) (v_z s) (v_J s) (v_d s) (v_rb s) (v_rc s)
    (v_rmu s) (v_dxAff s) (v_dyAff s) (v_dzAff s) (v_dx s) (v_dy s) v
    (v_dSub s) (v_p s).

Definition set_dSub (v : vec) (s : State) : State :=
  mkState (v_x s) (v_y s) (v_z s) (v_J s) (v_d s) (v_rb s) (v_rc s)
    (v_rmu s) (v_dxAff s) (v_dyAff s) (v_dzAff s) (v_dx s) (v_dy s)
    (v_dz s) v (v_p s).

Definition set_p (v : list Int) (s : State) : State :=
  mkState (v_x s) (v_y s) (v_z s) (v_J s) (v_d s) (v_rb s) (v_rc s)
    (v_rmu s) (v_dxAff s) (v_dyAff s) (v_dzAff s) (v_dx s) (v_dy s)
    (v_dz s) (v_dSub s) v.

(** Default-constructed matrices are empty. *)
Definition EmptyMatrix : Matrix := mkMatrix 0 0 [].

Definition InitialState (x y z : vec) : State :=
  mkState x y z EmptyMatrix [] [] [] [] [] [] [] [] [] [] [] [].

(** ** Exceptions *)

(** The variadic arguments of [LogicError] and [RuntimeError], which are
    streamed into the message. *)
Inductive MsgArg : Type :=
| AInt (i : Int)
| AStr (t : string).

Inductive exn : Type :=
| LogicError (what : list MsgArg)
| RuntimeError (what : list MsgArg).

(** ** A state and exception monad

    [Unfinished] marks a loop that was still running when the iteration
    budget of the model was used up. *)
Inductive Result (A : Type) : Type :=
| Ok (a : A) (s : State)
| Raise (e : exn) (s : State)
| Unfinished (s : State).

Arguments Ok {A} a s.
Arguments Raise {A} e s.
Arguments Unfinished {A} s.

Definition M (A : Type) : Type := State -> Result A.

Definition ret {A : Type} (a : A) : M A := fun s => Ok a s.

Definition bind {A C : Type} (c : M A) (k : A -> M C) : M C :=
  fun s =>
    match c s with
    | Ok a s' => k a s'
    | Raise e s' => Raise e s'
    | Unfinished s' => Unfinished s'
    end.

Definition get {A : Type} (f : State -> A) : M A := fun s => Ok (f s) s.

Definition modify (f : State -> State) : M unit := fun s => Ok tt (f s).

Definition throw {A : Type} (e : exn) : M A := fun s => Raise e s.

Definition final_state {A : Type} (r : Result A) : State :=
  match r with
  | Ok _ s => s
  | Raise _ s => s
  | Unfinished s => s
  end.

Definition raised {A : Type} (r : Result A) : option exn :=
  match r with
  | Raise e _ => Some e
  | _ => None
  end.

Declare Scope driver_scope.
Delimit Scope driver_scope with driver.
Notation "v <- c ;; k" := (bind c (fun v => k))
  (at level 61, c at next level, right associativity) : driver_scope.
Notation "c ;; k" := (bind c (fun _ => k))
  (at level 61, right associativity) : driver_scope.

Definition Rleb (a b : Real) : bool := if Rle_dec a b then true else false.

(** ** Control structure and the collaborators of the driver *)

Inductive KKTSystem : Type := FULL_KKT | AUGMENTED_KKT | NORMAL_KKT.

(** Modelled from the spec: [MehrotraCtrl], the control configuration of
    section 3, with the members the driver reads. *)
Record MehrotraCtrl : Type := mkCtrl
  { initialized : bool;
    tol : Real;
    maxIts : Int;
    maxStepRatio : Real;
    system : KKTSystem;
    print : bool }.

Record Triple : Type := mkTriple { tx : vec; ty : vec; tz : vec }.

Record Factorization : Type := mkFact
  { fJ : Matrix; fdSub : vec; fp : list Int }.

(** The routines the driver delegates to: the initialization, the three
    KKT formulations with their right-hand sides and solution expansions,
    and the dense symmetric-indefinite factorization with its solve.  The
    arguments are those of the calls in the driver, in their order; output
    arguments of the C++ routines are results here.  [LDL] and
    [ldl::SolveAfter] work in place in the source, and
    [ExpandNormalSolution] reads the solved [dy] and returns [dx] and
    [dz]. *)
Record Backend : Type := mkBackend
  { Initialize : Matrix -> vec -> vec -> vec -> vec -> vec -> Triple;
    KKT : Matrix -> vec -> vec -> Matrix;
    KKTRHS : vec -> vec -> vec -> vec -> vec;
    ExpandSolution : nat -> nat -> vec -> Triple;
    AugmentedKKT : Matrix -> vec -> vec -> Matrix;
    AugmentedKKTRHS : vec -> vec -> vec -> vec -> vec;
    ExpandAugmentedSolution : vec -> vec -> vec -> vec -> Triple;
    NormalKKT : Matrix -> vec -> vec -> Matrix;
    NormalKKTRHS : Matrix -> vec -> vec -> vec -> vec -> vec -> vec;
    ExpandNormalSolution :
      Matrix -> vec -> vec -> vec -> vec -> vec -> vec -> vec * vec;
    LDL : Matrix -> Factorization;
    ldl_SolveAfter : Matrix -> vec -> list Int -> vec -> vec }.

(** ** The dense sequential driver *)

Section Driver.

Local Open Scope driver_scope.

Variable B : Backend.
Variable A : Matrix.
Variables b c : vec.
Variable ctrl : MehrotraCtrl.

Let m : nat := Height A.
Let n : nat := Width A.
Let bNrm2 : Real := Nrm2 b.
Let cNrm2 : Real := Nrm2 c.

(** Ensure that x and z are in the cone. *)
Definition ConeCheck : M unit :=
  xNumNonPos <- get (fun s => NumNonPositive (v_x s)) ;;
  zNumNonPos <- get (fun s => NumNonPositive (v_z s)) ;;
  if (0 <? xNumNonPos)%nat || (0 <? zNumNonPos)%nat then
    throw (LogicError
             [AInt (Z.of_nat xNumNonPos);
              AStr " entries of x were nonpositive and ";
              AInt (Z.of_nat zNumNonPos);
              AStr " entries of z were nonpositive"])
  else ret tt.

(** Check for convergence; the result says whether the loop is left. *)
Definition ConvergenceTest : M bool :=
  primObj <- get (fun s => Dot c (v_x s)) ;;
  dualObj <- get (fun s => - Dot b (v_y s)) ;;
  let objConv := Abs (primObj - dualObj) / (1 + Abs primObj) in
  modify (fun s => set_rb b s) ;;
  modify (fun s => set_rb (Scale (-1) (v_rb s)) s) ;;
  modify (fun s => set_rb (Gemv NORMAL 1 A (v_x s) 1 (v_rb s)) s) ;;
  rbNrm2 <- get (fun s => Nrm2 (v_rb s)) ;;
  let rbConv := rbNrm2 / (1 + bNrm2) in
  modify (fun s => set_rc c s) ;;
  modify (fun s => set_rc (Gemv TRANSPOSE 1 A (v_y s) 1 (v_rc s)) s) ;;
  modify (fun s => set_rc (Axpy (-1) (v_z s) (v_rc s)) s) ;;
  rcNrm2 <- get (fun s => Nrm2 (v_rc s)) ;;
  let rcConv := rcNrm2 / (1 + cNrm2) in
  ret (Rleb objConv (tol ctrl) && Rleb rbConv (tol ctrl)
       && Rleb rcConv (tol ctrl)).

(** Raise an exception after an unacceptable number of iterations. *)
Definition IterationCap (numIts : Int) : M unit :=
  if (numIts =? maxIts ctrl)%Z then
    throw (RuntimeError
             [AStr "Maximum number of iterations (";
              AInt (maxIts ctrl);
              AStr ") exceeded"])
  else ret tt.

(** [LDL( J, dSub, p, false )] *)
Definition Factor : M unit :=
  modify (fun s =>
            let F := LDL B (v_J s) in
            set_J (fJ F) (set_dSub (fdSub F) (set_p (fp F) s))).

(** [ldl::SolveAfter( J, dSub, p, d, false )] *)
Definition SolveD : M unit :=
  modify (fun s =>
            set_d (ldl_SolveAfter B (v_J s) (v_dSub s) (v_p s) (v_d s)) s).

(** r_mu := x o z, then the affine search direction. *)
Definition AffineDirection : M unit :=
  modify (fun s => set_rmu (v_z s) s) ;;
  modify (fun s => set_rmu (DiagonalScale (v_x s) (v_rmu s)) s) ;;
  match system ctrl with
  | FULL_KKT =>
      modify (fun s => set_J (KKT B A (v_x s) (v_z s)) s) ;;
      modify (fun s =>
                set_d (KKTRHS B (v_rc s) (v_rb s) (v_rmu s) (v_z s)) s) ;;
      Factor ;;
      SolveD ;;
      modify (fun s =>
                let t := ExpandSolution B m n (v_d s) in
                set_dxAff (tx t) (set_dyAff (ty t) (set_dzAff (tz t) s)))
  | AUGMENTED_KKT =>
      modify (fun s => set_J (AugmentedKKT B A (v_x s) (v_z s)) s) ;;
      modify (fun s =>
                set_d (AugmentedKKTRHS B (v_x s) (v_rc s) (v_rb s)
                         (v_rmu s)) s) ;;
      Factor ;;
      SolveD ;;
      modify (fun s =>
                let t := ExpandAugmentedSolution B (v_x s) (v_z s)
                           (v_rmu s) (v_d s) in
                set_dxAff (tx t) (set_dyAff (ty t) (set_dzAff (tz t) s)))
  | NORMAL_KKT =>
      modify (fun s => set_J (NormalKKT B A (v_x s) (v_z s)) s) ;;
      modify (fun s =>
                set_dyAff (NormalKKTRHS B A (v_x s) (v_z s) (v_rc s)
                             (v_rb s) (v_rmu s)) s) ;;
      Factor ;;
      modify (fun s =>
                set_dyAff (ldl_SolveAfter B (v_J s) (v_dSub s) (v_p s)
                             (v_dyAff s)) s) ;;
      modify (fun s =>
                let t := ExpandNormalSolution B A c (v_x s) (v_z s)
                           (v_rc s) (v_rmu s) (v_dyAff s) in
                set_dxAff (fst t) (set_dzAff (snd t) s))
  end.

(** Compute the maximum affine [0,1]-step which preserves positivity. *)
Definition AffineStepLengths : M (Real * Real) :=
  alphaAffPri <- get (fun s => StepLoop n (v_x s) (v_dxAff s) 1) ;;
  alphaAffDual <- get (fun s => StepLoop n (v_z s) (v_dzAff s) 1) ;;
  ret (alphaAffPri, alphaAffDual).

(** Compute what the new duality measure would become and the centrality
    parameter; [dx] and [dz] are used as temporaries. *)
Definition Centering (alphaAffPri alphaAffDual : Real) : M (Real * Real) :=
  mu <- get (fun s => Dot (v_x s) (v_z s) / INR n) ;;
  modify (fun s => set_dx (v_x s) s) ;;
  modify (fun s => set_dz (v_z s) s) ;;
  modify (fun s => set_dx (Axpy alphaAffPri (v_dxAff s) (v_dx s)) s) ;;
  modify (fun s => set_dz (Axpy alphaAffDual (v_dzAff s) (v_dz s)) s) ;;
  muAff <- get (fun s => Dot (v_dx s) (v_dz s) / INR n) ;;
  let sigma := Pow3 (muAff / mu) in
  ret (mu, sigma).

(** The solves for the centering-corrector, written once for the two
    dense drivers: they differ in how [rmu] is formed, not in the solves. *)
Definition CorrectorSolve : M unit :=
  match system ctrl with
  | FULL_KKT =>
      modify (fun s =>
                set_d (KKTRHS B (v_rc s) (v_rb s) (v_rmu s) (v_z s)) s) ;;
      SolveD ;;
      modify (fun s =>
                let t := ExpandSolution B m n (v_d s) in
                set_dx (tx t) (set_dy (ty t) (set_dz (tz t) s)))
  | AUGMENTED_KKT =>
      modify (fun s =>
                set_d (AugmentedKKTRHS B (v_x s) (v_rc s) (v_rb s)
                         (v_rmu s)) s) ;;
      SolveD ;;
      modify (fun s =>
                let t := ExpandAugmentedSolution B (v_x s) (v_z s)
                           (v_rmu s) (v_d s) in
                set_dx (tx t) (set_dy (ty t) (set_dz (tz t) s)))
  | NORMAL_KKT =>
      modify (fun s =>
                set_dy (NormalKKTRHS B A (v_x s) (v_z s) (v_rc s)
                          (v_rb s) (v_rmu s)) s) ;;
      modify (fun s =>
                set_dy (ldl_SolveAfter B (v_J s) (v_dSub s) (v_p s)
                          (v_dy s)) s) ;;
      modify (fun s =>
                let t := ExpandNormalSolution B A c (v_x s) (v_z s)
                           (v_rc s) (v_rmu s) (v_dy s) in
                set_dx (fst t) (set_dz (snd t) s))
  end.

(** Add in the affine search direction. *)
Definition AddAffine : M unit :=
  modify (fun s => set_dx (Axpy 1 (v_dxAff s) (v_dx s)) s) ;;
  modify (fun s => set_dy (Axpy 1 (v_dyAff s) (v_dy s)) s) ;;
  modify (fun s => set_dz (Axpy 1 (v_dzAff s) (v_dz s)) s).

(** Solve for the centering-corrector (sequential driver):
    [rmu = dzAff; DiagonalScale( LEFT, NORMAL, dxAff, rmu )]. *)
Definition CorrectorDirection (mu sigma : Real) : M unit :=
  modify (fun s => set_rc (Zeros n) s) ;;
  modify (fun s => set_rb (Zeros m) s) ;;
  modify (fun s => set_rmu (v_dzAff s) s) ;;
  modify (fun s => set_rmu (DiagonalScale (v_dxAff s) (v_rmu s)) s) ;;
  modify (fun s => set_rmu (Shift (v_rmu s) (- sigma * mu)) s) ;;
  CorrectorSolve ;;
  AddAffine.

(** Compute the max positive [0,1/maxStepRatio] step length. *)
Definition StepLengths : M (Real * Real) :=
  alphaPri <- get (fun s =>
                     StepLoop n (v_x s) (v_dx s) (1 / maxStepRatio ctrl)) ;;
  alphaDual <- get (fun s =>
                      StepLoop n (v_z s) (v_dz s) (1 / maxStepRatio ctrl)) ;;
  let alphaPri := Min (maxStepRatio ctrl * alphaPri) 1 in
  let alphaDual := Min (maxStepRatio ctrl * alphaDual) 1 in
  ret (alphaPri, alphaDual).

(** Update the current estimates. *)
Definition Update (alphaPri alphaDual : Real) : M unit :=
  modify (fun s => set_x (Axpy alphaPri (v_dx s) (v_x s)) s) ;;
  modify (fun s => set_y (Axpy alphaDual (v_dy s) (v_y s)) s) ;;
  modify (fun s => set_z (Axpy alphaDual (v_dz s) (v_z s)) s).

(** From the affine direction to the combined search direction. *)
Definition SearchDirection : M unit :=
  AffineDirection ;;
  alphaAff <- AffineStepLengths ;;
  ms <- Centering (fst alphaAff) (snd alphaAff) ;;
  CorrectorDirection (fst ms) (snd ms).

(** Step lengths and update of the current estimates. *)
Definition TakeStep : M unit :=
  alpha <- StepLengths ;;
  Update (fst alpha) (snd alpha).

(** The part of an iteration that follows the iteration cap. *)
Definition Step : M unit :=
  SearchDirection ;;
  TakeStep.

(** [for( Int numIts=0; ; ++numIts ) { ... }] *)
Fixpoint Loop (fuel : nat) (numIts : Int) : M unit :=
  match fuel with
  | O => fun s => Unfinished s
  | S fuel' =>
      ConeCheck ;;
      converged <- ConvergenceTest ;;
      if converged then ret tt
      else
        IterationCap numIts ;;
        Step ;;
        Loop fuel' (numIts + 1)%Z
  end.

Definition Initialization : M unit :=
  if negb (initialized ctrl) then
    modify (fun s =>
              let t := Initialize B A b c (v_x s) (v_y s) (v_z s) in
              set_x (tx t) (set_y (ty t) (set_z (tz t) s)))
  else ret tt.

Definition MehrotraBody (fuel : nat) : M unit :=
  Initialization ;;
  Loop fuel 0%Z.

(** [lp::primal::Mehrotra] on [Matrix<Real>] arguments.  [fuel] bounds the
    number of loop iterations the model follows. *)
Definition Mehrotra (fuel : nat) (x y z : vec) : Result unit :=
  MehrotraBody fuel (InitialState x y z).

End Driver.

(** ** The dense distributed driver *)

(** The process grid: [gridHeight] process rows, [gridWidth] process
    columns. *)
Record Grid : Type := mkGrid { gridHeight : nat; gridWidth : nat }.

(** Modelled from the spec: the distributed matrix abstraction (an external
    collaborator of section 1).  The driver's proxies request an [MC,MR]
    element-wise distribution with both alignments 0, and [dx], [dz],
    [dxAff], [dzAff] are aligned with [x]: on the process in grid row [k]
    and grid column [j] the column shift is [Shift_ k 0 gridHeight], the row
    shift is [Shift_ j 0 gridWidth], and column 0 is local when the row
    shift is 0. *)
Definition IsLocalCol0 (g : Grid) (j : nat) : bool :=
  (Shift_ (Z.of_nat j) 0%Z (Z.of_nat (gridWidth g)) =? 0)%Z.

(** Modelled from the spec: [x.LocalHeight()] of the distributed matrix
    abstraction, through the indexing helper [Length_]. *)
Definition LocalHeight (g : Grid) (k : nat) (x : vec) : nat :=
  Z.to_nat (Length_ (Z.of_nat (length x))
                    (Shift_ (Z.of_nat k) 0%Z (Z.of_nat (gridHeight g)))
                    (Z.of_nat (gridHeight g))).

(** Modelled from the spec: [x.GetLocal(iLoc,0)] of the distributed matrix
    abstraction, through the indexing helper [GlobalIndex]. *)
Definition GetLocal (g : Grid) (k : nat) (x : vec) (iLoc : nat) : Real :=
  Get x (Z.to_nat (GlobalIndex (Z.of_nat iLoc)
                     (Shift_ (Z.of_nat k) 0%Z (Z.of_nat (gridHeight g)))
                     (Z.of_nat (gridHeight g)))).

(** The local part of a step-length computation on process [(k,j)]:
<<
    if( x.IsLocalCol(0) )
        for( Int iLoc=0; iLoc<x.LocalHeight(); ++iLoc )
        {
            const Real xi = x.GetLocal(iLoc,0);
            const Real dxi = dx.GetLocal(iLoc,0);
            if( dxi < Real(0) )
                alpha = Min(alpha,-xi/dxi);
        }
>> *)
Definition LocalStepBody (g : Grid) (k : nat) (x dx : vec) (alpha : Real)
    (iLoc : nat) : Real :=
  let xi := GetLocal g k x iLoc in
  let dxi := GetLocal g k dx iLoc in
  if Rlt_dec dxi 0 then Min alpha (- xi / dxi) else alpha.

Definition LocalStepLoop (g : Grid) (k j : nat) (x dx : vec) (alpha : Real)
    : Real :=
  if IsLocalCol0 g j then
    fold_left (LocalStepBody g k x dx) (seq 0 (LocalHeight g k x)) alpha
  else alpha.

(** The grid positions of the processes of [x.DistComm()]. *)
Definition Ranks (g : Grid) : list (nat * nat) :=
  list_prod (seq 0 (gridHeight g)) (seq 0 (gridWidth g)).

(** Modelled from the spec: [mpi::AllReduce( alpha, mpi::MIN, comm )], the
    collective reduction of section 6: every process receives the minimum
    of the contributions of all processes. *)
Definition AllReduceMin (contributions : list Real) : Real :=
  match contributions with
  | [] => 0
  | a :: rest => fold_left Min rest a
  end.

Definition DistStepLoop (g : Grid) (x dx : vec) (alpha : Real) : Real :=
  AllReduceMin
    (map (fun r => LocalStepLoop g (fst r) (snd r) x dx alpha) (Ranks g)).

Section DistDriver.

Local Open Scope driver_scope.

Variable B : Backend.
Variable g : Grid.
Variable A : Matrix.
Variables b c : vec.
Variable ctrl : MehrotraCtrl.

Let m : nat := Height A.
Let n : nat := Width A.

(** The statements of the distributed driver for the cone check, the
    convergence test, the iteration cap, the affine direction, the duality
    measure, the corrector solves, the addition of the affine direction and
    the update are those of the sequential driver on distributed operands;
    [ConeCheck], [ConvergenceTest], [IterationCap], [AffineDirection],
    [Centering], [CorrectorSolve], [AddAffine] and [Update] stand for them,
    with every distributed norm and dot product read as the global one. *)

Definition DistAffineStepLengths : M (Real * Real) :=
  alphaAffPri <- get (fun s => DistStepLoop g (v_x s) (v_dxAff s) 1) ;;
  alphaAffDual <- get (fun s => DistStepLoop g (v_z s) (v_dzAff s) 1) ;;
  ret (alphaAffPri, alphaAffDual).

(** Solve for the centering-corrector (distributed driver):
    [rmu = dxAff; DiagonalScale( LEFT, NORMAL, dzAff, rmu )]. *)
Definition DistCorrectorDirection (mu sigma : Real) : M unit :=
  modify (fun s => set_rc (Zeros n) s) ;;
  modify (fun s => set_rb (Zeros m) s) ;;
  modify (fun s => set_rmu (v_dxAff s) s) ;;
  modify (fun s => set_rmu (DiagonalScale (v_dzAff s) (v_rmu s)) s) ;;
  modify (fun s => set_rmu (Shift (v_rmu s) (- sigma * mu)) s) ;;
  CorrectorSolve B A c ctrl ;;
  AddAffine.

Definition DistStepLengths : M (Real * Real) :=
  alphaPri <- get (fun s =>
                     DistStepLoop g (v_x s) (v_dx s)
                       (1 / maxStepRatio ctrl)) ;;
  alphaDual <- get (fun s =>
                      DistStepLoop g (v_z s) (v_dz s)
                        (1 / maxStepRatio ctrl)) ;;
  let alphaPri := Min (maxStepRatio ctrl * alphaPri) 1 in
  let alphaDual := Min (maxStepRatio ctrl * alphaDual) 1 in
  ret (alphaPri, alphaDual).

Definition DistSearchDirection : M unit :=
  AffineDirection B A c ctrl ;;
  alphaAff <- DistAffineStepLengths ;;
  ms <- Centering A (fst alphaAff) (snd alphaAff) ;;
  DistCorrectorDirection (fst ms) (snd ms).

Definition DistTakeStep : M unit :=
  alpha <- DistStepLengths ;;
  Update (fst alpha) (snd alpha).

Definition DistStep : M unit :=
  DistSearchDirection ;;
  DistTakeStep.

Fixpoint DistLoop (fuel : nat) (numIts : Int) : M unit :=
  match fuel with
  | O => fun s => Unfinished s
  | S fuel' =>
      ConeCheck ;;
      converged <- ConvergenceTest A b c ctrl ;;
      if converged then ret tt
      else
        IterationCap ctrl numIts ;;
        DistStep ;;
        DistLoop fuel' (numIts + 1)%Z
  end.

Definition DistMehrotraBody (fuel : nat) : M unit :=
  Initialization B A b c ctrl ;;
  DistLoop fuel 0%Z.

(** [lp::primal::Mehrotra] on [AbstractDistMatrix<Real>] arguments. *)
Definition DistMehrotra (fuel : nat) (x y z : vec) : Result unit :=
  DistMehrotraBody fuel (InitialState x y z).

End DistDriver.

(** ** The sparse sequential specialisation *)

(** [SparseMatrix<Real>]: dimensions and the list of (row, column, value)
    entries. *)
Record SparseMatrix : Type := mkSparse
  { sHeight : nat;
    sWidth : nat;
    sEntries : list (nat * nat * Real) }.

(** [lp::primal::Mehrotra] on a [SparseMatrix<Real>] and [Matrix<Real>]
    vectors. *)
Definition SparseMehrotra (A : SparseMatrix) (b c : vec)
    (ctrl : MehrotraCtrl) (x y z : vec) : Result unit :=
  throw (LogicError
           [AStr "Sequential sparse-direct solvers not yet supported"])
        (InitialState x y z).

(** ** The regularized solve layer *)

(** Modelled from the spec: [Multiply( NORMAL, alpha, A, X, beta, Y )] for a
    sparse [A], the matrix-vector product [Y := alpha A X + beta Y] of
    section 6; entries with equal coordinates add up. *)
Definition SparseRowDot (A : SparseMatrix) (i : nat) (X : vec) : Real :=
  fold_right
    (fun e acc =>
       if (fst (fst e) =? i)%nat then snd e * Get X (snd (fst e)) + acc
       else acc)
    0 (sEntries A).

Definition Multiply (alpha : Real) (A : SparseMatrix) (X : vec) (beta : Real)
    (Y : vec) : vec :=
  map (fun i => alpha * SparseRowDot A i X + beta * Get Y i)
      (seq 0 (length Y)).

(** A numeric sparse factorization, seen through its [Solve] member. *)
Record SparseLDLFactorization : Type := mkSparseLDL
  { Solve : vec -> vec }.

Record RefinedSolveInfo : Type := mkRefinedSolveInfo
  { refined_numIts : Int;
    refined_relTol : Real;
    refined_metRequestedTol : bool }.

Record RegSolveInfo : Type := mkRegSolveInfo
  { numIts : Int;
    relTol : Real;
    metRequestedTol : bool }.

Section RegularizedSolve.

(** The norm in which [RefinedSolve] measures residuals and its minimum
    reduction factor are internal to that routine. *)
Variable norm : vec -> Real.
Variable minReductionFactor : Real.

(** Modelled from the spec: the loop of [RefinedSolve] (section 4.1): apply
    the factored-surrogate inverse as a correction step to the current
    residual; stop when the relative residual is at most [relTol], after
    [maxRefineIts] steps, or when the residual stops decreasing by at least
    the minimum reduction factor, in which case the best iterate is
    reported with a "tolerance not met" status. *)
Fixpoint RefineLoop (applyA applyAInv : vec -> vec) (relTol : Real)
    (bOrig : vec) (bNorm : Real) (its : nat) (x r : vec)
    (errorNorm : Real) (numIts : Int) : RefinedSolveInfo * vec :=
  if Rleb (errorNorm / bNorm) relTol then
    (mkRefinedSolveInfo numIts (errorNorm / bNorm) true, x)
  else
    match its with
    | O => (mkRefinedSolveInfo numIts (errorNorm / bNorm) false, x)
    | S its' =>
        let dx := applyAInv r in
        let xCand := Axpy 1 dx x in
        let rCand := Axpy (-1) (applyA xCand) bOrig in
        let newErrorNorm := norm rCand in
        if Rleb (minReductionFactor * newErrorNorm) errorNorm then
          RefineLoop applyA applyAInv relTol bOrig bNorm its' xCand rCand
            newErrorNorm (numIts + 1)%Z
        else if Rlt_dec newErrorNorm errorNorm then
          (mkRefinedSolveInfo (numIts + 1)%Z (newErrorNorm / bNorm) false,
           xCand)
        else
          (mkRefinedSolveInfo numIts (errorNorm / bNorm) false, x)
    end.

(** Modelled from the spec: [RefinedSolve( applyA, applyAInv, B, relTol,
    maxRefineIts, progress )] (section 4.1).  The solution overwrites [B]
    in the source; it is the second component here. *)
Definition RefinedSolve (applyA applyAInv : vec -> vec) (B : vec)
    (relTol : Real) (maxRefineIts : Int) (progress : bool)
    : RefinedSolveInfo * vec :=
  let bNorm := norm B in
  let x := applyAInv B in
  let r := Axpy (-1) (applyA x) B in
  RefineLoop applyA applyAInv relTol B bNorm (Z.to_nat maxRefineIts) x r
    (norm r) 0%Z.

(** [PromotedRefinedSolve] is the refinement routine that applies the
    matrix in the promoted type. *)
Variable PromotedRefinedSolve :
  (vec -> vec) -> (vec -> vec) -> vec -> Real -> Int -> bool ->
  RefinedSolveInfo * vec.

(** The numeric types [Field] the routines are instantiated at, with the
    type function [Promote] and the type equality test [IsSame]. *)
Variable FieldType : Type.
Variable FieldType_eq_dec : forall F G : FieldType, {F = G} + {F <> G}.
Variable Promote : FieldType -> FieldType.

Definition IsSame (F G : FieldType) : bool :=
  if FieldType_eq_dec F G then true else false.

(** The lambda [applyA] of the [RegularizedSolveAfter] family:
<<
    Y = X;
    DiagonalScale( LEFT, NORMAL, reg, Y );
    Multiply( NORMAL, Field(1), A, X, Field(1), Y );
>> *)
Definition applyA (A : SparseMatrix) (reg : vec) (X : vec) : vec :=
  let Y := X in
  let Y := DiagonalScale reg Y in
  Multiply 1 A X 1 Y.

(** The lambda [applyAInv] without and with the diagonal scaling [d]. *)
Definition applyAInv (sparseLDLFact : SparseLDLFactorization) (Y : vec)
    : vec :=
  Solve sparseLDLFact Y.

Definition applyAInvScaled (d : vec)
    (sparseLDLFact : SparseLDLFactorization) (Y : vec) : vec :=
  let Y := DiagonalSolve d Y in
  let Y := Solve sparseLDLFact Y in
  DiagonalSolve d Y.

Definition toRegSolveInfo (refinedInfo : RefinedSolveInfo) : RegSolveInfo :=
  mkRegSolveInfo (refined_numIts refinedInfo) (refined_relTol refinedInfo)
    (refined_metRequestedTol refinedInfo).

Definition RegularizedSolveAfterNoPromote (A : SparseMatrix) (reg : vec)
    (sparseLDLFact : SparseLDLFactorization) (B : vec) (relTol : Real)
    (maxRefineIts : Int) (progress time : bool) : RegSolveInfo * vec :=
  let refined :=
    RefinedSolve (applyA A reg) (applyAInv sparseLDLFact) B relTol
      maxRefineIts progress in
  (toRegSolveInfo (fst refined), snd refined).

(** For the case where [diag(d) A diag(d)] was factored rather than [A]. *)
Definition RegularizedSolveAfterNoPromoteScaled (A : SparseMatrix)
    (reg d : vec) (sparseLDLFact : SparseLDLFactorization) (B : vec)
    (relTol : Real) (maxRefineIts : Int) (progress time : bool)
    : RegSolveInfo * vec :=
  let refined :=
    RefinedSolve (applyA A reg) (applyAInvScaled d sparseLDLFact) B relTol
      maxRefineIts progress in
  (toRegSolveInfo (fst refined), snd refined).

(** The two overloads of [RegularizedSolveAfterPromote] are selected by
    [EnableIf]/[DisableIf] on [IsSame<Field,Promote<Field>>].  In the
    promoted overload [Copy( A, AProm )] and [Copy( reg, regProm )] convert
    to the promoted type, which does not change the values. *)
Definition RegularizedSolveAfterPromote (Field : FieldType)
    (A : SparseMatrix) (reg : vec) (sparseLDLFact : SparseLDLFactorization)
    (B : vec) (relTol : Real) (maxRefineIts : Int) (progress time : bool)
    : RegSolveInfo * vec :=
  if IsSame Field (Promote Field) then
    RegularizedSolveAfterNoPromote A reg sparseLDLFact B relTol maxRefineIts
      progress time
  else
    let AProm := A in
    let regProm := reg in
    let refined :=
      PromotedRefinedSolve (applyA AProm regProm) (applyAInv sparseLDLFact)
        B relTol maxRefineIts progress in
    (toRegSolveInfo (fst refined), snd refined).

Definition RegularizedSolveAfterPromoteScaled (Field : FieldType)
    (A : SparseMatrix) (reg d : vec)
    (sparseLDLFact : SparseLDLFactorization) (B : vec) (relTol : Real)
    (maxRefineIts : Int) (progress time : bool) : RegSolveInfo * vec :=
  if IsSame Field (Promote Field) then
    RegularizedSolveAfterNoPromoteScaled A reg d sparseLDLFact B relTol
      maxRefineIts progress time
  else
    let AProm := A in
    let regProm := reg in
    let refined :=
      PromotedRefinedSolve (applyA AProm regProm)
        (applyAInvScaled d sparseLDLFact) B relTol maxRefineIts progress in
    (toRegSolveInfo (fst refined), snd refined).

Definition RegularizedSolveAfter (Field : FieldType) (A : SparseMatrix)
    (reg : vec) (sparseLDLFact : SparseLDLFactorization) (B : vec)
    (relTol : Real) (maxRefineIts : Int) (progress time : bool)
    : RegSolveInfo * vec :=
  RegularizedSolveAfterPromote Field A reg sparseLDLFact B relTol
    maxRefineIts progress time.

Definition RegularizedSolveAfterScaled (Field : FieldType)
    (A : SparseMatrix) (reg d : vec)
    (sparseLDLFact : SparseLDLFactorization) (B : vec) (relTol : Real)
    (maxRefineIts : Int) (progress time : bool) : RegSolveInfo * vec :=
  RegularizedSolveAfterPromoteScaled Field A reg d sparseLDLFact B relTol
    maxRefineIts progress time.

End RegularizedSolve.

(** ** Statements in the words of the specification *)

Definition Positive (x : vec) : Prop := Forall (fun v => 0 < v) x.

(** x and z are in the cone. *)
Definition InCone (s : State) : Prop :=
  Positive (v_x s) /\ Positive (v_z s).




(** The three convergence criteria. *)
Definition RelativeGap (b c x y : vec) : Real :=
  Rabs (Dot c x - (- Dot b y)) / (1 + Rabs (Dot c x)).

Definition PrimalResidual (A : Matrix) (b x : vec) : vec :=
  map (fun i => rsum (fun j => MGet A i j * Get x j) (Width A) - Get b i)
      (seq 0 (Height A)).

Definition DualResidual (A : Matrix) (c y z : vec) : vec :=
  map (fun j =>
         rsum (fun i => MGet A i j * Get y i) (Height A) - Get z j
         + Get c j)
      (seq 0 (Width A)).

Definition Converged (A : Matrix) (b c : vec) (ctrl : MehrotraCtrl)
    (s : State) : Prop :=
  RelativeGap b c (v_x s) (v_y s) <= tol ctrl
  /\ Nrm2 (PrimalResidual A b (v_x s)) / (1 + Nrm2 b) <= tol ctrl
  /\ Nrm2 (DualResidual A c (v_y s) (v_z s)) / (1 + Nrm2 c) <= tol ctrl.

Section Runs.

Variable B : Backend.
Variable A : Matrix.
Variables b c : vec.
Variable ctrl : MehrotraCtrl.

(** The iterate with which the loop is entered. *)
Definition EntryState (x y z : vec) : State :=
  final_state (Initialization B A b c ctrl (InitialState x y z)).

(** The effect of one full pass through the loop body. *)
Definition Advance (s : State) : State :=
  final_state (bind (ConvergenceTest A b c ctrl)
                    (fun _ => Step B A c ctrl) s).

(** The state at the top of iteration [k], as long as the loop runs. *)
Definition TopState (x y z : vec) (k : nat) : State :=
  Nat.iter k Advance (EntryState x y z).

(** Iteration [k] is started: every earlier iteration passed the cone
    check, failed the convergence test and was below the cap. *)
Definition Started (x y z : vec) (k : nat) : Prop :=
  forall j, (j < k)%nat ->
    InCone (TopState x y z j)
    /\ ~ Converged A b c ctrl (TopState x y z j)
    /\ Z.of_nat j <> maxIts ctrl.

Definition Succeeds (x y z : vec) : Prop :=
  exists fuel s, Mehrotra B A b c ctrl fuel x y z = Ok tt s.

Definition RaisesLogicError (x y z : vec) : Prop :=
  exists fuel what s,
    Mehrotra B A b c ctrl fuel x y z = Raise (LogicError what) s.

Definition RaisesRuntimeError (x y z : vec) : Prop :=
  exists fuel what s,
    Mehrotra B A b c ctrl fuel x y z = Raise (RuntimeError what) s.

(** The matrix that is factored for the affine step. *)
Definition KKTMatrix (x z : vec) : Matrix :=
  match system ctrl with
  | FULL_KKT => KKT B A x z
  | AUGMENTED_KKT => AugmentedKKT B A x z
  | NORMAL_KKT => NormalKKT B A x z
  end.

(** The solve against a factorization [F] of the chosen formulation, for
    the residuals [rc], [rb], [rmu], expanded to a search direction. *)
Definition SolveDirection (F : Factorization) (x z rc rb rmu : vec)
    : Triple :=
  match system ctrl with
  | FULL_KKT =>
      ExpandSolution B (Height A) (Width A)
        (ldl_SolveAfter B (fJ F) (fdSub F) (fp F)
           (KKTRHS B rc rb rmu z))
  | AUGMENTED_KKT =>
      ExpandAugmentedSolution B x z rmu
        (ldl_SolveAfter B (fJ F) (fdSub F) (fp F)
           (AugmentedKKTRHS B x rc rb rmu))
  | NORMAL_KKT =>
      let dy := ldl_SolveAfter B (fJ F) (fdSub F) (fp F)
                  (NormalKKTRHS B A x z rc rb rmu) in
      let t := ExpandNormalSolution B A c x z rc rmu dy in
      mkTriple (fst t) dy (snd t)
  end.

End Runs.

(** The same notions for the distributed driver. *)
Definition DistAdvance (B : Backend) (g : Grid) (A : Matrix) (b c : vec)
    (ctrl : MehrotraCtrl) (s : State) : State :=
  final_state (bind (ConvergenceTest A b c ctrl)
                    (fun _ => DistStep B g A c ctrl) s).

Definition DistTopState (B : Backend) (g : Grid) (A : Matrix) (b c : vec)
    (ctrl : MehrotraCtrl) (x y z : vec) (k : nat) : State :=
  Nat.iter k (DistAdvance B g A b c ctrl) (EntryState B A b c ctrl x y z).










(** Modelled from the spec: the initialization routine produces its
    starting iterate from (A, b, c) alone (section 6); the routine itself,
    [lp::primal::Initialize], is a collaborator of the driver. *)
Definition InitializeFromData (B : Backend) : Prop :=
  forall A b c x y z x' y' z',
    Initialize B A b c x y z = Initialize B A b c x' y' z'.

(** Modelled from the spec: the solution expansions return [dx] and [dz]
    of one height (section 4.4: blocks of length n, m, n). *)
Definition ExpandConformal (B : Backend) : Prop :=
  (forall m n d,
      length (tx (ExpandSolution B m n d))
      = length (tz (ExpandSolution B m n d)))
  /\ (forall x z rmu d,
         length (tx (ExpandAugmentedSolution B x z rmu d))
         = length (tz (ExpandAugmentedSolution B x z rmu d)))
  /\ (forall A c x z rc rmu dy,
         length (fst (ExpandNormalSolution B A c x z rc rmu dy))
         = length (snd (ExpandNormalSolution B A c x z rc rmu dy))).

(** The residual of the system with the matrix argument [A] alone,
    [B - A X]. *)
Definition UnregularizedResidual (A : SparseMatrix) (B X : vec) : vec :=
  Axpy (-1) (Multiply 1 A X 0 (Zeros (length B))) B.

(** The entry (i, j) of the matrix a [SparseMatrix] stands for: the
    stored values with these coordinates add up. *)
Definition SparseEntry (A : SparseMatrix) (i j : nat) : Real :=
  fold_right
    (fun e acc =>
       if ((fst (fst e) =? i) && (snd (fst e) =? j))%nat then snd e + acc
       else acc)
    0 (sEntries A).

(** The entry (i, j) of the regularized matrix [A + diag(reg)]. *)
Definition RegularizedEntry (A : SparseMatrix) (reg : vec) (i j : nat)
    : Real :=
  SparseEntry A i j + (if (i =? j)%nat then Get reg i else 0).

(** The residual of the regularized system, [B - (A + diag(reg)) X],
    entry by entry. *)
Definition RegularizedResidual (A : SparseMatrix) (reg B X : vec) : vec :=
  map (fun i =>
         Get B i
         - rsum (fun j => RegularizedEntry A reg i j * Get X j) (sWidth A))
      (seq 0 (length B)).

(** An [n x n] sparse matrix whose stored entries lie inside it. *)
Definition SquareSparse (A : SparseMatrix) (n : nat) : Prop :=
  sHeight A = n /\ sWidth A = n
  /\ Forall (fun e => (fst (fst e) < n)%nat /\ (snd (fst e) < n)%nat)
            (sEntries A).

(** Modelled from the spec: what a refinement routine reports (section
    4.1, iterative refinement and precision promotion; [RefinedSolve] and
    [PromotedRefinedSolve] are not under src/).  When the routine reports
    the requested tolerance as met, the relative residual of the returned
    solution, for the operator the routine was given, is within the
    tolerance; and the solution has the height of the right-hand side when
    the inverse application keeps heights. *)
Definition RefinementContract (norm : vec -> Real)
    (solve : (vec -> vec) -> (vec -> vec) -> vec -> Real -> Int -> bool ->
             RefinedSolveInfo * vec) : Prop :=
  forall applyA' applyAInv' B relTol' maxRefineIts progress,
    let res := solve applyA' applyAInv' B relTol' maxRefineIts progress in
    (refined_metRequestedTol (fst res) = true ->
     norm (Axpy (-1) (applyA' (snd res)) B) / norm B <= relTol')
    /\ ((forall Y, length (applyAInv' Y) = length Y) ->
        length (snd res) = length B).

(** ** The cone check, the step-length rule and the update over an
       arbitrary arithmetic

    [Mehrotra] is a template over [Real].  The statements of an iteration
    whose outcome depends on how [Real] rounds, which are the cone check,
    the step-length loops and the update, are given here once more over an
    arbitrary arithmetic: a carrier with the constants, the operations and
    the comparisons these statements use. *)
Record Arithmetic : Type := mkArithmetic
  { num : Type;
    a_zero : num;
    a_one : num;
    a_add : num -> num -> num;
    a_mul : num -> num -> num;
    a_div : num -> num -> num;
    a_opp : num -> num;
    a_ltb : num -> num -> bool;
    a_leb : num -> num -> bool }.

Definition Rltb (a b : Real) : bool := if Rlt_dec a b then true else false.

(** The arithmetic of the real numbers, in which the drivers above are
    written. *)
Definition RealArithmetic : Arithmetic :=
  mkArithmetic Real 0 1 Rplus Rmult Rdiv Ropp Rltb Rleb.


Module Generic.

Section Kernels.

Variable Ar : Arithmetic.

Local Abbreviation Num := (num Ar).
Local Notation "0" := (a_zero Ar).
Local Notation "1" := (a_one Ar).
Local Infix "+" := (a_add Ar).
Local Infix "*" := (a_mul Ar).
Local Infix "/" := (a_div Ar).
Local Notation "- a" := (a_opp Ar a).
Local Infix "<?" := (a_ltb Ar).
Local Infix "<=?" := (a_leb Ar).

(** [x.Get(i,0)] *)
Definition Get (x : list Num) (i : nat) : Num := nth i x 0.

(** [El::Min] is [std::min]: the second argument wins only when it is
    strictly smaller. *)
Definition Min (a b : Num) : Num := if b <? a then b else a.

(** Modelled from the spec: [Axpy(alpha, X, Y)], the scaled accumulation
    [Y := Y + alpha X] (section 6), entry by entry in the arithmetic. *)
Fixpoint Axpy (alpha : Num) (X Y : list Num) : list Num :=
  match Y with
  | [] => []
  | b :: Y' =>
      match X with
      | [] => Y
      | a :: X' => (b + alpha * a) :: Axpy alpha X' Y'
      end
  end.

(** Modelled from the spec: [NumNonPositive(x)], the number of entries of
    [x] that are not strictly positive (the cone check of section 4.3), by
    the comparison [<=] of the arithmetic. *)
Fixpoint NumNonPositive (x : list Num) : nat :=
  match x with
  | [] => O
  | a :: x' => if a <=? 0 then S (NumNonPositive x') else NumNonPositive x'
  end.

(** Ensure that x and z are in the cone: the exception the check at the
    top of an iteration raises, if any. *)
Definition ConeCheck (x z : list Num) : option exn :=
  let xNumNonPos := NumNonPositive x in
  let zNumNonPos := NumNonPositive z in
  if (0 <? xNumNonPos)%nat || (0 <? zNumNonPos)%nat then
    Some (LogicError
            [AInt (Z.of_nat xNumNonPos);
             AStr " entries of x were nonpositive and ";
             AInt (Z.of_nat zNumNonPos);
             AStr " entries of z were nonpositive"])
  else None.

(** The body and the loop of
<<
    for( Int i=0; i<n; ++i )
    {
        const Real xi = x.Get(i,0);
        const Real dxi = dx.Get(i,0);
        if( dxi < Real(0) )
            alpha = Min(alpha,-xi/dxi);
    }
>> *)
Definition StepBody (x dx : list Num) (alpha : Num) (i : nat) : Num :=
  let xi := Get x i in
  let dxi := Get dx i in
  if dxi <? 0 then Min alpha (- xi / dxi) else alpha.

Definition StepLoop (n : nat) (x dx : list Num) (alpha : Num) : Num :=
  fold_left (StepBody x dx) (seq 0 n) alpha.

(** Compute the maximum affine [0,1]-step which preserves positivity. *)
Definition AffineStepLengths (n : nat) (x z dxAff dzAff : list Num)
    : Num * Num :=
  let alphaAffPri := StepLoop n x dxAff 1 in
  let alphaAffDual := StepLoop n z dzAff 1 in
  (alphaAffPri, alphaAffDual).

(** Compute the max positive [0,1/maxStepRatio] step length:
<<
    Real alphaPri = 1/ctrl.maxStepRatio;
    for( ... ) ...
    Real alphaDual = 1/ctrl.maxStepRatio;
    for( ... ) ...
    alphaPri = Min(ctrl.maxStepRatio*alphaPri,Real(1));
    alphaDual = Min(ctrl.maxStepRatio*alphaDual,Real(1));
>> *)
Definition StepLengths (maxStepRatio : Num) (n : nat)
    (x z dx dz : list Num) : Num * Num :=
  let alphaPri := StepLoop n x dx (1 / maxStepRatio) in
  let alphaDual := StepLoop n z dz (1 / maxStepRatio) in
  let alphaPri := Min (maxStepRatio * alphaPri) 1 in
  let alphaDual := Min (maxStepRatio * alphaDual) 1 in
  (alphaPri, alphaDual).

(** The iterate (x, y, z), and a search direction (dx, dy, dz). *)
Record Iterate : Type := mkIterate
  { ix : list Num; iy : list Num; iz : list Num }.

(** Update the current estimates:
<<
    Axpy( alphaPri,  dx, x );
    Axpy( alphaDual, dy, y );
    Axpy( alphaDual, dz, z );
>> *)
Definition Update (alphaPri alphaDual : Num) (d it : Iterate) : Iterate :=
  mkIterate (Axpy alphaPri (ix d) (ix it))
            (Axpy alphaDual (iy d) (iy it))
            (Axpy alphaDual (iz d) (iz it)).

(** Step lengths and update of the current estimates, for the search
    direction [d]. *)
Definition TakeStep (maxStepRatio : Num) (n : nat) (d it : Iterate)
    : Iterate :=
  let alpha := StepLengths maxStepRatio n (ix it) (iz it) (ix d) (iz d) in
  Update (fst alpha) (snd alpha) d it.

(** The same for the distributed driver: local loops followed by the MIN
    all-reduce.  Modelled from the spec: [x.GetLocal(iLoc,0)] and
    [x.LocalHeight()] of the distributed matrix abstraction, through the
    indexing helpers [GlobalIndex] and [Length_]. *)
Definition GetLocal (g : Grid) (k : nat) (x : list Num) (iLoc : nat)
    : Num :=
  Get x (Z.to_nat (GlobalIndex (Z.of_nat iLoc)
                     (Shift_ (Z.of_nat k) 0%Z (Z.of_nat (gridHeight g)))
                     (Z.of_nat (gridHeight g)))).

Definition LocalHeight (g : Grid) (k : nat) (x : list Num) : nat :=
  Z.to_nat (Length_ (Z.of_nat (length x))
                    (Shift_ (Z.of_nat k) 0%Z (Z.of_nat (gridHeight g)))
                    (Z.of_nat (gridHeight g))).

Definition LocalStepBody (g : Grid) (k : nat) (x dx : list Num)
    (alpha : Num) (iLoc : nat) : Num :=
  let xi := GetLocal g k x iLoc in
  let dxi := GetLocal g k dx iLoc in
  if dxi <? 0 then Min alpha (- xi / dxi) else alpha.

Definition LocalStepLoop (g : Grid) (k j : nat) (x dx : list Num)
    (alpha : Num) : Num :=
  if IsLocalCol0 g j then
    fold_left (LocalStepBody g k x dx) (seq 0 (LocalHeight g k x)) alpha
  else alpha.

(** Modelled from the spec: [mpi::AllReduce( alpha, mpi::MIN, comm )], the
    collective reduction of section 6. *)
Definition AllReduceMin (contributions : list Num) : Num :=
  match contributions with
  | [] => 0
  | a :: rest => fold_left Min rest a
  end.

Definition DistStepLoop (g : Grid) (x dx : list Num) (alpha : Num) : Num :=
  AllReduceMin
    (map (fun r => LocalStepLoop g (fst r) (snd r) x dx alpha) (Ranks g)).

Definition DistAffineStepLengths (g : Grid) (x z dxAff dzAff : list Num)
    : Num * Num :=
  let alphaAffPri := DistStepLoop g x dxAff 1 in
  let alphaAffDual := DistStepLoop g z dzAff 1 in
  (alphaAffPri, alphaAffDual).

Definition DistStepLengths (g : Grid) (maxStepRatio : Num)
    (x z dx dz : list Num) : Num * Num :=
  let alphaPri := DistStepLoop g x dx (1 / maxStepRatio) in
  let alphaDual := DistStepLoop g z dz (1 / maxStepRatio) in
  let alphaPri := Min (maxStepRatio * alphaPri) 1 in
  let alphaDual := Min (maxStepRatio * alphaDual) 1 in
  (alphaPri, alphaDual).

Definition DistTakeStep (g : Grid) (maxStepRatio : Num) (d it : Iterate)
    : Iterate :=
  let alpha := DistStepLengths g maxStepRatio (ix it) (iz it) (ix d) (iz d) in
  Update (fst alpha) (snd alpha) d it.

(** Every entry is strictly positive, by the comparison of the
    arithmetic. *)
Definition Positive (x : list Num) : Prop :=
  Forall (fun v => (0 <? v) = true) x.

End Kernels.

End Generic.

(** The arithmetic [Ar] is exact: read through [phi], its constants,
    operations and comparisons are those of the real numbers (the
    quotient, for a divisor other than zero). *)
Record Exact (Ar : Arithmetic) (phi : num Ar -> R) : Prop := mkExact
  { exact_zero : phi (a_zero Ar) = 0;
    exact_one : phi (a_one Ar) = 1;
    exact_add : forall a b, phi (a_add Ar a b) = phi a + phi b;
    exact_mul : forall a b, phi (a_mul Ar a b) = phi a * phi b;
    exact_opp : forall a, phi (a_opp Ar a) = - phi a;
    exact_div : forall a b,
        phi b <> 0 -> phi (a_div Ar a b) = phi a / phi b;
    exact_ltb : forall a b, a_ltb Ar a b = true <-> phi a < phi b;
    exact_leb : forall a b, a_leb Ar a b = true <-> phi a <= phi b }.

Arguments Generic.mkIterate {Ar} _ _ _.
Arguments Generic.ix {Ar} _.
Arguments Generic.iy {Ar} _.
Arguments Generic.iz {Ar} _.



(** Sample binary64 numbers: the smallest positive one; 0.99 and an
    iterate entry and a direction entry of ordinary size, rounded to
    binary64. *)
Module Binary64.

Import PrimFloat.


End Binary64.

(** The iterate (x, y, z) of a state of the drivers, which are written
    over the reals. *)
Definition IterateOf (s : State) : Generic.Iterate RealArithmetic :=
  @Generic.mkIterate RealArithmetic (v_x s) (v_y s) (v_z s).

(** ** Auxiliary notions for the proofs *)

(** [v] is the minimum of [a] and of the ratios [-x_i/dx_i] over the
    indices [i] in [P] with [dx_i < 0]. *)
Definition IsStepMin (P : nat -> Prop) (x dx : vec) (a v : Real) : Prop :=
  v <= a
  /\ (forall i, P i -> Get dx i < 0 -> v <= - Get x i / Get dx i)
  /\ (v = a \/ exists i, P i /\ Get dx i < 0 /\ v = - Get x i / Get dx i).

(** The global row indices that are local to the process in grid row
    [k]. *)
Definition LocalRows (g : Grid) (k : nat) (x : vec) : list nat :=
  map (fun iLoc =>
         Z.to_nat (GlobalIndex (Z.of_nat iLoc)
                     (Shift_ (Z.of_nat k) 0%Z (Z.of_nat (gridHeight g)))
                     (Z.of_nat (gridHeight g))))
      (seq 0 (LocalHeight g k x)).

(** The rows a process contributes to a step-length reduction. *)
Definition OwnedRows (g : Grid) (x : vec) (r : nat * nat) (i : nat) : Prop :=
  IsLocalCol0 g (snd r) = true /\ In i (LocalRows g (fst r) x).

(** What the affine phase leaves behind, started in [s]: the iterate and
    the residuals are untouched, [J], [dSub], [p] hold the factorization of
    the chosen KKT matrix and the affine direction is its solve. *)
Definition AffinePost (B : Backend) (A : Matrix) (c : vec)
    (ctrl : MehrotraCtrl) (s s' : State) : Prop :=
  let F := LDL B (KKTMatrix B A ctrl (v_x s) (v_z s)) in
  let aff := SolveDirection B A c ctrl F (v_x s) (v_z s) (v_rc s) (v_rb s)
               (DiagonalScale (v_x s) (v_z s)) in
  v_x s' = v_x s /\ v_y s' = v_y s /\ v_z s' = v_z s
  /\ v_rb s' = v_rb s /\ v_rc s' = v_rc s
  /\ v_J s' = fJ F /\ v_dSub s' = fdSub F /\ v_p s' = fp F
  /\ v_dxAff s' = tx aff /\ v_dyAff s' = ty aff /\ v_dzAff s' = tz aff.

(** What the corrector phase leaves behind, started in [s] with the
    corrector right-hand side built from [rmu']. *)
Definition CorrectorPost (B : Backend) (A : Matrix) (c : vec)
    (ctrl : MehrotraCtrl) (rmu' : vec) (s s' : State) : Prop :=
  let F := mkFact (v_J s) (v_dSub s) (v_p s) in
  let cor := SolveDirection B A c ctrl F (v_x s) (v_z s)
               (Zeros (Width A)) (Zeros (Height A)) rmu' in
  v_x s' = v_x s /\ v_y s' = v_y s /\ v_z s' = v_z s
  /\ v_J s' = v_J s /\ v_dSub s' = v_dSub s /\ v_p s' = v_p s
  /\ v_dxAff s' = v_dxAff s /\ v_dyAff s' = v_dyAff s
  /\ v_dzAff s' = v_dzAff s
  /\ v_dx s' = Axpy 1 (v_dxAff s) (tx cor)
  /\ v_dy s' = Axpy 1 (v_dyAff s) (ty cor)
  /\ v_dz s' = Axpy 1 (v_dzAff s) (tz cor).

(** ** Sample instances

    A backend whose solves return zero directions, and small problems on
    which the statements below are exercised. *)

Definition NullBackend : Backend :=
  mkBackend
    (fun A b c x y z =>
       mkTriple (repeat 1 (Width A)) (Zeros (Height A)) (repeat 1 (Width A)))
    (fun A x z => A)
    (fun rc rb rmu z => rmu)
    (fun m n d => mkTriple (Zeros n) (Zeros m) (Zeros n))
    (fun A x z => A)
    (fun x rc rb rmu => rmu)
    (fun x z rmu d => mkTriple (Zeros (length x)) [] (Zeros (length x)))
    (fun A x z => A)
    (fun A x z rc rb rmu => rb)
    (fun A c x z rc rmu dy => (Zeros (length x), Zeros (length x)))
    (fun J => mkFact J [] [])
    (fun J dSub p d => d).

(** The same backend with an initialization that reads the data:
    [x = z = |c| + 1] entrywise and [y = b]. *)
Definition DataBackend : Backend :=
  mkBackend
    (fun A b c x y z =>
       mkTriple (map (fun v => Rabs v + 1) c) b
                (map (fun v => Rabs v + 1) c))
    (KKT NullBackend) (KKTRHS NullBackend) (ExpandSolution NullBackend)
    (AugmentedKKT NullBackend) (AugmentedKKTRHS NullBackend)
    (ExpandAugmentedSolution NullBackend) (NormalKKT NullBackend)
    (NormalKKTRHS NullBackend) (ExpandNormalSolution NullBackend)
    (LDL NullBackend) (ldl_SolveAfter NullBackend).

(** The 1 x 1 constraint matrix [(1)]. *)
Definition SampleA : Matrix := mkMatrix 1 1 [1].

Definition SampleCtrl : MehrotraCtrl :=
  mkCtrl true (1 / 100) 100%Z (99 / 100) FULL_KKT false.

(** A control structure that leaves the initialization to the driver. *)
Definition ColdCtrl : MehrotraCtrl :=
  mkCtrl false (1 / 100) 100%Z (99 / 100) FULL_KKT false.

(** A control structure with tolerance 0 and the cap at iteration 0. *)
Definition StrictCtrl : MehrotraCtrl :=
  mkCtrl true 0 0%Z (99 / 100) FULL_KKT false.


Definition SampleGrid : Grid := mkGrid 2 2.

(** The 1 x 1 sparse matrix [(1)], regularized by 1 and factored as
    [(2)]: the factorization solves by halving. *)
Definition SampleSparse : SparseMatrix := mkSparse 1 1 [((O, O), 1)].

Definition HalvingFactorization : SparseLDLFactorization :=
  mkSparseLDL (map (fun v => v / 2)).
(** ** The remaining helpers of the indexing implementation header

    [Int] is read as [Z], and the routines compute in [Z]; where the
    arithmetic of a routine can leave the range of the machine type on
    representable arguments, the statements about it assume that the values
    the source computes are representable (see [InIntRange] below).  [/]
    and [%] truncate toward zero ([Z.quot], [Z.rem]).  The routines with a
    trailing underscore are the unchecked ones; the [Mod] they call has a
    check in debug builds only, which passes for every positive modulus. *)

Section IndexingHelpers.

Local Open Scope Z_scope.

(** [Length_( n, rank, align, stride )], the overload that takes a rank
    and an alignment. *)
Definition RankLength_ (n rank align stride : Int) : Int :=
  let shift := Shift_ rank align stride in
  Length_ n shift stride.

Definition MaxLength_ (n stride : Int) : Int :=
  if n >? 0 then Z.quot (n - 1) stride + 1 else 0.

Definition BlockedLength_ (n shift bsize cut stride : Int) : Int :=
  let length := 0 in
  (* Handle the first block *)
  let firstLeftover := Z.min n (bsize - cut) in
  let length := if shift =? 0 then length + firstLeftover else length in
  let n := n - firstLeftover in
  (* Cycle each process's first block left one *)
  let shift := Mod_ (shift - 1) stride in
  (* Handle the middle blocks *)
  let nBlock := Z.quot n bsize in
  let lengthBlock := Length_ nBlock shift stride in
  let length := length + lengthBlock * bsize in
  let n := n - nBlock * bsize in
  (* Cycle each process's first block left by nBlock *)
  let shift := Mod_ (shift - nBlock) stride in
  (* Handle the (possibly empty) last block *)
  let length := if shift =? 0 then length + n else length in
  length.

(** [BlockedLength_( n, rank, align, bsize, cut, stride )] *)
Definition RankBlockedLength_ (n rank align bsize cut stride : Int) : Int :=
  let shift := Shift_ rank align stride in
  BlockedLength_ n shift bsize cut stride.

Definition MaxBlockedLength_ (n bsize cut stride : Int) : Int :=
  BlockedLength_ n 0 bsize cut stride.

Definition GlobalBlockedIndex (iLoc shift bsize cut numProcs : Int) : Int :=
  (* The number of global entries before the first block this process owns
     data in begins *)
  let iBefore := shift * bsize - cut in
  let iLocAdj := if shift =? 0 then iLoc + cut else iLoc in
  let numFilledLocalBlocks := Z.quot iLocAdj bsize in
  let iMid := numFilledLocalBlocks * bsize * numProcs in
  let iPost := iLocAdj - numFilledLocalBlocks * bsize in
  iBefore + iMid + iPost.

Definition LastOffset (n bsize : Int) : Int :=
  bsize * (if negb (Mod_ n bsize =? 0) then Z.quot n bsize
           else Z.quot n bsize - 1).

Definition DiagonalLength (height width offset : Int) : Int :=
  if offset >? 0 then
    let remWidth := Z.max (width - offset) 0 in
    Z.min height remWidth
  else
    let remHeight := Z.max (height + offset) 0 in
    Z.min remHeight width.

End IndexingHelpers.

(** ** The range of [Int]

    [Int] is a signed machine integer of 32 bits, or of 64 bits in builds
    configured so.  Signed overflow is undefined in the source language; a
    value between [IntMin] and [IntMax] is representable in either
    build. *)
Definition IntMax : Int := 2147483647%Z.
Definition IntMin : Int := (-2147483648)%Z.

Definition InIntRange (v : Int) : Prop := (IntMin <= v <= IntMax)%Z.

(** The values [GlobalIndex] computes on the way: the product
    [iLoc*numProcs] and the sum. *)
Definition GlobalIndexInRange (iLoc shift numProcs : Int) : Prop :=
  InIntRange (iLoc * numProcs)%Z /\ InIntRange (shift + iLoc * numProcs)%Z.

(** The values [GlobalBlockedIndex] computes on the way, in the order of
    the source. *)
Definition GlobalBlockedIndexInRange (iLoc shift bsize cut numProcs : Int)
    : Prop :=
  let iLocAdj := if (shift =? 0)%Z then (iLoc + cut)%Z else iLoc in
  let numFilledLocalBlocks := Z.quot iLocAdj bsize in
  InIntRange (shift * bsize)%Z
  /\ InIntRange (shift * bsize - cut)%Z
  /\ InIntRange iLocAdj
  /\ InIntRange (numFilledLocalBlocks * bsize)%Z
  /\ InIntRange (numFilledLocalBlocks * bsize * numProcs)%Z
  /\ InIntRange (iLocAdj - numFilledLocalBlocks * bsize)%Z
  /\ InIntRange (shift * bsize - cut
                 + numFilledLocalBlocks * bsize * numProcs)%Z
  /\ InIntRange (GlobalBlockedIndex iLoc shift bsize cut numProcs).

(** [GCD_]: the recursion ends because the remainder [a-b*(a/b)] is
    smaller than [b] in absolute value. *)
Function GCD_ (a b : Int) {measure Z.abs_nat b} : Int :=
  if (b =? 0)%Z then a else GCD_ b (a - b * Z.quot a b)%Z.
Proof.
  intros a b Hb. apply Z.eqb_neq in Hb.
  pose proof (Z.quot_rem' a b) as E.
  pose proof (Z.rem_bound_abs a b Hb) as Hr.
  replace (a - b * Z.quot a b)%Z with (Z.rem a b) by lia.
  lia.
Defined.

(** [Unsigned] is read as [N]; neither routine below overflows, and in
    [PowerOfTwo] the difference [n-1] is only formed for [n] other than 0
    ([&&] does not evaluate its second operand after a zero [n]). *)
Definition Unsigned := N.

Definition PowerOfTwo (n : Unsigned) : bool :=
  if (n =? 0)%N then false else (N.land n (n - 1) =? 0)%N.

(** [while( n >>= 1 ) ++result;] *)
Function FlooredLog2_loop (n result : Unsigned) {measure N.to_nat n}
    : Unsigned :=
  if (N.shiftr n 1 =? 0)%N then result
  else FlooredLog2_loop (N.shiftr n 1) (result + 1)%N.
Proof.
  intros n _ Hn. apply N.eqb_neq in Hn.
  rewrite N.shiftr_div_pow2 in *. change (2 ^ 1)%N with 2%N in *.
  assert (n <> 0)%N by (intros ->; now apply Hn).
  pose proof (N.div_lt n 2 ltac:(lia) ltac:(lia)). lia.
Defined.

Definition FlooredLog2 (n : Unsigned) : Unsigned := FlooredLog2_loop n 0%N.

(** ** The checked variants

    [DEBUG_ONLY( ... )] blocks exist in debug builds only; [debug] says
    which build is meant. *)

Inductive Checked (A : Type) : Type :=
| Returns (a : A)
| Throws (e : exn).

Arguments Returns {A} a.
Arguments Throws {A} e.

Module Indexing.

Section Wrappers.

Local Open Scope Z_scope.

Variable debug : bool.

Definition Length (n shift stride : Int) : Checked Int :=
  if debug && (n <? 0) then
    Throws (LogicError [AStr "n must be non-negative"])
  else if debug && ((shift <? 0) || (shift >=? stride)) then
    Throws (LogicError [AStr "Invalid shift: shift="; AInt shift;
                        AStr ", stride="; AInt stride])
  else if debug && (stride <=? 0) then
    Throws (LogicError [AStr "Modulus must be positive"])
  else Returns (Length_ n shift stride).

Definition MaxLength (n stride : Int) : Checked Int :=
  if debug && (n <? 0) then
    Throws (LogicError [AStr "n must be non-negative"])
  else if debug && (stride <=? 0) then
    Throws (LogicError [AStr "Modulus must be positive"])
  else Returns (MaxLength_ n stride).

Definition BlockedLength (n shift bsize cut stride : Int) : Checked Int :=
  if debug && (n <? 0) then
    Throws (LogicError [AStr "n must be non-negative"])
  else if debug && ((shift <? 0) || (shift >=? stride)) then
    Throws (LogicError [AStr "Invalid shift: shift="; AInt shift;
                        AStr ", stride="; AInt stride])
  else if debug && (stride <=? 0) then
    Throws (LogicError [AStr "Modulus must be positive"])
  else Returns (BlockedLength_ n shift bsize cut stride).

Definition MaxBlockedLength (n bsize cut stride : Int) : Checked Int :=
  if debug && (n <? 0) then
    Throws (LogicError [AStr "n must be non-negative"])
  else if debug && (stride <=? 0) then
    Throws (LogicError [AStr "Modulus must be positive"])
  else Returns (MaxBlockedLength_ n bsize cut stride).

Definition Mod (a b : Int) : Checked Int :=
  if debug && (b <=? 0) then
    Throws (LogicError [AStr "b is assumed to be positive"])
  else Returns (Mod_ a b).

(** For determining the first index assigned to a given rank. *)
Definition Shift (rank align stride : Int) : Checked Int :=
  if debug && ((rank <? 0) || (rank >=? stride)) then
    Throws (LogicError [AStr "Invalid rank: rank="; AInt rank;
                        AStr ", stride="; AInt stride])
  else if debug && ((align <? 0) || (align >=? stride)) then
    Throws (LogicError [AStr "Invalid alignment: align="; AInt align;
                        AStr ", stride="; AInt stride])
  else if debug && (stride <=? 0) then
    Throws (LogicError [AStr "Stride must be positive"])
  else Returns (Shift_ rank align stride).

(** [Length( n, rank, align, stride )] *)
Definition RankLength (n rank align stride : Int) : Checked Int :=
  match Shift rank align stride with
  | Returns shift => Length n shift stride
  | Throws e => Throws e
  end.

(** [BlockedLength( n, rank, align, bsize, cut, stride )] *)
Definition RankBlockedLength (n rank align bsize cut stride : Int)
    : Checked Int :=
  match Shift rank align stride with
  | Returns shift => BlockedLength n shift bsize cut stride
  | Throws e => Throws e
  end.

Definition GCD (a b : Int) : Checked Int :=
  if debug && ((a <? 0) || (b <? 0)) then
    Throws (LogicError [AStr "GCD called with negative argument"])
  else Returns (GCD_ a b).

End Wrappers.

End Indexing.

(** The sum of [len shift] over the shifts [0 <= shift < stride]: the
    total of the local lengths over the processes of one grid dimension. *)
Definition SumOverShifts (len : Int -> Int) (stride : nat) : Int :=
  fold_right Z.add 0%Z (map (fun k => len (Z.of_nat k)) (seq 0 stride)).

(** ** The recommendations of the aggressive-early-deflation driver

    [aed::NumShifts], [aed::DeflationSize], [aed::SufficientDeflation] and
    [aed::MinSize] of the Hessenberg QR header.  [Log2] is the library's
    logarithm on [double], a parameter here; on the window sizes of the two
    branches that use it, at least 150, the logarithm is above 7 and the
    divisor is not 0.  [Mod( . , 2 )] passes its debug check. *)

(** The conversion [Int( . )] of a [double]: truncation toward zero. *)
Definition IntOfReal (r : Real) : Int :=
  if Rle_dec 0 r then Int_part r else (- Int_part (- r))%Z.

Section AED.

Variable Log2 : Real -> Real.

Local Open Scope Z_scope.

Definition NumShifts (n winSize : Int) : Int :=
  let numShifts :=
    if winSize <? 30 then 2
    else if winSize <? 60 then 4
    else if winSize <? 150 then 10
    else if winSize <? 590 then
      Z.max 10 (Z.quot winSize (IntOfReal (Log2 (IZR winSize))))
    else if winSize <? 3000 then 64
    else if winSize <? 6000 then 128
    else
      Z.max 256
        (Z.quot winSize (IntOfReal (2 * Log2 (IZR winSize))%R)) in
  let numShifts := Z.min numShifts winSize in
  let numShifts := Z.min numShifts (Z.quot (n + 6) 9) in
  let numShifts := Z.max 2 (numShifts - Mod_ numShifts 2) in
  numShifts.

Definition DeflationSize (n winSize numShifts : Int) : Int :=
  let deflationSize :=
    if winSize <=? 500 then numShifts
    else Z.quot (3 * numShifts) 2 in
  let deflationSize := Z.min deflationSize winSize in
  let deflationSize := Z.min deflationSize (Z.quot (n - 1) 3) in
  let deflationSize := Z.max 2 (deflationSize - Mod_ deflationSize 2) in
  deflationSize.

Definition SufficientDeflation (deflationSize : Int) : Int :=
  let nibble := 14 in
  Z.quot (nibble * deflationSize) 100.

Definition MinSize : Int := 75.

End AED.

(** ** The process grid of the Gaussian elimination example

    When no grid height is given, the example looks for a nearly square
    grid:
<<
    const int sqrtSize = (int)sqrt((double)commSize);
    gridHeight = sqrtSize;
    while( commSize % gridHeight != 0 )
        ++gridHeight;
    gridWidth = commSize / gridHeight;
>>
    [(int)sqrt((double)commSize)] is the integer square root.  [fuel]
    bounds the number of passes through the loop the model follows. *)
Fixpoint GridHeightLoop (fuel : nat) (commSize gridHeight : Int)
    : option Int :=
  match fuel with
  | O => None
  | S fuel' =>
      if negb (Z.rem commSize gridHeight =? 0)%Z then
        GridHeightLoop fuel' commSize (gridHeight + 1)%Z
      else Some gridHeight
  end.

Definition NearlySquareGrid (fuel : nat) (commSize : Int)
    : option (Int * Int) :=
  let sqrtSize := Z.sqrt commSize in
  match GridHeightLoop fuel commSize sqrtSize with
  | Some gridHeight => Some (gridHeight, Z.quot commSize gridHeight)
  | None => None
  end.

(** ** [ConjugateSubmatrix]

    The sequential routine on a [Matrix<T>]:
<<
    for( Int jSub=0; jSub<n; ++jSub )
    {
        const Int j = J[jSub];
        for( Int iSub=0; iSub<m; ++iSub )
        {
            const Int i = I[iSub];
            A.Conjugate( i, j );
        }
    }
>>
    The matrix class is a parameter, seen through its member [Conjugate];
    [I] and [J] are the index vectors. *)
Section ConjugateSubmatrix.

Variable MatrixT : Type.
Variable Conjugate : MatrixT -> Int -> Int -> MatrixT.

Definition ConjugateSubmatrix (A : MatrixT) (I J : list Int) : MatrixT :=
  fold_left
    (fun A j => fold_left (fun A i => Conjugate A i j) I A)
    J A.

End ConjugateSubmatrix.

(** A matrix class over functions from index pairs, with the entrywise
    [Conjugate] for a conjugation [Conj]. *)
Definition EntryConjugate {T : Type} (Conj : T -> T)
    (A : Int -> Int -> T) (i j : Int) : Int -> Int -> T :=
  fun i' j' =>
    if ((i' =? i) && (j' =? j))%Z then Conj (A i' j') else A i' j'.

(** Complex numbers as pairs, with their conjugation. *)
Definition ComplexConj (z : Real * Real) : Real * Real := (fst z, - snd z).

(** ** Notions for the further facts about the drivers *)


(** A control structure with a negative iteration cap. *)
Definition UncappedCtrl : MehrotraCtrl :=
  mkCtrl true (1 / 100) (-1)%Z (99 / 100) FULL_KKT false.
(** ** Basic facts about the kernels *)

Lemma Min_le_l a b : Min a b <= a.
Proof. unfold Min. destruct (Rlt_dec b a); lra. Qed.

Lemma Min_le_r a b : Min a b <= b.
Proof. unfold Min. destruct (Rlt_dec b a); lra. Qed.

Lemma Min_cases a b : Min a b = a \/ Min a b = b.
Proof. unfold Min. destruct (Rlt_dec b a); auto. Qed.


Lemma Min_glb a b c : c <= a -> c <= b -> c <= Min a b.
Proof. intros. destruct (Min_cases a b) as [-> | ->]; assumption. Qed.

Lemma Min_comm a b : Min a b = Min b a.
Proof. unfold Min. destruct (Rlt_dec b a), (Rlt_dec a b); lra. Qed.

Lemma Axpy_length alpha X Y : length (Axpy alpha X Y) = length Y.
Proof.
  revert X. induction Y as [| b Y IH]; intros [| a X]; simpl; auto.
Qed.

Lemma Axpy_Get alpha X Y i :
  (i < length Y)%nat ->
  Get (Axpy alpha X Y) i = Get Y i + alpha * Get X i.
Proof.
  unfold Get. revert X i.
  induction Y as [| b Y IH]; intros X i Hi; simpl in Hi; [lia |].
  destruct X as [| a X].
  - simpl. destruct i; simpl; lra.
  - destruct i as [| i]; simpl; [lra |]. apply IH. lia.
Qed.

Lemma NumNonPositive_zero x :
  NumNonPositive x = O <-> Forall (fun v => 0 < v) x.
Proof.
  induction x as [| a x IH]; simpl.
  - split; auto.
  - destruct (Rle_dec a 0) as [Hle | Hgt].
    + split; [discriminate |]. intros H. inversion H; subst. lra.
    + rewrite IH. split.
      * intros H. constructor; [lra | assumption].
      * intros H. inversion H; assumption.
Qed.

Lemma Forall_Get (P : Real -> Prop) x :
  Forall P x <-> forall i, (i < length x)%nat -> P (Get x i).
Proof.
  unfold Get. split.
  - intros H i Hi. rewrite Forall_forall in H. apply H. now apply nth_In.
  - intros H. apply Forall_forall. intros v Hv.
    destruct (In_nth _ _ 0 Hv) as (i & Hi & <-). now apply H.
Qed.

(** ** Step-length loops: minimum characterisation *)

Lemma IsStepMin_unique P Q x dx a v w :
  (forall i, P i <-> Q i) ->
  IsStepMin P x dx a v -> IsStepMin Q x dx a w -> v = w.
Proof.
  intros HPQ (Hva & Hvl & Hvc) (Hwa & Hwl & Hwc).
  apply Rle_antisym.
  - destruct Hwc as [-> | (i & Hi & Hneg & ->)]; [assumption |].
    apply Hvl; [now apply HPQ | assumption].
  - destruct Hvc as [-> | (i & Hi & Hneg & ->)]; [assumption |].
    apply Hwl; [now apply HPQ | assumption].
Qed.

Lemma IsStepMin_ext P Q x dx a v :
  (forall i, P i <-> Q i) -> IsStepMin P x dx a v -> IsStepMin Q x dx a v.
Proof.
  intros HPQ (Hva & Hvl & Hvc). repeat split; [assumption | |].
  - intros i Hi. apply Hvl. now apply HPQ.
  - destruct Hvc as [-> | (i & Hi & Hneg & ->)]; [now left | right].
    exists i. repeat split; [now apply HPQ | assumption].
Qed.

Lemma StepBody_cases x dx a i :
  (Get dx i < 0 /\ StepBody x dx a i = Min a (- Get x i / Get dx i))
  \/ (~ Get dx i < 0 /\ StepBody x dx a i = a).
Proof.
  unfold StepBody. cbv zeta. destruct (Rlt_dec (Get dx i) 0); auto.
Qed.

Lemma StepBody_fold_IsStepMin x dx l a :
  IsStepMin (fun i => In i l) x dx a (fold_left (StepBody x dx) l a).
Proof.
  revert a. induction l as [| i l IH]; intros a; simpl.
  - repeat split; [lra | intros i [] | now left].
  - destruct (IH (StepBody x dx a i)) as (Hle & Hlow & Hcase).
    set (v := fold_left (StepBody x dx) l (StepBody x dx a i)) in *.
    destruct (StepBody_cases x dx a i) as [(Hneg & Hb) | (Hnn & Hb)];
      rewrite Hb in Hle, Hcase.
    + pose proof (Min_le_l a (- Get x i / Get dx i)) as Hl.
      pose proof (Min_le_r a (- Get x i / Get dx i)) as Hr.
      split; [lra | split].
      * intros j [<- | Hj] Hj0; [lra | now apply Hlow].
      * destruct Hcase as [Heq | (j & Hj & Hj0 & Heq)].
        -- rewrite Heq.
           destruct (Min_cases a (- Get x i / Get dx i)) as [E | E];
             rewrite E.
           ++ now left.
           ++ right. exists i. auto.
        -- right. exists j. auto.
    + split; [assumption | split].
      * intros j [<- | Hj] Hj0; [contradiction | now apply Hlow].
      * destruct Hcase as [Heq | (j & Hj & Hj0 & Heq)]; [now left |].
        right. exists j. auto.
Qed.

Lemma StepLoop_IsStepMin n x dx a :
  IsStepMin (fun i => (i < n)%nat) x dx a (StepLoop n x dx a).
Proof.
  unfold StepLoop.
  eapply IsStepMin_ext; [| apply StepBody_fold_IsStepMin].
  intros i. rewrite in_seq. lia.
Qed.

Lemma StepLoop_le_init n x dx a : StepLoop n x dx a <= a.
Proof. apply (StepLoop_IsStepMin n x dx a). Qed.

Lemma StepLoop_le_ratio n x dx a i :
  (i < n)%nat -> Get dx i < 0 -> StepLoop n x dx a <= - Get x i / Get dx i.
Proof. intros Hi Hneg. now apply (StepLoop_IsStepMin n x dx a). Qed.

Lemma StepLoop_pos n x dx a :
  0 < a -> (forall i, (i < n)%nat -> 0 < Get x i) ->
  0 < StepLoop n x dx a.
Proof.
  intros Ha Hx.
  destruct (StepLoop_IsStepMin n x dx a) as (_ & _ & [-> | (i & Hi & Hneg & ->)]).
  - assumption.
  - specialize (Hx i Hi).
    unfold Rdiv. rewrite <- Ropp_mult_distr_l, Ropp_mult_distr_r.
    apply Rmult_lt_0_compat; [assumption |].
    apply Ropp_0_gt_lt_contravar. now apply Rinv_lt_0_compat.
Qed.





(** With [0 < r < 1] a positive iterate stays positive. *)
Lemma FinalStep_pos r n x dx :
  0 < r < 1 -> (forall i, (i < n)%nat -> 0 < Get x i) ->
  0 < Min (r * StepLoop n x dx (1 / r)) 1.
Proof.
  intros Hr Hx.
  assert (H1 : 0 < 1 / r).
  { unfold Rdiv. rewrite Rmult_1_l. apply Rinv_0_lt_compat. lra. }
  pose proof (StepLoop_pos n x dx (1 / r) H1 Hx) as Hp.
  destruct (Min_cases (r * StepLoop n x dx (1 / r)) 1) as [-> | ->];
    [| lra].
  apply Rmult_lt_0_compat; lra.
Qed.

Lemma FinalStep_keeps_positive r n x dx i :
  0 < r < 1 -> (forall j, (j < n)%nat -> 0 < Get x j) -> (i < n)%nat ->
  0 < Get x i + Min (r * StepLoop n x dx (1 / r)) 1 * Get dx i.
Proof.
  intros Hr Hx Hi.
  pose proof (FinalStep_pos r n x dx Hr Hx) as Hal.
  pose proof (Hx i Hi) as Hxi.
  set (al := Min (r * StepLoop n x dx (1 / r)) 1) in *.
  destruct (Rlt_dec (Get dx i) 0) as [Hneg | Hnn].
  - pose proof (StepLoop_le_ratio n x dx (1 / r) i Hi Hneg) as Hle.
    pose proof (Min_le_l (r * StepLoop n x dx (1 / r)) 1) as Hm.
    fold al in Hm.
    set (q := - Get x i / Get dx i) in *.
    assert (Hq : q * Get dx i = - Get x i) by (unfold q; field; lra).
    assert (Hq0 : 0 < q).
    { unfold q, Rdiv. rewrite <- Ropp_mult_distr_l, Ropp_mult_distr_r.
      apply Rmult_lt_0_compat; [assumption |].
      apply Ropp_0_gt_lt_contravar. now apply Rinv_lt_0_compat. }
    assert (Hlt : al < q) by nra.
    nra.
  - assert (0 <= al * Get dx i) by (apply Rmult_le_pos; lra).
    lra.
Qed.

Lemma Axpy_final_positive r n x dx :
  0 < r < 1 -> Positive x -> length x = n ->
  Positive (Axpy (Min (r * StepLoop n x dx (1 / r)) 1) dx x).
Proof.
  intros Hr Hx Hn. unfold Positive in *.
  rewrite Forall_Get in Hx. apply Forall_Get.
  intros i Hi. rewrite Axpy_length in Hi.
  rewrite Axpy_Get by assumption.
  apply FinalStep_keeps_positive; try assumption; try lia.
  intros j Hj. apply Hx. lia.
Qed.

(** ** Kernels against the formulas of the specification *)

Lemma Get_map_seq (f : nat -> Real) n i :
  (i < n)%nat -> Get (map f (seq 0 n)) i = f i.
Proof.
  intros Hi. unfold Get.
  rewrite (nth_indep _ 0 (f O)) by (rewrite length_map, length_seq; lia).
  rewrite map_nth. now rewrite seq_nth.
Qed.

Lemma Get_Scale a v i : Get (Scale a v) i = a * Get v i.
Proof.
  unfold Get, Scale.
  rewrite <- (map_nth (Rmult a)). now rewrite Rmult_0_r.
Qed.

Lemma vec_ext (u v : vec) :
  length u = length v ->
  (forall i, (i < length u)%nat -> Get u i = Get v i) -> u = v.
Proof.
  intros Hlen H. apply (nth_ext u v 0 0); assumption.
Qed.

Lemma PrimalResidual_code A b x :
  Gemv NORMAL 1 A x 1 (Scale (-1) b) = PrimalResidual A b x.
Proof.
  unfold Gemv, PrimalResidual. apply map_ext. intros i.
  rewrite Get_Scale. lra.
Qed.

Lemma DualResidual_code A c y z :
  Axpy (-1) z (Gemv TRANSPOSE 1 A y 1 c) = DualResidual A c y z.
Proof.
  apply vec_ext.
  - rewrite Axpy_length. unfold Gemv, DualResidual.
    now rewrite !length_map.
  - intros i Hi. rewrite Axpy_length in Hi.
    rewrite Axpy_Get by assumption.
    unfold Gemv, DualResidual in *.
    rewrite length_map, length_seq in Hi.
    rewrite !Get_map_seq by assumption. lra.
Qed.

Lemma Rleb_true a b : Rleb a b = true <-> a <= b.
Proof.
  unfold Rleb. destruct (Rle_dec a b); split; auto; discriminate.
Qed.

(** ** The phases of an iteration *)

Lemma InCone_dec s : {InCone s} + {~ InCone s}.
Proof.
  unfold InCone, Positive.
  destruct (Nat.eq_dec (NumNonPositive (v_x s)) 0) as [Hx | Hx];
    destruct (Nat.eq_dec (NumNonPositive (v_z s)) 0) as [Hz | Hz];
    rewrite NumNonPositive_zero in Hx, Hz; tauto.
Qed.

Lemma ConeCheck_pass s : InCone s -> ConeCheck s = Ok tt s.
Proof.
  intros [Hx Hz]. apply NumNonPositive_zero in Hx, Hz.
  unfold ConeCheck, bind, get. now rewrite Hx, Hz.
Qed.

Lemma ConeCheck_fail s :
  ~ InCone s ->
  ConeCheck s =
  Raise (LogicError
           [AInt (Z.of_nat (NumNonPositive (v_x s)));
            AStr " entries of x were nonpositive and ";
            AInt (Z.of_nat (NumNonPositive (v_z s)));
            AStr " entries of z were nonpositive"]) s.
Proof.
  intros Hn. unfold ConeCheck, bind, get.
  destruct (NumNonPositive (v_x s)) eqn:Ex;
    destruct (NumNonPositive (v_z s)) eqn:Ez; simpl; try reflexivity.
  exfalso. apply Hn. split; now apply NumNonPositive_zero.
Qed.

(** The state the convergence test leaves behind: [rb] and [rc] hold the
    residuals. *)
Lemma ConvergenceTest_run A b c ctrl s :
  exists converged,
    ConvergenceTest A b c ctrl s =
    Ok converged
       (set_rc (DualResidual A c (v_y s) (v_z s))
          (set_rb (PrimalResidual A b (v_x s)) s))
    /\ (converged = true <-> Converged A b c ctrl s).
Proof.
  eexists. split.
  - unfold ConvergenceTest, bind, get, modify, ret. cbn [v_x v_y v_z v_rb v_rc set_rb set_rc].
    rewrite PrimalResidual_code, DualResidual_code. reflexivity.
  - rewrite !andb_true_iff, !Rleb_true. unfold Converged, RelativeGap, Abs.
    tauto.
Qed.

Lemma ConvergenceTest_pass A b c ctrl s :
  Converged A b c ctrl s ->
  ConvergenceTest A b c ctrl s =
  Ok true (final_state (ConvergenceTest A b c ctrl s)).
Proof.
  intros H. destruct (ConvergenceTest_run A b c ctrl s) as (bo & E & Hbo).
  rewrite E. simpl. f_equal. now apply Hbo.
Qed.

Lemma ConvergenceTest_fail A b c ctrl s :
  ~ Converged A b c ctrl s ->
  ConvergenceTest A b c ctrl s =
  Ok false (final_state (ConvergenceTest A b c ctrl s)).
Proof.
  intros H. destruct (ConvergenceTest_run A b c ctrl s) as (bo & E & Hbo).
  rewrite E. simpl. f_equal. destruct bo; [| reflexivity].
  exfalso. apply H. now apply Hbo.
Qed.

Lemma ConvergenceTest_frame A b c ctrl s :
  let s' := final_state (ConvergenceTest A b c ctrl s) in
  v_x s' = v_x s /\ v_y s' = v_y s /\ v_z s' = v_z s.
Proof.
  destruct (ConvergenceTest_run A b c ctrl s) as (bo & E & _).
  rewrite E. simpl. auto.
Qed.

Lemma Converged_dec A b c ctrl s :
  {Converged A b c ctrl s} + {~ Converged A b c ctrl s}.
Proof.
  unfold Converged.
  destruct (Rle_dec (RelativeGap b c (v_x s) (v_y s)) (tol ctrl));
    destruct (Rle_dec (Nrm2 (PrimalResidual A b (v_x s)) / (1 + Nrm2 b))
                      (tol ctrl));
    destruct (Rle_dec (Nrm2 (DualResidual A c (v_y s) (v_z s))
                       / (1 + Nrm2 c)) (tol ctrl)); tauto.
Qed.

Lemma bind_Ok {X Y : Type} (c : M X) (k : X -> M Y) s a s' :
  c s = Ok a s' -> bind c k s = k a s'.
Proof. intros E. unfold bind. now rewrite E. Qed.

Lemma AffineDirection_run B A c ctrl s :
  exists s', AffineDirection B A c ctrl s = Ok tt s'
             /\ AffinePost B A c ctrl s s'.
Proof.
  unfold AffineDirection, AffinePost, KKTMatrix, SolveDirection.
  destruct (system ctrl); eexists; (split; [reflexivity |]);
    repeat split; reflexivity.
Qed.

Lemma AffineStepLengths_run A s :
  AffineStepLengths A s =
  Ok (StepLoop (Width A) (v_x s) (v_dxAff s) 1,
      StepLoop (Width A) (v_z s) (v_dzAff s) 1) s.
Proof. reflexivity. Qed.

Lemma Centering_run A alphaAffPri alphaAffDual s :
  Centering A alphaAffPri alphaAffDual s =
  Ok (Dot (v_x s) (v_z s) / INR (Width A),
      Pow3 (Dot (Axpy alphaAffPri (v_dxAff s) (v_x s))
                (Axpy alphaAffDual (v_dzAff s) (v_z s)) / INR (Width A)
            / (Dot (v_x s) (v_z s) / INR (Width A))))
     (set_dz (Axpy alphaAffDual (v_dzAff s) (v_z s))
        (set_dx (Axpy alphaAffPri (v_dxAff s) (v_x s)) s)).
Proof. reflexivity. Qed.

Lemma CorrectorSolve_AddAffine_run B A c ctrl s :
  exists s', bind (CorrectorSolve B A c ctrl) (fun _ => AddAffine) s
             = Ok tt s'
             /\ (v_rc s = Zeros (Width A) -> v_rb s = Zeros (Height A) ->
                 CorrectorPost B A c ctrl (v_rmu s) s s').
Proof.
  unfold CorrectorSolve, CorrectorPost, SolveDirection.
  destruct (system ctrl); eexists; (split; [reflexivity |]);
    intros <- <-; repeat split; reflexivity.
Qed.

Lemma CorrectorDirection_run B A c ctrl mu sigma s :
  exists s', CorrectorDirection B A c ctrl mu sigma s = Ok tt s'
             /\ CorrectorPost B A c ctrl
                  (Shift (DiagonalScale (v_dxAff s) (v_dzAff s))
                         (- sigma * mu)) s s'.
Proof.
  unfold CorrectorDirection.
  set (s1 := set_rmu (Shift (DiagonalScale (v_dxAff s) (v_dzAff s))
                        (- sigma * mu))
               (set_rb (Zeros (Height A)) (set_rc (Zeros (Width A)) s))).
  destruct (CorrectorSolve_AddAffine_run B A c ctrl s1) as (s' & E & H).
  exists s'. split.
  - exact E.
  - apply (H eq_refl eq_refl).
Qed.

Lemma DistCorrectorDirection_run B A c ctrl mu sigma s :
  exists s', DistCorrectorDirection B A c ctrl mu sigma s = Ok tt s'
             /\ CorrectorPost B A c ctrl
                  (Shift (DiagonalScale (v_dzAff s) (v_dxAff s))
                         (- sigma * mu)) s s'.
Proof.
  unfold DistCorrectorDirection.
  set (s1 := set_rmu (Shift (DiagonalScale (v_dzAff s) (v_dxAff s))
                        (- sigma * mu))
               (set_rb (Zeros (Height A)) (set_rc (Zeros (Width A)) s))).
  destruct (CorrectorSolve_AddAffine_run B A c ctrl s1) as (s' & E & H).
  exists s'. split.
  - exact E.
  - apply (H eq_refl eq_refl).
Qed.

Lemma SearchDirection_frame B A c ctrl s :
  exists s', SearchDirection B A c ctrl s = Ok tt s'
             /\ v_x s' = v_x s /\ v_y s' = v_y s /\ v_z s' = v_z s.
Proof.
  unfold SearchDirection.
  destruct (AffineDirection_run B A c ctrl s)
    as (s1 & E1 & Hx1 & Hy1 & Hz1 & _).
  rewrite (bind_Ok _ _ _ _ _ E1).
  rewrite (bind_Ok _ _ _ _ _ (AffineStepLengths_run A s1)).
  rewrite (bind_Ok _ _ _ _ _ (Centering_run A _ _ s1)).
  match goal with
  | |- context [CorrectorDirection B A c ctrl ?mu ?sigma ?s2] =>
      destruct (CorrectorDirection_run B A c ctrl mu sigma s2)
        as (s' & E & Hx & Hy & Hz & _)
  end.
  exists s'. split; [exact E |].
  rewrite Hx, Hy, Hz. cbn [v_x v_y v_z set_dx set_dz]. auto.
Qed.

Lemma SearchDirection_returns B A c ctrl s :
  SearchDirection B A c ctrl s =
  Ok tt (final_state (SearchDirection B A c ctrl s)).
Proof.
  destruct (SearchDirection_frame B A c ctrl s) as (s' & E & _).
  now rewrite E.
Qed.

Lemma TakeStep_run A ctrl s :
  let r := maxStepRatio ctrl in
  let alphaPri := Min (r * StepLoop (Width A) (v_x s) (v_dx s) (1 / r)) 1 in
  let alphaDual := Min (r * StepLoop (Width A) (v_z s) (v_dz s) (1 / r)) 1 in
  TakeStep A ctrl s =
  Ok tt (set_z (Axpy alphaDual (v_dz s) (v_z s))
           (set_y (Axpy alphaDual (v_dy s) (v_y s))
              (set_x (Axpy alphaPri (v_dx s) (v_x s)) s))).
Proof. reflexivity. Qed.

Lemma Step_returns B A c ctrl s :
  Step B A c ctrl s = Ok tt (final_state (Step B A c ctrl s)).
Proof.
  unfold Step, bind. rewrite SearchDirection_returns.
  rewrite TakeStep_run. reflexivity.
Qed.

Lemma Initialization_returns B A b c ctrl s :
  Initialization B A b c ctrl s =
  Ok tt (final_state (Initialization B A b c ctrl s)).
Proof. unfold Initialization. destruct (initialized ctrl); reflexivity. Qed.

(** The update keeps a positive iterate of the right height positive. *)
Lemma TakeStep_keeps_cone A ctrl s :
  0 < maxStepRatio ctrl < 1 ->
  InCone s -> length (v_x s) = Width A -> length (v_z s) = Width A ->
  let s' := final_state (TakeStep A ctrl s) in
  InCone s' /\ length (v_x s') = Width A /\ length (v_z s') = Width A.
Proof.
  intros Hr [Hx Hz] Lx Lz. rewrite TakeStep_run. simpl.
  repeat split.
  - now apply Axpy_final_positive.
  - now apply Axpy_final_positive.
  - now rewrite Axpy_length.
  - now rewrite Axpy_length.
Qed.

Lemma Step_keeps_cone B A c ctrl s :
  0 < maxStepRatio ctrl < 1 ->
  InCone s -> length (v_x s) = Width A -> length (v_z s) = Width A ->
  let s' := final_state (Step B A c ctrl s) in
  InCone s' /\ length (v_x s') = Width A /\ length (v_z s') = Width A.
Proof.
  intros Hr Hc Lx Lz.
  destruct (SearchDirection_frame B A c ctrl s) as (s1 & E & Ex & _ & Ez).
  unfold Step. rewrite (bind_Ok _ _ _ _ _ E).
  apply TakeStep_keeps_cone; unfold InCone in *; rewrite ?Ex, ?Ez; auto.
Qed.

(** ** The loop *)

Section LoopFacts.

Variable B : Backend.
Variable A : Matrix.
Variables b c : vec.
Variable ctrl : MehrotraCtrl.

Abbreviation ConeMessage s :=
  [AInt (Z.of_nat (NumNonPositive (v_x s)));
   AStr " entries of x were nonpositive and ";
   AInt (Z.of_nat (NumNonPositive (v_z s)));
   AStr " entries of z were nonpositive"].

Abbreviation CapMessage :=
  [AStr "Maximum number of iterations ("; AInt (maxIts ctrl);
   AStr ") exceeded"].

Abbreviation AfterTest s := (final_state (ConvergenceTest A b c ctrl s)).

Lemma Loop_S fuel k :
  Loop B A b c ctrl (S fuel) k =
  bind ConeCheck
    (fun _ =>
       bind (ConvergenceTest A b c ctrl)
         (fun converged =>
            if converged then ret tt
            else bind (IterationCap ctrl k)
                   (fun _ =>
                      bind (Step B A c ctrl)
                        (fun _ => Loop B A b c ctrl fuel (k + 1)%Z)))).
Proof. reflexivity. Qed.

Lemma Advance_eq s :
  Advance B A b c ctrl s = final_state (Step B A c ctrl (AfterTest s)).
Proof.
  unfold Advance, bind.
  destruct (ConvergenceTest_run A b c ctrl s) as (bo & E & _).
  rewrite E. reflexivity.
Qed.

Lemma Loop_cone_fail fuel k s :
  ~ InCone s ->
  Loop B A b c ctrl (S fuel) k s = Raise (LogicError (ConeMessage s)) s.
Proof.
  intros H. rewrite Loop_S. unfold bind. now rewrite ConeCheck_fail.
Qed.

Lemma Loop_converged fuel k s :
  InCone s -> Converged A b c ctrl s ->
  Loop B A b c ctrl (S fuel) k s = Ok tt (AfterTest s).
Proof.
  intros Hc Hv. rewrite Loop_S. unfold bind.
  rewrite ConeCheck_pass by assumption.
  now rewrite ConvergenceTest_pass by assumption.
Qed.

Lemma Loop_cap fuel k s :
  InCone s -> ~ Converged A b c ctrl s -> k = maxIts ctrl ->
  Loop B A b c ctrl (S fuel) k s =
  Raise (RuntimeError CapMessage) (AfterTest s).
Proof.
  intros Hc Hv ->. rewrite Loop_S. unfold bind.
  rewrite ConeCheck_pass by assumption.
  rewrite ConvergenceTest_fail by assumption.
  unfold IterationCap. now rewrite Z.eqb_refl.
Qed.

Lemma Loop_continue fuel k s :
  InCone s -> ~ Converged A b c ctrl s -> k <> maxIts ctrl ->
  Loop B A b c ctrl (S fuel) k s =
  Loop B A b c ctrl fuel (k + 1)%Z (Advance B A b c ctrl s).
Proof.
  intros Hc Hv Hk. rewrite Loop_S. unfold bind.
  rewrite ConeCheck_pass by assumption.
  rewrite ConvergenceTest_fail by assumption.
  unfold IterationCap.
  destruct (Z.eqb_spec k (maxIts ctrl)) as [E | _]; [contradiction |].
  unfold ret. rewrite Step_returns. now rewrite Advance_eq.
Qed.

Lemma Mehrotra_Loop fuel x y z :
  Mehrotra B A b c ctrl fuel x y z =
  Loop B A b c ctrl fuel 0%Z (EntryState B A b c ctrl x y z).
Proof.
  unfold Mehrotra, MehrotraBody, bind, EntryState.
  now rewrite Initialization_returns.
Qed.

Variables x y z : vec.

Abbreviation T := (TopState B A b c ctrl x y z).
Abbreviation started := (Started B A b c ctrl x y z).

Lemma TopState_S k : T (S k) = Advance B A b c ctrl (T k).
Proof. reflexivity. Qed.

Lemma Started_0 : started 0.
Proof. intros j Hj. lia. Qed.

Lemma Started_S k :
  started k -> InCone (T k) -> ~ Converged A b c ctrl (T k) ->
  Z.of_nat k <> maxIts ctrl -> started (S k).
Proof.
  intros Hs Hc Hv Hk j Hj.
  destruct (Nat.eq_dec j k) as [-> | Hne]; [auto |].
  apply Hs. lia.
Qed.

Lemma Started_le k j : started k -> (j <= k)%nat -> started j.
Proof. intros Hs Hj i Hi. apply Hs. lia. Qed.

(** Once iteration [k] is started, the run is the loop resumed there. *)
Lemma Loop_resume k fuel :
  started k ->
  Loop B A b c ctrl (k + fuel) 0%Z (T 0) =
  Loop B A b c ctrl fuel (Z.of_nat k) (T k).
Proof.
  revert fuel. induction k as [| k IH]; intros fuel Hs; [reflexivity |].
  replace (S k + fuel)%nat with (k + S fuel)%nat by lia.
  rewrite IH by (apply (Started_le (S k)); [assumption | lia]).
  destruct (Hs k) as (Hc & Hv & Hk); [lia |].
  rewrite Loop_continue by assumption.
  rewrite TopState_S. f_equal. lia.
Qed.

(** Every finished run stops in one of three ways, at a started
    iteration. *)
Lemma Loop_stops fuel k r :
  started k ->
  Loop B A b c ctrl fuel (Z.of_nat k) (T k) = r ->
  (exists s, r = Unfinished s)
  \/ (exists j, started j /\ ~ InCone (T j)
                /\ r = Raise (LogicError (ConeMessage (T j))) (T j))
  \/ (exists j, started j /\ InCone (T j) /\ Converged A b c ctrl (T j)
                /\ r = Ok tt (AfterTest (T j)))
  \/ (exists j, started j /\ InCone (T j)
                /\ ~ Converged A b c ctrl (T j)
                /\ Z.of_nat j = maxIts ctrl
                /\ r = Raise (RuntimeError CapMessage) (AfterTest (T j))).
Proof.
  revert k. induction fuel as [| fuel IH]; intros k Hs Hr.
  - left. exists (T k). now subst r.
  - destruct (InCone_dec (T k)) as [Hc | Hc].
    2:{ rewrite Loop_cone_fail in Hr by assumption.
        right. left. exists k. auto. }
    destruct (Converged_dec A b c ctrl (T k)) as [Hv | Hv].
    { rewrite Loop_converged in Hr by assumption.
      right. right. left. exists k. auto. }
    destruct (Z.eq_dec (Z.of_nat k) (maxIts ctrl)) as [Hk | Hk].
    { rewrite Loop_cap in Hr by assumption.
      right. right. right. exists k. auto. }
    rewrite Loop_continue in Hr by assumption.
    rewrite <- TopState_S in Hr.
    replace (Z.of_nat k + 1)%Z with (Z.of_nat (S k)) in Hr by lia.
    apply (IH (S k)); [| assumption].
    now apply Started_S.
Qed.

Lemma Mehrotra_stops fuel r :
  Mehrotra B A b c ctrl fuel x y z = r ->
  (exists s, r = Unfinished s)
  \/ (exists j, started j /\ ~ InCone (T j)
                /\ r = Raise (LogicError (ConeMessage (T j))) (T j))
  \/ (exists j, started j /\ InCone (T j) /\ Converged A b c ctrl (T j)
                /\ r = Ok tt (AfterTest (T j)))
  \/ (exists j, started j /\ InCone (T j)
                /\ ~ Converged A b c ctrl (T j)
                /\ Z.of_nat j = maxIts ctrl
                /\ r = Raise (RuntimeError CapMessage) (AfterTest (T j))).
Proof.
  rewrite Mehrotra_Loop. apply (Loop_stops fuel 0). apply Started_0.
Qed.

Lemma Mehrotra_at k :
  started k ->
  Mehrotra B A b c ctrl (k + 1) x y z =
  Loop B A b c ctrl 1 (Z.of_nat k) (T k).
Proof.
  intros Hs. rewrite Mehrotra_Loop. now apply (Loop_resume k 1).
Qed.

(** While the loop runs, the model's budget is what stops it. *)
Lemma Mehrotra_unfinished k :
  started k ->
  Mehrotra B A b c ctrl k x y z = Unfinished (T k).
Proof.
  intros Hs. rewrite Mehrotra_Loop.
  pose proof (Loop_resume k 0 Hs) as H.
  rewrite Nat.add_0_r in H. exact H.
Qed.

(** With a cap that is not negative the loop ends within [maxIts + 1]
    iterations. *)
Lemma Started_bounded k :
  (0 <= maxIts ctrl)%Z -> started k -> (k <= Z.to_nat (maxIts ctrl))%nat.
Proof.
  intros H0 Hs.
  destruct (le_lt_dec k (Z.to_nat (maxIts ctrl))) as [| Hlt]; [assumption |].
  destruct (Hs (Z.to_nat (maxIts ctrl)) Hlt) as (_ & _ & Hne).
  exfalso. apply Hne. now rewrite Z2Nat.id.
Qed.

End LoopFacts.

(** ** Success, failures and the initialization of the sequential
       driver *)

Lemma Positive_singleton_zero : ~ Positive [0].
Proof. intros H. inversion H; subst. lra. Qed.

Lemma Nrm2_singleton_zero v : v = 0 -> Nrm2 [v] = 0.
Proof.
  intros ->. unfold Nrm2. simpl.
  replace (0 * 0 + 0) with 0 by lra. apply sqrt_0.
Qed.

Lemma Nrm2_singleton v w : v = w -> 0 <= w -> Nrm2 [v] = w.
Proof.
  intros -> Hw. unfold Nrm2. simpl.
  replace (w * w + 0) with (Rsqr w) by (unfold Rsqr; lra).
  now apply sqrt_Rsqr.
Qed.

Lemma Nrm2_singleton_opp v w : v = - w -> 0 <= w -> Nrm2 [v] = w.
Proof.
  intros -> Hw. unfold Nrm2. simpl.
  replace (- w * - w + 0) with (Rsqr w) by (unfold Rsqr; lra).
  now apply sqrt_Rsqr.
Qed.

Lemma Rabs_zero_expr v : v = 0 -> Rabs v = 0.
Proof. intros ->. apply Rabs_R0. Qed.

Lemma zero_ratio_le u v t : u = 0 -> 0 <= t -> u / v <= t.
Proof. intros -> Ht. unfold Rdiv. now rewrite Rmult_0_l. Qed.

(** C2, as written, at a converged iterate outside the cone: for
    [A = (1)], [b = (0)], [c = (1)] and the caller's [x = (0)], [y = (0)],
    [z = (1)] all three criteria hold at the top of iteration 0, and the
    call raises instead of returning. *)
Lemma Mehrotra_converged_outside_cone_raises :
  ~ (forall B A b c ctrl x y z,
        Succeeds B A b c ctrl x y z
        <-> exists k, Started B A b c ctrl x y z k
                      /\ Converged A b c ctrl
                           (TopState B A b c ctrl x y z k)).
Proof.
  intros H.
  destruct (H NullBackend SampleA [0] [1] SampleCtrl [0] [0] [1])
    as [_ H2].
  destruct H2 as (fuel & s & E).
  - exists O. split; [apply Started_0 |].
    unfold Converged, RelativeGap. cbn.
    repeat split; apply zero_ratio_le; try lra.
    + apply Rabs_zero_expr. lra.
    + apply Nrm2_singleton_zero. unfold MGet, Get. simpl. lra.
    + apply Nrm2_singleton_zero. unfold MGet, Get. simpl. lra.
  - rewrite Mehrotra_Loop in E. destruct fuel as [| fuel].
    + discriminate E.
    + rewrite Loop_cone_fail in E; [discriminate E |].
      intros [Hx _]. now apply Positive_singleton_zero in Hx.
Qed.

(** C2 (amended): the call returns exactly when, at the top of some
    iteration whose iterate passes the cone check, all three convergence
    criteria hold; at an iterate in the cone at which one of the three
    exceeds the tolerance, the loop either fails on the cap or goes on with
    the next iterate. *)
Theorem Mehrotra_succeeds_iff B A b c ctrl x y z :
  (Succeeds B A b c ctrl x y z
   <-> exists k, Started B A b c ctrl x y z k
                 /\ InCone (TopState B A b c ctrl x y z k)
                 /\ Converged A b c ctrl (TopState B A b c ctrl x y z k))
  /\ (forall fuel k s,
         InCone s ->
         tol ctrl < RelativeGap b c (v_x s) (v_y s)
         \/ tol ctrl < Nrm2 (PrimalResidual A b (v_x s)) / (1 + Nrm2 b)
         \/ tol ctrl < Nrm2 (DualResidual A c (v_y s) (v_z s))
                       / (1 + Nrm2 c) ->
         Loop B A b c ctrl (S fuel) k s =
         if (k =? maxIts ctrl)%Z then
           Raise (RuntimeError
                    [AStr "Maximum number of iterations (";
                     AInt (maxIts ctrl); AStr ") exceeded"])
                 (final_state (ConvergenceTest A b c ctrl s))
         else Loop B A b c ctrl fuel (k + 1)%Z (Advance B A b c ctrl s)).
Proof.
  split.
  - split.
    + intros (fuel & s & E).
      destruct (Mehrotra_stops B A b c ctrl x y z fuel _ E)
        as [(s' & H) | [(j & _ & _ & H) | [(j & Hs & Hc & Hv & _)
           | (j & _ & _ & _ & _ & H)]]]; try discriminate H.
      exists j. auto.
    + intros (k & Hs & Hc & Hv).
      exists (k + 1)%nat. eexists.
      rewrite Mehrotra_at by assumption.
      now apply Loop_converged.
  - intros fuel k s Hc Hex.
    assert (Hv : ~ Converged A b c ctrl s).
    { unfold Converged. intros (H1 & H2 & H3).
      destruct Hex as [Hex | [Hex | Hex]]; lra. }
    destruct (Z.eqb_spec k (maxIts ctrl)) as [Hk | Hk].
    + now apply Loop_cap.
    + now apply Loop_continue.
Qed.

Lemma Mehrotra_succeeds_iff_witness :
  Succeeds NullBackend SampleA [1] [1] SampleCtrl [1] [-1] [1 / 100].
Proof.
  apply (proj2 (proj1 (Mehrotra_succeeds_iff NullBackend SampleA [1] [1]
                         SampleCtrl [1] [-1] [1 / 100]))).
  exists O. split; [apply Started_0 |]. split.
  - split; repeat constructor; lra.
  - unfold Converged, RelativeGap. cbn. unfold MGet, Get. simpl.
    rewrite (Nrm2_singleton 1 1) by lra.
    rewrite (Nrm2_singleton _ 0) by lra.
    rewrite (Nrm2_singleton_opp _ (1 / 100)) by lra.
    rewrite (Rabs_zero_expr (1 * 1 + 0 - - (1 * -1 + 0))) by lra.
    repeat split; lra.
Defined.

(** C3, as written, at an iterate outside the cone when the counter is at
    the cap: the counter has reached [maxIts = 0] and the convergence test
    has not passed, and the error is a [LogicError]. *)
Lemma Mehrotra_cap_outside_cone_is_LogicError :
  ~ (forall B A b c ctrl x y z,
        RaisesRuntimeError B A b c ctrl x y z
        <-> exists k, Started B A b c ctrl x y z k
                      /\ Z.of_nat k = maxIts ctrl
                      /\ ~ Converged A b c ctrl
                             (TopState B A b c ctrl x y z k)).
Proof.
  intros H.
  destruct (H NullBackend SampleA [1] [0] StrictCtrl [0] [1] [1])
    as [_ H2].
  destruct H2 as (fuel & what & s & E).
  - exists O. split; [apply Started_0 |]. split; [reflexivity |].
    unfold Converged, RelativeGap. cbn. intros (Hgap & _).
    replace (0 * 0 + 0 - - (1 * 1 + 0)) with 1 in Hgap by lra.
    replace (0 * 0 + 0) with 0 in Hgap by lra.
    rewrite Rabs_R1, Rabs_R0 in Hgap. lra.
  - rewrite Mehrotra_Loop in E. destruct fuel as [| fuel].
    + discriminate E.
    + rewrite Loop_cone_fail in E; [discriminate E |].
      intros [Hx _]. now apply Positive_singleton_zero in Hx.
Qed.

(** C3 (amended): a [LogicError] is raised exactly when some started
    iteration finds a nonpositive entry in x or z; a [RuntimeError] exactly
    when the iteration numbered [maxIts] is started, its iterate passes the
    cone check and fails the convergence test; an iterate in the cone that
    passes the test at iteration [maxIts] makes the call return; no other
    error comes from the driver. *)
Theorem Mehrotra_errors B A b c ctrl x y z :
  (RaisesLogicError B A b c ctrl x y z
   <-> exists k, Started B A b c ctrl x y z k
                 /\ ~ InCone (TopState B A b c ctrl x y z k))
  /\ (RaisesRuntimeError B A b c ctrl x y z
      <-> exists k, Started B A b c ctrl x y z k
                    /\ InCone (TopState B A b c ctrl x y z k)
                    /\ ~ Converged A b c ctrl
                           (TopState B A b c ctrl x y z k)
                    /\ Z.of_nat k = maxIts ctrl)
  /\ (forall k, Started B A b c ctrl x y z k ->
                InCone (TopState B A b c ctrl x y z k) ->
                Converged A b c ctrl (TopState B A b c ctrl x y z k) ->
                Z.of_nat k = maxIts ctrl ->
                Succeeds B A b c ctrl x y z)
  /\ (forall fuel e s,
         Mehrotra B A b c ctrl fuel x y z = Raise e s ->
         (exists xNumNonPos zNumNonPos,
             e = LogicError
                   [AInt xNumNonPos;
                    AStr " entries of x were nonpositive and ";
                    AInt zNumNonPos;
                    AStr " entries of z were nonpositive"])
         \/ e = RuntimeError
                  [AStr "Maximum number of iterations (";
                   AInt (maxIts ctrl); AStr ") exceeded"]).
Proof.
  repeat split.
  - intros (fuel & what & s & E).
    destruct (Mehrotra_stops B A b c ctrl x y z fuel _ E)
      as [(s' & H) | [(j & Hs & Hc & _) | [(j & _ & _ & _ & H)
         | (j & _ & _ & _ & _ & H)]]]; try discriminate H.
    exists j. auto.
  - intros (k & Hs & Hc).
    exists (k + 1)%nat. do 2 eexists.
    rewrite Mehrotra_at by assumption.
    now apply Loop_cone_fail.
  - intros (fuel & what & s & E).
    destruct (Mehrotra_stops B A b c ctrl x y z fuel _ E)
      as [(s' & H) | [(j & _ & _ & H) | [(j & _ & _ & _ & H)
         | (j & Hs & Hc & Hv & Hk & _)]]]; try discriminate H.
    exists j. auto.
  - intros (k & Hs & Hc & Hv & Hk).
    exists (k + 1)%nat. do 2 eexists.
    rewrite Mehrotra_at by assumption.
    now apply Loop_cap.
  - intros k Hs Hc Hv _.
    exists (k + 1)%nat. eexists.
    rewrite Mehrotra_at by assumption.
    now apply Loop_converged.
  - intros fuel e s E.
    destruct (Mehrotra_stops B A b c ctrl x y z fuel _ E)
      as [(s' & H) | [(j & _ & _ & H) | [(j & _ & _ & _ & H)
         | (j & _ & _ & _ & _ & H)]]]; try discriminate H.
    + left. apply (f_equal raised) in H. cbv beta iota delta [raised] in H.
      injection H as ->. eauto.
    + right. apply (f_equal raised) in H.
      cbv beta iota delta [raised] in H. now injection H.
Qed.

Lemma Mehrotra_errors_witness :
  RaisesLogicError NullBackend SampleA [1] [0] StrictCtrl [0] [1] [1].
Proof.
  apply (proj2 (proj1 (Mehrotra_errors NullBackend SampleA [1] [0]
                         StrictCtrl [0] [1] [1]))).
  exists O. split; [apply Started_0 |].
  intros [Hx _]. now apply Positive_singleton_zero in Hx.
Defined.

(** A cap that is not negative bounds the run: with [maxIts + 1]
    iterations of budget the call has returned or raised. *)
Lemma Mehrotra_terminates B A b c ctrl x y z s :
  (0 <= maxIts ctrl)%Z ->
  Mehrotra B A b c ctrl (Z.to_nat (maxIts ctrl) + 1) x y z <> Unfinished s.
Proof.
  intros H0 E. rewrite Mehrotra_Loop in E.
  assert (G : forall fuel k,
             Started B A b c ctrl x y z k ->
             (Z.to_nat (maxIts ctrl) < k + fuel)%nat ->
             Loop B A b c ctrl fuel (Z.of_nat k)
                  (TopState B A b c ctrl x y z k) <> Unfinished s).
  { induction fuel as [| fuel IH]; intros k Hs Hlt E'.
    - pose proof (Started_bounded B A b c ctrl x y z k H0 Hs). lia.
    - destruct (InCone_dec (TopState B A b c ctrl x y z k)) as [Hc | Hc].
      2:{ rewrite Loop_cone_fail in E' by assumption. discriminate. }
      destruct (Converged_dec A b c ctrl (TopState B A b c ctrl x y z k))
        as [Hv | Hv].
      { rewrite Loop_converged in E' by assumption. discriminate. }
      destruct (Z.eq_dec (Z.of_nat k) (maxIts ctrl)) as [Hk | Hk].
      { rewrite Loop_cap in E' by assumption. discriminate. }
      rewrite Loop_continue in E' by assumption.
      rewrite <- TopState_S in E'.
      replace (Z.of_nat k + 1)%Z with (Z.of_nat (S k)) in E' by lia.
      apply (IH (S k)); [now apply Started_S | lia | assumption]. }
  apply (G (Z.to_nat (maxIts ctrl) + 1)%nat O);
    [apply Started_0 | lia | exact E].
Qed.

(** C10: without [ctrl.initialized] the loop is entered with the output of
    [Initialize], so that, the routine producing its iterate from (A, b, c),
    the caller's x, y, z have no effect on the run; with [ctrl.initialized]
    the loop is entered with the caller's x, y, z. *)
Theorem Mehrotra_initialization B A b c ctrl x y z :
  InitializeFromData B ->
  (initialized ctrl = false ->
   let t := Initialize B A b c x y z in
   EntryState B A b c ctrl x y z = InitialState (tx t) (ty t) (tz t)
   /\ (forall fuel,
          Mehrotra B A b c ctrl fuel x y z =
          Loop B A b c ctrl fuel 0%Z (InitialState (tx t) (ty t) (tz t)))
   /\ (forall fuel x' y' z',
          Mehrotra B A b c ctrl fuel x y z =
          Mehrotra B A b c ctrl fuel x' y' z'))
  /\ (initialized ctrl = true ->
      EntryState B A b c ctrl x y z = InitialState x y z
      /\ forall fuel,
           Mehrotra B A b c ctrl fuel x y z =
           Loop B A b c ctrl fuel 0%Z (InitialState x y z)).
Proof.
  intros HI. split; intros Hi.
  - assert (E : forall x y z,
               EntryState B A b c ctrl x y z =
               InitialState (tx (Initialize B A b c x y z))
                 (ty (Initialize B A b c x y z))
                 (tz (Initialize B A b c x y z))).
    { intros. unfold EntryState, Initialization. now rewrite Hi. }
    cbv zeta. split; [apply E | split].
    + intros fuel. now rewrite Mehrotra_Loop, E.
    + intros fuel x' y' z'. rewrite !Mehrotra_Loop, !E.
      now rewrite (HI A b c x y z x' y' z').
  - assert (E : EntryState B A b c ctrl x y z = InitialState x y z).
    { unfold EntryState, Initialization. now rewrite Hi. }
    split; [exact E |]. intros fuel. now rewrite Mehrotra_Loop, E.
Qed.

Lemma Mehrotra_initialization_witness :
  InitializeFromData DataBackend
  /\ (initialized ColdCtrl = false
      /\ EntryState DataBackend SampleA [5] [-3] ColdCtrl [2] [3] [4] =
         InitialState [Rabs (-3) + 1] [5] [Rabs (-3) + 1]
      /\ forall fuel x' y' z',
           Mehrotra DataBackend SampleA [5] [-3] ColdCtrl fuel [2] [3] [4] =
           Mehrotra DataBackend SampleA [5] [-3] ColdCtrl fuel x' y' z')
  /\ (initialized SampleCtrl = true
      /\ EntryState DataBackend SampleA [5] [-3] SampleCtrl [2] [3] [4] =
         InitialState [2] [3] [4]).
Proof.
  assert (H : InitializeFromData DataBackend) by (intros ?; reflexivity).
  split; [exact H |]. split.
  - destruct (proj1 (Mehrotra_initialization DataBackend SampleA [5] [-3]
                       ColdCtrl [2] [3] [4] H) eq_refl) as (E1 & _ & E3).
    split; [reflexivity |]. split; [exact E1 | exact E3].
  - split; [reflexivity |].
    exact (proj1 (proj2 (Mehrotra_initialization DataBackend SampleA [5]
                           [-3] SampleCtrl [2] [3] [4] H) eq_refl)).
Defined.

(** C7: the sparse sequential specialisation raises the "not yet
    supported" [LogicError] for every input and leaves x, y, z as they
    were. *)
Theorem SparseMehrotra_not_supported A b c ctrl x y z :
  SparseMehrotra A b c ctrl x y z =
  Raise (LogicError
           [AStr "Sequential sparse-direct solvers not yet supported"])
        (InitialState x y z)
  /\ v_x (final_state (SparseMehrotra A b c ctrl x y z)) = x
  /\ v_y (final_state (SparseMehrotra A b c ctrl x y z)) = y
  /\ v_z (final_state (SparseMehrotra A b c ctrl x y z)) = z.
Proof. repeat split. Qed.

(** ** The distributed step-length reductions *)

Lemma Shift_small k r :
  (0 <= k < r)%Z -> Shift_ k 0%Z r = k.
Proof.
  intros H. unfold Shift_, Mod_. rewrite Z.sub_0_r.
  rewrite Z.rem_small by assumption.
  destruct (Z.geb_spec k 0); [reflexivity | lia].
Qed.

Lemma IsLocalCol0_iff g j :
  (j < gridWidth g)%nat -> (IsLocalCol0 g j = true <-> j = O).
Proof.
  intros Hj. unfold IsLocalCol0.
  rewrite Shift_small by lia. rewrite Z.eqb_eq. lia.
Qed.

Lemma Length_spec n k r iLoc :
  (0 <= n)%Z -> (0 <= k < r)%Z -> (0 <= iLoc)%Z ->
  (iLoc < Length_ n k r <-> k + iLoc * r < n)%Z.
Proof.
  intros Hn Hk Hi. unfold Length_.
  destruct (Z.gtb_spec n k) as [Hgt | Hle].
  - rewrite Z.quot_div_nonneg by lia.
    assert (Hr : (0 < r)%Z) by lia.
    pose proof (Z.div_mod (n - k - 1) r ltac:(lia)) as Hd.
    pose proof (Z.mod_pos_bound (n - k - 1) r Hr) as Hm.
    split; intros H; nia.
  - split; intros H; nia.
Qed.

Lemma LocalRows_In g k x i :
  (k < gridHeight g)%nat ->
  (In i (LocalRows g k x)
   <-> (i < length x)%nat /\ (i mod gridHeight g = k)%nat).
Proof.
  intros Hk. unfold LocalRows, LocalHeight, GlobalIndex.
  rewrite Shift_small by lia.
  set (r := gridHeight g) in *.
  set (n := length x).
  rewrite in_map_iff. split.
  - intros (iLoc & <- & Hin). apply in_seq in Hin.
    assert (Hl : (Z.of_nat iLoc
                  < Length_ (Z.of_nat n) (Z.of_nat k) (Z.of_nat r))%Z)
      by lia.
    apply Length_spec in Hl; try lia.
    replace (Z.of_nat k + Z.of_nat iLoc * Z.of_nat r)%Z
      with (Z.of_nat (k + iLoc * r)) in * by lia.
    rewrite Nat2Z.id. split; [lia |].
    rewrite Nat.Div0.mod_add. now apply Nat.mod_small.
  - intros (Hi & Hm).
    exists (i / r)%nat.
    assert (Hr : r <> O) by lia.
    pose proof (Nat.div_mod i r Hr) as Hd. rewrite Hm in Hd.
    split.
    + replace (Z.of_nat k + Z.of_nat (i / r) * Z.of_nat r)%Z
        with (Z.of_nat (k + (i / r) * r)) by lia.
      rewrite Nat2Z.id. lia.
    + apply in_seq. split; [lia |]. simpl.
      assert (Hl : (Z.of_nat (i / r)
                    < Length_ (Z.of_nat n) (Z.of_nat k) (Z.of_nat r))%Z).
      { apply Length_spec; try lia. }
      lia.
Qed.

Lemma Ranks_In g k j :
  In (k, j) (Ranks g) <-> (k < gridHeight g)%nat /\ (j < gridWidth g)%nat.
Proof.
  unfold Ranks. rewrite in_prod_iff, !in_seq. lia.
Qed.

(** Every row is owned by exactly the processes of grid column 0 in the
    grid row [i mod gridHeight]: the local loops together visit each row
    index below the height. *)
Lemma OwnedRows_cover g x i :
  (0 < gridHeight g)%nat -> (0 < gridWidth g)%nat ->
  ((exists r, In r (Ranks g) /\ OwnedRows g x r i) <-> (i < length x)%nat).
Proof.
  intros Hr Hc. split.
  - intros ([k j] & Hin & Hloc & Hrow).
    apply Ranks_In in Hin. simpl in *.
    apply LocalRows_In in Hrow; [tauto | tauto].
  - intros Hi. exists ((i mod gridHeight g)%nat, O).
    assert (Hk : (i mod gridHeight g < gridHeight g)%nat)
      by (apply Nat.mod_upper_bound; lia).
    split; [apply Ranks_In; simpl; lia |].
    split; simpl.
    + now apply IsLocalCol0_iff.
    + apply LocalRows_In; auto.
Qed.

Lemma fold_left_StepBody_map x dx (h : nat -> nat) l a
    (f : Real -> nat -> Real) :
  (forall v iLoc, f v iLoc = StepBody x dx v (h iLoc)) ->
  fold_left f l a = fold_left (StepBody x dx) (map h l) a.
Proof.
  intros Hf. revert a.
  induction l as [| i l IH]; intros a; simpl; [reflexivity |].
  now rewrite Hf, IH.
Qed.

Lemma LocalStepLoop_IsStepMin g r x dx a :
  (fst r < gridHeight g)%nat -> (snd r < gridWidth g)%nat ->
  IsStepMin (OwnedRows g x r) x dx a
            (LocalStepLoop g (fst r) (snd r) x dx a).
Proof.
  intros Hk Hj. unfold LocalStepLoop, OwnedRows.
  destruct (IsLocalCol0 g (snd r)) eqn:Eloc.
  - rewrite (fold_left_StepBody_map x dx
               (fun iLoc =>
                  Z.to_nat (GlobalIndex (Z.of_nat iLoc)
                              (Shift_ (Z.of_nat (fst r)) 0%Z
                                 (Z.of_nat (gridHeight g)))
                              (Z.of_nat (gridHeight g)))))
      by reflexivity.
    eapply IsStepMin_ext; [| apply StepBody_fold_IsStepMin].
    intros i. unfold LocalRows. tauto.
  - repeat split; [lra | intros i [Hf _]; discriminate | now left].
Qed.

Lemma fold_left_Min_spec l a0 :
  let v := fold_left Min l a0 in
  v <= a0 /\ (forall w, In w l -> v <= w) /\ (v = a0 \/ In v l).
Proof.
  revert a0. induction l as [| w l IH]; intros a0; simpl.
  - repeat split; [lra | tauto | now left].
  - destruct (IH (Min a0 w)) as (H1 & H2 & H3).
    pose proof (Min_le_l a0 w). pose proof (Min_le_r a0 w).
    repeat split.
    + lra.
    + intros u [<- | Hu]; [lra | now apply H2].
    + destruct H3 as [H3 | H3]; [| now right; right].
      rewrite H3. destruct (Min_cases a0 w) as [-> | ->]; auto.
Qed.

Lemma AllReduceMin_IsStepMin (ranks : list (nat * nat))
    (P : nat * nat -> nat -> Prop) (f : nat * nat -> Real) x dx a :
  ranks <> [] ->
  (forall r, In r ranks -> IsStepMin (P r) x dx a (f r)) ->
  IsStepMin (fun i => exists r, In r ranks /\ P r i) x dx a
            (AllReduceMin (map f ranks)).
Proof.
  intros Hne Hall.
  destruct ranks as [| r0 rest]; [contradiction |].
  simpl. destruct (fold_left_Min_spec (map f rest) (f r0))
    as (H1 & H2 & H3).
  set (v := fold_left Min (map f rest) (f r0)) in *.
  assert (Hle : forall r, In r (r0 :: rest) -> v <= f r).
  { intros r [<- | Hr]; [assumption |].
    apply H2. now apply in_map. }
  assert (Hin : exists r, In r (r0 :: rest) /\ v = f r).
  { destruct H3 as [H3 | H3].
    - exists r0. split; [now left | assumption].
    - apply in_map_iff in H3. destruct H3 as (r & Er & Hr).
      exists r. split; [now right | now symmetry]. }
  repeat split.
  - destruct (Hall r0 (or_introl eq_refl)) as (Ha & _). lra.
  - intros i (r & Hr & HP) Hneg.
    destruct (Hall r Hr) as (_ & Hl & _).
    specialize (Hl i HP Hneg). specialize (Hle r Hr). lra.
  - destruct Hin as (r & Hr & Ev).
    destruct (Hall r Hr) as (_ & _ & [Ea | (i & HP & Hneg & Ei)]).
    + left. now rewrite Ev.
    + right. exists i. split; [exists r; auto |]. split; [assumption |].
      now rewrite Ev.
Qed.

(** The local loops followed by the MIN all-reduce compute what the
    sequential loop over all rows computes. *)
Lemma DistStepLoop_StepLoop g x dx a :
  (0 < gridHeight g)%nat -> (0 < gridWidth g)%nat ->
  DistStepLoop g x dx a = StepLoop (length x) x dx a.
Proof.
  intros Hr Hc. unfold DistStepLoop.
  eapply IsStepMin_unique;
    [| apply (AllReduceMin_IsStepMin (Ranks g) (OwnedRows g x))
     | apply StepLoop_IsStepMin].
  - intros i. now apply OwnedRows_cover.
  - intros E.
    assert (H : In (O, O) (Ranks g)) by (apply Ranks_In; simpl; lia).
    rewrite E in H. contradiction.
  - intros [k j] Hin. apply Ranks_In in Hin.
    apply LocalStepLoop_IsStepMin; simpl; tauto.
Qed.

Lemma DistAffineStepLengths_run g s :
  (0 < gridHeight g)%nat -> (0 < gridWidth g)%nat ->
  DistAffineStepLengths g s =
  Ok (StepLoop (length (v_x s)) (v_x s) (v_dxAff s) 1,
      StepLoop (length (v_z s)) (v_z s) (v_dzAff s) 1) s.
Proof.
  intros Hr Hc. unfold DistAffineStepLengths, bind, get, ret.
  now rewrite !DistStepLoop_StepLoop.
Qed.

Lemma DistTakeStep_run g ctrl s :
  (0 < gridHeight g)%nat -> (0 < gridWidth g)%nat ->
  let r := maxStepRatio ctrl in
  let alphaPri :=
    Min (r * StepLoop (length (v_x s)) (v_x s) (v_dx s) (1 / r)) 1 in
  let alphaDual :=
    Min (r * StepLoop (length (v_z s)) (v_z s) (v_dz s) (1 / r)) 1 in
  DistTakeStep g ctrl s =
  Ok tt (set_z (Axpy alphaDual (v_dz s) (v_z s))
           (set_y (Axpy alphaDual (v_dy s) (v_y s))
              (set_x (Axpy alphaPri (v_dx s) (v_x s)) s))).
Proof.
  intros Hr Hc. unfold DistTakeStep, DistStepLengths, bind, get, ret.
  now rewrite !DistStepLoop_StepLoop.
Qed.

(** ** The kernels over an exact arithmetic *)

Lemma Rltb_true a b : Rltb a b = true <-> a < b.
Proof.
  unfold Rltb. destruct (Rlt_dec a b); split; intros; try lra;
    discriminate.
Qed.

Lemma RealArithmetic_Exact : Exact RealArithmetic (fun v => v).
Proof.
  constructor; simpl; intros; try reflexivity.
  - apply Rltb_true.
  - apply Rleb_true.
Qed.

Section ExactKernels.

Variable Ar : Arithmetic.
Variable phi : num Ar -> R.
Hypothesis HE : Exact Ar phi.

Lemma Exact_Get x i : phi (Generic.Get Ar x i) = Get (map phi x) i.
Proof.
  unfold Generic.Get, Get. rewrite <- (exact_zero Ar phi HE).
  symmetry. apply map_nth.
Qed.

Lemma Exact_Min a b : phi (Generic.Min Ar a b) = Min (phi a) (phi b).
Proof.
  unfold Generic.Min, Min.
  pose proof (exact_ltb Ar phi HE b a) as H.
  destruct (a_ltb Ar b a), (Rlt_dec (phi b) (phi a)); try reflexivity.
  - exfalso. apply n. now apply H.
  - destruct H as [_ H]. specialize (H r). discriminate.
Qed.

Lemma Exact_ratio xi dxi :
  phi dxi < 0 ->
  phi (a_div Ar (a_opp Ar xi) dxi) = - phi xi / phi dxi.
Proof.
  intros H. rewrite (exact_div Ar phi HE) by lra.
  now rewrite (exact_opp Ar phi HE).
Qed.

Lemma Exact_neg a :
  a_ltb Ar a (a_zero Ar) = true <-> phi a < 0.
Proof. rewrite (exact_ltb Ar phi HE). now rewrite (exact_zero Ar phi HE). Qed.

Lemma Exact_StepBody x dx alpha i :
  phi (Generic.StepBody Ar x dx alpha i)
  = StepBody (map phi x) (map phi dx) (phi alpha) i.
Proof.
  unfold Generic.StepBody, StepBody. cbv zeta.
  rewrite <- !Exact_Get.
  pose proof (Exact_neg (Generic.Get Ar dx i)) as H.
  destruct (a_ltb Ar (Generic.Get Ar dx i) (a_zero Ar)),
    (Rlt_dec (phi (Generic.Get Ar dx i)) 0) as [Hn | Hn];
    try reflexivity.
  - rewrite Exact_Min. now rewrite Exact_ratio.
  - exfalso. apply Hn. now apply H.
  - destruct H as [_ H]. specialize (H Hn). discriminate.
Qed.

Lemma Exact_StepLoop n x dx alpha :
  phi (Generic.StepLoop Ar n x dx alpha)
  = StepLoop n (map phi x) (map phi dx) (phi alpha).
Proof.
  unfold Generic.StepLoop, StepLoop. generalize (seq 0 n) as l.
  intros l. revert alpha.
  induction l as [| i l IH]; intros alpha; simpl; [reflexivity |].
  rewrite IH. now rewrite Exact_StepBody.
Qed.



Lemma Exact_NumNonPositive x :
  Generic.NumNonPositive Ar x = NumNonPositive (map phi x).
Proof.
  induction x as [| a x IH]; simpl; [reflexivity |].
  pose proof (exact_leb Ar phi HE a (a_zero Ar)) as H.
  rewrite (exact_zero Ar phi HE) in H.
  destruct (a_leb Ar a (a_zero Ar)), (Rle_dec (phi a) 0) as [Hn | Hn];
    rewrite IH; try reflexivity.
  - exfalso. apply Hn. now apply H.
  - destruct H as [_ H]. specialize (H Hn). discriminate.
Qed.



Lemma Exact_LocalStepLoop g k j x dx alpha :
  phi (Generic.LocalStepLoop Ar g k j x dx alpha)
  = LocalStepLoop g k j (map phi x) (map phi dx) (phi alpha).
Proof.
  unfold Generic.LocalStepLoop, LocalStepLoop.
  destruct (IsLocalCol0 g j); [| reflexivity].
  unfold Generic.LocalHeight, LocalHeight. rewrite length_map.
  match goal with
  | |- context [seq 0 ?h] => generalize (seq 0 h) as l
  end.
  intros l. revert alpha.
  induction l as [| i l IH]; intros alpha; simpl; [reflexivity |].
  rewrite IH. f_equal.
  unfold Generic.LocalStepBody, LocalStepBody, Generic.GetLocal, GetLocal.
  cbv zeta.
  set (i' := Z.to_nat _).
  change (phi (Generic.StepBody Ar x dx alpha i')
          = StepBody (map phi x) (map phi dx) (phi alpha) i').
  apply Exact_StepBody.
Qed.

Lemma Exact_fold_Min l a :
  phi (fold_left (Generic.Min Ar) l a) = fold_left Min (map phi l) (phi a).
Proof.
  revert a. induction l as [| b l IH]; intros a; simpl; [reflexivity |].
  rewrite IH. now rewrite Exact_Min.
Qed.

Lemma Exact_DistStepLoop g x dx alpha :
  phi (Generic.DistStepLoop Ar g x dx alpha)
  = DistStepLoop g (map phi x) (map phi dx) (phi alpha).
Proof.
  unfold Generic.DistStepLoop, DistStepLoop.
  generalize (Ranks g) as ranks. intros [| r ranks]; simpl.
  - apply (exact_zero Ar phi HE).
  - rewrite Exact_fold_Min, Exact_LocalStepLoop. f_equal.
    rewrite !map_map. apply map_ext. intros q.
    apply Exact_LocalStepLoop.
Qed.


End ExactKernels.



(** The driver above runs the generic kernels at the arithmetic of the
    reals. *)
Lemma Real_StepLoop n x dx a :
  Generic.StepLoop RealArithmetic n x dx a = StepLoop n x dx a.
Proof.
  pose proof (Exact_StepLoop RealArithmetic (fun v => v)
                RealArithmetic_Exact n x dx a) as H.
  now rewrite !map_id in H.
Qed.

Lemma Real_Min a b : Generic.Min RealArithmetic a b = Min a b.
Proof. apply (Exact_Min RealArithmetic (fun v => v) RealArithmetic_Exact). Qed.

Lemma Real_Axpy a X Y : Generic.Axpy RealArithmetic a X Y = Axpy a X Y.
Proof. reflexivity. Qed.

Lemma Real_StepLengths A ctrl s :
  StepLengths A ctrl s
  = Ok (Generic.StepLengths RealArithmetic (maxStepRatio ctrl) (Width A)
          (v_x s) (v_z s) (v_dx s) (v_dz s)) s.
Proof.
  unfold StepLengths, Generic.StepLengths, bind, get, ret. cbv zeta.
  now rewrite !Real_Min, !Real_StepLoop.
Qed.

Lemma Real_AffineStepLengths A s :
  AffineStepLengths A s
  = Ok (Generic.AffineStepLengths RealArithmetic (Width A)
          (v_x s) (v_z s) (v_dxAff s) (v_dzAff s)) s.
Proof.
  unfold AffineStepLengths, Generic.AffineStepLengths, bind, get, ret.
  cbv zeta. now rewrite !Real_StepLoop.
Qed.

Lemma Real_TakeStep A ctrl s :
  let it' :=
    Generic.TakeStep RealArithmetic (maxStepRatio ctrl) (Width A)
      (@Generic.mkIterate RealArithmetic (v_dx s) (v_dy s) (v_dz s))
      (@Generic.mkIterate RealArithmetic (v_x s) (v_y s) (v_z s)) in
  let s' := final_state (TakeStep A ctrl s) in
  v_x s' = Generic.ix it' /\ v_y s' = Generic.iy it'
  /\ v_z s' = Generic.iz it'.
Proof.
  cbv zeta. rewrite TakeStep_run.
  unfold Generic.TakeStep, Generic.StepLengths, Generic.Update.
  cbn [fst snd Generic.ix Generic.iy Generic.iz final_state].
  rewrite !Real_Min, !Real_StepLoop.
  repeat split.
Qed.

Lemma Real_ConeCheck s :
  raised (ConeCheck s) = Generic.ConeCheck RealArithmetic (v_x s) (v_z s).
Proof.
  unfold ConeCheck, Generic.ConeCheck, bind, get. cbv zeta.
  rewrite !(Exact_NumNonPositive RealArithmetic (fun v => v)
              RealArithmetic_Exact), !map_id.
  destruct ((0 <? NumNonPositive (v_x s))%nat
            || (0 <? NumNonPositive (v_z s))%nat); reflexivity.
Qed.

(** ** Positivity of the iterate *)

Section StepInCone.

Variable Ar : Arithmetic.
Variable phi : num Ar -> R.
Hypothesis HE : Exact Ar phi.





End StepInCone.


(** ** The iterates stay in the cone *)

Lemma DistSearchDirection_frame B g A c ctrl s :
  exists s', DistSearchDirection B g A c ctrl s = Ok tt s'
             /\ v_x s' = v_x s /\ v_y s' = v_y s /\ v_z s' = v_z s.
Proof.
  unfold DistSearchDirection.
  destruct (AffineDirection_run B A c ctrl s)
    as (s1 & E1 & Hx1 & Hy1 & Hz1 & _).
  rewrite (bind_Ok _ _ _ _ _ E1).
  assert (E2 : exists v, DistAffineStepLengths g s1 = Ok v s1)
    by (eexists; reflexivity).
  destruct E2 as (v & E2).
  rewrite (bind_Ok _ _ _ _ _ E2).
  rewrite (bind_Ok _ _ _ _ _ (Centering_run A _ _ s1)).
  match goal with
  | |- context [DistCorrectorDirection B A c ctrl ?mu ?sigma ?s2] =>
      destruct (DistCorrectorDirection_run B A c ctrl mu sigma s2)
        as (s' & E & Hx & Hy & Hz & _)
  end.
  exists s'. split; [exact E |].
  rewrite Hx, Hy, Hz. cbn [v_x v_y v_z set_dx set_dz]. auto.
Qed.

Lemma DistTakeStep_keeps_cone g ctrl s :
  (0 < gridHeight g)%nat -> (0 < gridWidth g)%nat ->
  0 < maxStepRatio ctrl < 1 -> InCone s ->
  let s' := final_state (DistTakeStep g ctrl s) in
  InCone s' /\ length (v_x s') = length (v_x s)
  /\ length (v_z s') = length (v_z s).
Proof.
  intros Hr Hc Hm [Hx Hz]. rewrite DistTakeStep_run by assumption. simpl.
  repeat split.
  - now apply Axpy_final_positive.
  - now apply Axpy_final_positive.
  - now rewrite Axpy_length.
  - now rewrite Axpy_length.
Qed.

Lemma DistStep_returns B g A c ctrl s :
  (0 < gridHeight g)%nat -> (0 < gridWidth g)%nat ->
  DistStep B g A c ctrl s = Ok tt (final_state (DistStep B g A c ctrl s)).
Proof.
  intros Hr Hc.
  destruct (DistSearchDirection_frame B g A c ctrl s) as (s1 & E & _).
  unfold DistStep. rewrite (bind_Ok _ _ _ _ _ E).
  now rewrite DistTakeStep_run.
Qed.

Lemma DistStep_keeps_cone B g A c ctrl s :
  (0 < gridHeight g)%nat -> (0 < gridWidth g)%nat ->
  0 < maxStepRatio ctrl < 1 -> InCone s ->
  InCone (final_state (DistStep B g A c ctrl s)).
Proof.
  intros Hr Hc Hm Hs.
  destruct (DistSearchDirection_frame B g A c ctrl s)
    as (s1 & E & Ex & _ & Ez).
  unfold DistStep. rewrite (bind_Ok _ _ _ _ _ E).
  apply DistTakeStep_keeps_cone; try assumption.
  unfold InCone in *. now rewrite Ex, Ez.
Qed.

Lemma AfterTest_InCone A b c ctrl s :
  InCone s -> InCone (final_state (ConvergenceTest A b c ctrl s)).
Proof.
  destruct (ConvergenceTest_frame A b c ctrl s) as (Ex & _ & Ez).
  unfold InCone. now rewrite Ex, Ez.
Qed.

Lemma Advance_keeps_cone B A b c ctrl s :
  0 < maxStepRatio ctrl < 1 ->
  InCone s -> length (v_x s) = Width A -> length (v_z s) = Width A ->
  let s' := Advance B A b c ctrl s in
  InCone s' /\ length (v_x s') = Width A /\ length (v_z s') = Width A.
Proof.
  intros Hm Hs Lx Lz. rewrite Advance_eq.
  destruct (ConvergenceTest_frame A b c ctrl s) as (Ex & _ & Ez).
  apply Step_keeps_cone; try assumption;
    try (now apply AfterTest_InCone); try (now rewrite Ex);
    try (now rewrite Ez).
Qed.

Lemma DistAdvance_eq B g A b c ctrl s :
  DistAdvance B g A b c ctrl s =
  final_state (DistStep B g A c ctrl
                 (final_state (ConvergenceTest A b c ctrl s))).
Proof.
  unfold DistAdvance, bind.
  destruct (ConvergenceTest_run A b c ctrl s) as (bo & E & _).
  rewrite E. reflexivity.
Qed.

Lemma DistAdvance_keeps_cone B g A b c ctrl s :
  (0 < gridHeight g)%nat -> (0 < gridWidth g)%nat ->
  0 < maxStepRatio ctrl < 1 -> InCone s ->
  InCone (DistAdvance B g A b c ctrl s).
Proof.
  intros Hr Hc Hm Hs. rewrite DistAdvance_eq.
  apply DistStep_keeps_cone; try assumption;
    try (now apply AfterTest_InCone).
Qed.

Lemma DistLoop_S B g A b c ctrl fuel k :
  DistLoop B g A b c ctrl (S fuel) k =
  bind ConeCheck
    (fun _ =>
       bind (ConvergenceTest A b c ctrl)
         (fun converged =>
            if converged then ret tt
            else bind (IterationCap ctrl k)
                   (fun _ =>
                      bind (DistStep B g A c ctrl)
                        (fun _ => DistLoop B g A b c ctrl fuel
                                    (k + 1)%Z)))).
Proof. reflexivity. Qed.

Lemma Loop_in_cone B A b c ctrl fuel :
  0 < maxStepRatio ctrl < 1 ->
  forall k s,
    InCone s -> length (v_x s) = Width A -> length (v_z s) = Width A ->
    InCone (final_state (Loop B A b c ctrl fuel k s))
    /\ forall what s',
         Loop B A b c ctrl fuel k s <> Raise (LogicError what) s'.
Proof.
  intros Hm. induction fuel as [| fuel IH]; intros k s Hs Lx Lz.
  - simpl. split; [assumption | discriminate].
  - pose proof (AfterTest_InCone A b c ctrl s Hs) as Hs1.
    destruct (Converged_dec A b c ctrl s) as [Hv | Hv].
    { rewrite Loop_converged by assumption.
      split; [assumption | discriminate]. }
    destruct (Z.eq_dec k (maxIts ctrl)) as [Hk | Hk].
    { rewrite Loop_cap by assumption.
      split; [assumption | discriminate]. }
    rewrite Loop_continue by assumption.
    destruct (Advance_keeps_cone B A b c ctrl s Hm Hs Lx Lz)
      as (Hc' & Lx' & Lz').
    now apply IH.
Qed.

Lemma DistLoop_converged B g A b c ctrl fuel k s :
  InCone s -> Converged A b c ctrl s ->
  DistLoop B g A b c ctrl (S fuel) k s =
  Ok tt (final_state (ConvergenceTest A b c ctrl s)).
Proof.
  intros Hc Hv. rewrite DistLoop_S. unfold bind.
  rewrite ConeCheck_pass by assumption.
  now rewrite ConvergenceTest_pass by assumption.
Qed.

Lemma DistLoop_cap B g A b c ctrl fuel k s :
  InCone s -> ~ Converged A b c ctrl s -> k = maxIts ctrl ->
  DistLoop B g A b c ctrl (S fuel) k s =
  Raise (RuntimeError
           [AStr "Maximum number of iterations ("; AInt (maxIts ctrl);
            AStr ") exceeded"])
        (final_state (ConvergenceTest A b c ctrl s)).
Proof.
  intros Hc Hv ->. rewrite DistLoop_S. unfold bind.
  rewrite ConeCheck_pass by assumption.
  rewrite ConvergenceTest_fail by assumption.
  unfold IterationCap. now rewrite Z.eqb_refl.
Qed.

Lemma DistLoop_continue B g A b c ctrl fuel k s :
  (0 < gridHeight g)%nat -> (0 < gridWidth g)%nat ->
  InCone s -> ~ Converged A b c ctrl s -> k <> maxIts ctrl ->
  DistLoop B g A b c ctrl (S fuel) k s =
  DistLoop B g A b c ctrl fuel (k + 1)%Z (DistAdvance B g A b c ctrl s).
Proof.
  intros Hr Hg Hc Hv Hk. rewrite DistLoop_S. unfold bind.
  rewrite ConeCheck_pass by assumption.
  rewrite ConvergenceTest_fail by assumption.
  unfold IterationCap.
  destruct (Z.eqb_spec k (maxIts ctrl)) as [E | _]; [contradiction |].
  unfold ret. rewrite DistStep_returns by assumption.
  now rewrite DistAdvance_eq.
Qed.

Lemma DistLoop_cone_fail B g A b c ctrl fuel k s :
  ~ InCone s ->
  DistLoop B g A b c ctrl (S fuel) k s =
  Raise (LogicError
           [AInt (Z.of_nat (NumNonPositive (v_x s)));
            AStr " entries of x were nonpositive and ";
            AInt (Z.of_nat (NumNonPositive (v_z s)));
            AStr " entries of z were nonpositive"]) s.
Proof.
  intros H. rewrite DistLoop_S. unfold bind. now rewrite ConeCheck_fail.
Qed.

Lemma DistLoop_in_cone B g A b c ctrl fuel :
  (0 < gridHeight g)%nat -> (0 < gridWidth g)%nat ->
  0 < maxStepRatio ctrl < 1 ->
  forall k s,
    InCone s ->
    InCone (final_state (DistLoop B g A b c ctrl fuel k s))
    /\ forall what s',
         DistLoop B g A b c ctrl fuel k s <> Raise (LogicError what) s'.
Proof.
  intros Hr Hc Hm. induction fuel as [| fuel IH]; intros k s Hs.
  - simpl. split; [assumption | discriminate].
  - pose proof (AfterTest_InCone A b c ctrl s Hs) as Hs1.
    destruct (Converged_dec A b c ctrl s) as [Hv | Hv].
    { rewrite DistLoop_converged by assumption.
      split; [assumption | discriminate]. }
    destruct (Z.eq_dec k (maxIts ctrl)) as [Hk | Hk].
    { rewrite DistLoop_cap by assumption.
      split; [assumption | discriminate]. }
    rewrite DistLoop_continue by assumption.
    apply IH. now apply DistAdvance_keeps_cone.
Qed.

(** By induction over the iterations: over the reals, whose arithmetic
    is exact, both dense drivers, entered with x > 0 and z > 0 and with
    [0 < maxStepRatio < 1], keep x and z strictly positive after every
    update, and the cone check never raises. *)
Lemma Mehrotra_real_stays_in_cone B g A b c ctrl x y z :
  0 < maxStepRatio ctrl < 1 ->
  (0 < gridHeight g)%nat -> (0 < gridWidth g)%nat ->
  InCone (EntryState B A b c ctrl x y z) ->
  length (v_x (EntryState B A b c ctrl x y z)) = Width A ->
  length (v_z (EntryState B A b c ctrl x y z)) = Width A ->
  (forall k, InCone (TopState B A b c ctrl x y z k))
  /\ (forall fuel,
         InCone (final_state (Mehrotra B A b c ctrl fuel x y z))
         /\ forall what s,
              Mehrotra B A b c ctrl fuel x y z
              <> Raise (LogicError what) s)
  /\ (forall k, InCone (DistTopState B g A b c ctrl x y z k))
  /\ (forall fuel,
         InCone (final_state (DistMehrotra B g A b c ctrl fuel x y z))
         /\ forall what s,
              DistMehrotra B g A b c ctrl fuel x y z
              <> Raise (LogicError what) s).
Proof.
  intros Hm Hr Hc Hs Lx Lz. repeat apply conj.
  - intros k.
    assert (G : InCone (TopState B A b c ctrl x y z k)
                /\ length (v_x (TopState B A b c ctrl x y z k)) = Width A
                /\ length (v_z (TopState B A b c ctrl x y z k)) = Width A).
    { induction k as [| k (Hk & Lxk & Lzk)]; [auto |].
      rewrite TopState_S. now apply Advance_keeps_cone. }
    apply G.
  - intros fuel. rewrite Mehrotra_Loop. now apply Loop_in_cone.
  - intros k. induction k as [| k IH]; [assumption |].
    change (DistTopState B g A b c ctrl x y z (S k))
      with (DistAdvance B g A b c ctrl (DistTopState B g A b c ctrl x y z k)).
    now apply DistAdvance_keeps_cone.
  - intros fuel.
    unfold DistMehrotra, DistMehrotraBody.
    rewrite (bind_Ok _ _ _ _ _ (Initialization_returns B A b c ctrl _)).
    now apply DistLoop_in_cone.
Qed.

Lemma IterateOf_ext s s' :
  v_x s' = v_x s -> v_y s' = v_y s -> v_z s' = v_z s ->
  IterateOf s' = IterateOf s.
Proof. intros Ex Ey Ez. unfold IterateOf. now rewrite Ex, Ey, Ez. Qed.

Lemma Real_DistStepLoop g x dx a :
  Generic.DistStepLoop RealArithmetic g x dx a = DistStepLoop g x dx a.
Proof.
  pose proof (Exact_DistStepLoop RealArithmetic (fun v => v)
                RealArithmetic_Exact g x dx a) as H.
  now rewrite !map_id in H.
Qed.

Lemma Real_DistTakeStep g ctrl s :
  (0 < gridHeight g)%nat -> (0 < gridWidth g)%nat ->
  IterateOf (final_state (DistTakeStep g ctrl s))
  = Generic.DistTakeStep RealArithmetic g (maxStepRatio ctrl)
      (@Generic.mkIterate RealArithmetic (v_dx s) (v_dy s) (v_dz s))
      (IterateOf s).
Proof.
  intros Hgh Hgw. rewrite DistTakeStep_run by assumption. cbv zeta.
  unfold Generic.DistTakeStep, Generic.DistStepLengths, Generic.Update,
    IterateOf.
  cbn [fst snd Generic.ix Generic.iy Generic.iz final_state].
  rewrite !Real_Min, !Real_DistStepLoop.
  rewrite !DistStepLoop_StepLoop by assumption.
  reflexivity.
Qed.

Lemma Real_TakeStep_iterate A ctrl s :
  IterateOf (final_state (TakeStep A ctrl s))
  = Generic.TakeStep RealArithmetic (maxStepRatio ctrl) (Width A)
      (@Generic.mkIterate RealArithmetic (v_dx s) (v_dy s) (v_dz s))
      (IterateOf s).
Proof.
  rewrite TakeStep_run. cbv zeta.
  unfold Generic.TakeStep, Generic.StepLengths, Generic.Update, IterateOf.
  cbn [fst snd Generic.ix Generic.iy Generic.iz final_state].
  rewrite !Real_Min, !Real_StepLoop.
  reflexivity.
Qed.

(** One pass through the loop body changes the iterate by one update:
    the convergence test and the computation of the search direction leave
    x, y and z as they are. *)
Lemma Advance_is_update B A b c ctrl s :
  exists d,
    IterateOf (Advance B A b c ctrl s)
    = Generic.TakeStep RealArithmetic (maxStepRatio ctrl) (Width A) d
        (IterateOf s).
Proof.
  rewrite Advance_eq.
  destruct (ConvergenceTest_frame A b c ctrl s) as (Ex & Ey & Ez).
  set (s0 := final_state (ConvergenceTest A b c ctrl s)) in *.
  destruct (SearchDirection_frame B A c ctrl s0)
    as (s1 & E & Ex1 & Ey1 & Ez1).
  unfold Step. rewrite (bind_Ok _ _ _ _ _ E).
  exists (@Generic.mkIterate RealArithmetic (v_dx s1) (v_dy s1) (v_dz s1)).
  rewrite Real_TakeStep_iterate. f_equal.
  apply IterateOf_ext; congruence.
Qed.

Lemma DistAdvance_is_update B g A b c ctrl s :
  (0 < gridHeight g)%nat -> (0 < gridWidth g)%nat ->
  exists d,
    IterateOf (DistAdvance B g A b c ctrl s)
    = Generic.DistTakeStep RealArithmetic g (maxStepRatio ctrl) d
        (IterateOf s).
Proof.
  intros Hgh Hgw. rewrite DistAdvance_eq.
  destruct (ConvergenceTest_frame A b c ctrl s) as (Ex & Ey & Ez).
  set (s0 := final_state (ConvergenceTest A b c ctrl s)) in *.
  destruct (DistSearchDirection_frame B g A c ctrl s0)
    as (s1 & E & Ex1 & Ey1 & Ez1).
  unfold DistStep. rewrite (bind_Ok _ _ _ _ _ E).
  exists (@Generic.mkIterate RealArithmetic (v_dx s1) (v_dy s1) (v_dz s1)).
  rewrite Real_DistTakeStep by assumption. f_equal.
  apply IterateOf_ext; congruence.
Qed.

(** The iterates of a call are those of a sequence of updates: the state
    at the top of iteration [k] carries the iterate that [k] updates, each
    along the search direction of its iteration, make of the iterate the
    loop is entered with. *)
Lemma TopState_is_updates B A b c ctrl x y z k :
  exists directions,
    length directions = k
    /\ IterateOf (TopState B A b c ctrl x y z k)
       = fold_left
           (fun it d =>
              Generic.TakeStep RealArithmetic (maxStepRatio ctrl) (Width A)
                d it)
           directions (IterateOf (EntryState B A b c ctrl x y z)).
Proof.
  induction k as [| k (ds & L & E)].
  - exists []. split; reflexivity.
  - rewrite TopState_S.
    destruct (Advance_is_update B A b c ctrl
                (TopState B A b c ctrl x y z k)) as (d & Ed).
    exists (ds ++ [d]). split.
    + rewrite length_app. simpl. lia.
    + rewrite fold_left_app. simpl. now rewrite Ed, E.
Qed.

Lemma DistTopState_is_updates B g A b c ctrl x y z k :
  (0 < gridHeight g)%nat -> (0 < gridWidth g)%nat ->
  exists directions,
    length directions = k
    /\ IterateOf (DistTopState B g A b c ctrl x y z k)
       = fold_left
           (fun it d =>
              Generic.DistTakeStep RealArithmetic g (maxStepRatio ctrl) d it)
           directions (IterateOf (EntryState B A b c ctrl x y z)).
Proof.
  intros Hgh Hgw. induction k as [| k (ds & L & E)].
  - exists []. split; reflexivity.
  - change (DistTopState B g A b c ctrl x y z (S k))
      with (DistAdvance B g A b c ctrl (DistTopState B g A b c ctrl x y z k)).
    destruct (DistAdvance_is_update B g A b c ctrl
                (DistTopState B g A b c ctrl x y z k) Hgh Hgw) as (d & Ed).
    exists (ds ++ [d]). split.
    + rewrite length_app. simpl. lia.
    + rewrite fold_left_app. simpl. now rewrite Ed, E.
Qed.





(** ** The distributed driver against the sequential one *)

Lemma DiagonalScale_comm d X :
  length d = length X -> DiagonalScale d X = DiagonalScale X d.
Proof.
  revert X. induction d as [| a d IH]; intros [| v X] H; simpl in *;
    try discriminate; [reflexivity |].
  rewrite (IH X) by lia. f_equal. lra.
Qed.

Lemma SolveDirection_conformal B A c ctrl F x z rc rb rmu :
  ExpandConformal B ->
  length (tx (SolveDirection B A c ctrl F x z rc rb rmu))
  = length (tz (SolveDirection B A c ctrl F x z rc rb rmu)).
Proof.
  intros (H1 & H2 & H3). unfold SolveDirection.
  destruct (system ctrl); simpl; auto.
Qed.

Lemma DistCorrectorDirection_eq B A c ctrl mu sigma s :
  length (v_dxAff s) = length (v_dzAff s) ->
  DistCorrectorDirection B A c ctrl mu sigma s =
  CorrectorDirection B A c ctrl mu sigma s.
Proof.
  intros H.
  change (DistCorrectorDirection B A c ctrl mu sigma s)
    with (bind (CorrectorSolve B A c ctrl) (fun _ => AddAffine)
            (set_rmu (Shift (DiagonalScale (v_dzAff s) (v_dxAff s))
                            (- sigma * mu))
               (set_rb (Zeros (Height A)) (set_rc (Zeros (Width A)) s)))).
  change (CorrectorDirection B A c ctrl mu sigma s)
    with (bind (CorrectorSolve B A c ctrl) (fun _ => AddAffine)
            (set_rmu (Shift (DiagonalScale (v_dxAff s) (v_dzAff s))
                            (- sigma * mu))
               (set_rb (Zeros (Height A)) (set_rc (Zeros (Width A)) s)))).
  now rewrite (DiagonalScale_comm (v_dxAff s) (v_dzAff s)).
Qed.

Lemma DistSearchDirection_eq B g A c ctrl s :
  ExpandConformal B ->
  (0 < gridHeight g)%nat -> (0 < gridWidth g)%nat ->
  length (v_x s) = Width A -> length (v_z s) = Width A ->
  DistSearchDirection B g A c ctrl s = SearchDirection B A c ctrl s.
Proof.
  intros HB Hr Hc Lx Lz. unfold DistSearchDirection, SearchDirection.
  destruct (AffineDirection_run B A c ctrl s)
    as (s1 & E1 & Hx & _ & Hz & _ & _ & _ & _ & _ & Hdx & _ & Hdz).
  rewrite !(bind_Ok _ _ _ _ _ E1).
  rewrite (bind_Ok _ _ _ _ _ (DistAffineStepLengths_run g s1 Hr Hc)).
  rewrite (bind_Ok _ _ _ _ _ (AffineStepLengths_run A s1)).
  rewrite Hx, Hz, Lx, Lz.
  rewrite !(bind_Ok _ _ _ _ _ (Centering_run A _ _ s1)).
  apply DistCorrectorDirection_eq.
  cbn [v_dxAff v_dzAff set_dx set_dz]. rewrite Hdx, Hdz.
  now apply SolveDirection_conformal.
Qed.

Lemma DistTakeStep_eq g A ctrl s :
  (0 < gridHeight g)%nat -> (0 < gridWidth g)%nat ->
  length (v_x s) = Width A -> length (v_z s) = Width A ->
  DistTakeStep g ctrl s = TakeStep A ctrl s.
Proof.
  intros Hr Hc Lx Lz.
  rewrite DistTakeStep_run, TakeStep_run by assumption.
  now rewrite Lx, Lz.
Qed.

Lemma DistStep_eq B g A c ctrl s :
  ExpandConformal B ->
  (0 < gridHeight g)%nat -> (0 < gridWidth g)%nat ->
  length (v_x s) = Width A -> length (v_z s) = Width A ->
  DistStep B g A c ctrl s = Step B A c ctrl s.
Proof.
  intros HB Hr Hc Lx Lz. unfold DistStep, Step, bind.
  rewrite DistSearchDirection_eq by assumption.
  destruct (SearchDirection_frame B A c ctrl s) as (s1 & E & Ex & _ & Ez).
  rewrite E.
  apply DistTakeStep_eq; try assumption; congruence.
Qed.

Lemma Step_heights B A c ctrl s :
  length (v_x (final_state (Step B A c ctrl s))) = length (v_x s)
  /\ length (v_z (final_state (Step B A c ctrl s))) = length (v_z s).
Proof.
  destruct (SearchDirection_frame B A c ctrl s) as (s1 & E & Ex & _ & Ez).
  unfold Step. rewrite (bind_Ok _ _ _ _ _ E), TakeStep_run. simpl.
  rewrite !Axpy_length. now rewrite Ex, Ez.
Qed.

Lemma Advance_heights B A b c ctrl s :
  length (v_x (Advance B A b c ctrl s)) = length (v_x s)
  /\ length (v_z (Advance B A b c ctrl s)) = length (v_z s).
Proof.
  rewrite Advance_eq.
  destruct (ConvergenceTest_frame A b c ctrl s) as (Ex & _ & Ez).
  destruct (Step_heights B A c ctrl
              (final_state (ConvergenceTest A b c ctrl s))) as (Hx & Hz).
  rewrite Hx, Hz. now rewrite Ex, Ez.
Qed.

Lemma DistAdvance_Advance B g A b c ctrl s :
  ExpandConformal B ->
  (0 < gridHeight g)%nat -> (0 < gridWidth g)%nat ->
  length (v_x s) = Width A -> length (v_z s) = Width A ->
  DistAdvance B g A b c ctrl s = Advance B A b c ctrl s.
Proof.
  intros HB Hr Hc Lx Lz. rewrite DistAdvance_eq, Advance_eq.
  destruct (ConvergenceTest_frame A b c ctrl s) as (Ex & _ & Ez).
  rewrite DistStep_eq; try assumption; try reflexivity; congruence.
Qed.

Lemma DistLoop_Loop B g A b c ctrl fuel :
  ExpandConformal B ->
  (0 < gridHeight g)%nat -> (0 < gridWidth g)%nat ->
  forall k s,
    length (v_x s) = Width A -> length (v_z s) = Width A ->
    DistLoop B g A b c ctrl fuel k s = Loop B A b c ctrl fuel k s.
Proof.
  intros HB Hr Hc. induction fuel as [| fuel IH]; intros k s Lx Lz.
  - reflexivity.
  - destruct (InCone_dec s) as [Hs | Hs].
    2:{ now rewrite DistLoop_cone_fail, Loop_cone_fail by assumption. }
    destruct (Converged_dec A b c ctrl s) as [Hv | Hv].
    { now rewrite DistLoop_converged, Loop_converged by assumption. }
    destruct (Z.eq_dec k (maxIts ctrl)) as [Hk | Hk].
    { now rewrite DistLoop_cap, Loop_cap by assumption. }
    rewrite DistLoop_continue, Loop_continue by assumption.
    rewrite DistAdvance_Advance by assumption.
    destruct (Advance_heights B A b c ctrl s) as (Hx & Hz).
    apply IH; congruence.
Qed.

(** C8: on a process grid, with every distributed reduction read as the
    global minimum or sum, the distributed driver computes the iterates of
    the sequential driver and ends as it does. *)
Theorem DistMehrotra_Mehrotra B g A b c ctrl x y z :
  ExpandConformal B ->
  (0 < gridHeight g)%nat -> (0 < gridWidth g)%nat ->
  length (v_x (EntryState B A b c ctrl x y z)) = Width A ->
  length (v_z (EntryState B A b c ctrl x y z)) = Width A ->
  (forall k,
      DistTopState B g A b c ctrl x y z k = TopState B A b c ctrl x y z k)
  /\ (forall fuel,
         DistMehrotra B g A b c ctrl fuel x y z =
         Mehrotra B A b c ctrl fuel x y z).
Proof.
  intros HB Hr Hc Lx Lz. split.
  - intros k.
    assert (G : DistTopState B g A b c ctrl x y z k
                = TopState B A b c ctrl x y z k
                /\ length (v_x (TopState B A b c ctrl x y z k)) = Width A
                /\ length (v_z (TopState B A b c ctrl x y z k)) = Width A).
    { induction k as [| k (E & Lxk & Lzk)]; [auto |].
      change (DistTopState B g A b c ctrl x y z (S k))
        with (DistAdvance B g A b c ctrl
                (DistTopState B g A b c ctrl x y z k)).
      rewrite TopState_S, E.
      destruct (Advance_heights B A b c ctrl
                  (TopState B A b c ctrl x y z k)) as (Hx & Hz).
      split; [now apply DistAdvance_Advance | split; congruence]. }
    apply G.
  - intros fuel. rewrite Mehrotra_Loop.
    unfold DistMehrotra, DistMehrotraBody.
    rewrite (bind_Ok _ _ _ _ _ (Initialization_returns B A b c ctrl _)).
    now apply DistLoop_Loop.
Qed.

Lemma NullBackend_conformal : ExpandConformal NullBackend.
Proof. repeat split. Qed.

Lemma DistMehrotra_Mehrotra_witness :
  ExpandConformal NullBackend
  /\ DistMehrotra NullBackend SampleGrid SampleA [1] [1] SampleCtrl 4
       [1] [0] [1]
     = Mehrotra NullBackend SampleA [1] [1] SampleCtrl 4 [1] [0] [1].
Proof.
  split; [exact NullBackend_conformal |].
  apply (proj2 (DistMehrotra_Mehrotra NullBackend SampleGrid SampleA [1] [1]
                  SampleCtrl [1] [0] [1] NullBackend_conformal
                  ltac:(simpl; lia) ltac:(simpl; lia) eq_refl eq_refl)).
Defined.

(** ** The final step lengths *)

Lemma Positive_Get_nonneg x i : Positive x -> 0 <= Get x i.
Proof.
  intros H.
  destruct (Nat.lt_ge_cases i (length x)) as [Hi | Hi].
  - left. unfold Positive in H. rewrite Forall_Get in H. now apply H.
  - unfold Get. rewrite nth_overflow by assumption. lra.
Qed.







(** ** The corrector step *)








(** ** The regularized solve layer *)

Section RefinedSolveFacts.

Variable norm : vec -> Real.
Variable minReductionFactor : Real.
Variables applyA' applyAInv' : vec -> vec.
Variable relTol' : Real.
Variable bOrig : vec.
Variable bNorm : Real.

Lemma RefineLoop_met its x r errorNorm k :
  errorNorm / bNorm <= relTol' ->
  RefineLoop norm minReductionFactor applyA' applyAInv' relTol' bOrig bNorm
    its x r errorNorm k
  = (mkRefinedSolveInfo k (errorNorm / bNorm) true, x).
Proof.
  intros H. apply Rleb_true in H.
  destruct its; simpl; now rewrite H.
Qed.

(** When the loop reports that the tolerance was met, the relative
    residual of the returned iterate, measured with the operator the loop
    was given, is within the tolerance. *)
Lemma RefineLoop_residual its :
  forall x r errorNorm k,
    r = Axpy (-1) (applyA' x) bOrig ->
    errorNorm = norm r ->
    let res :=
      RefineLoop norm minReductionFactor applyA' applyAInv' relTol' bOrig
        bNorm its x r errorNorm k in
    refined_metRequestedTol (fst res) = true ->
    norm (Axpy (-1) (applyA' (snd res)) bOrig) / bNorm <= relTol'.
Proof.
  induction its as [| its IH]; intros x r errorNorm k Hr He; simpl.
  - destruct (Rleb (errorNorm / bNorm) relTol') eqn:E; simpl.
    + intros _. apply Rleb_true in E. now rewrite <- Hr, <- He.
    + discriminate.
  - destruct (Rleb (errorNorm / bNorm) relTol') eqn:E; simpl.
    + intros _. apply Rleb_true in E. now rewrite <- Hr, <- He.
    + destruct (Rleb _ errorNorm).
      * apply IH; reflexivity.
      * destruct (Rlt_dec _ errorNorm); simpl; discriminate.
Qed.

End RefinedSolveFacts.

Lemma RefinedSolve_residual norm minReductionFactor applyA' applyAInv' B
    relTol' maxRefineIts progress :
  let res :=
    RefinedSolve norm minReductionFactor applyA' applyAInv' B relTol'
      maxRefineIts progress in
  refined_metRequestedTol (fst res) = true ->
  norm (Axpy (-1) (applyA' (snd res)) B) / norm B <= relTol'.
Proof.
  unfold RefinedSolve. cbv zeta. apply RefineLoop_residual; reflexivity.
Qed.

Ltac eval_vec :=
  cbn [Axpy applyA applyAInv Multiply DiagonalScale SampleSparse
       HalvingFactorization Solve SparseRowDot sEntries Zeros repeat
       fold_right map seq length fst snd Nat.eqb Get nth].

Ltac eval_vec_in H :=
  cbn [Axpy applyA applyAInv Multiply DiagonalScale SampleSparse
       HalvingFactorization Solve SparseRowDot sEntries Zeros repeat
       fold_right map seq length fst snd Nat.eqb Get nth] in H.

(** C6, as written, on the 1 x 1 system [(1) x = 1] regularized by 1: the
    solve reports the tolerance 1/4 as met with [x = 1/2], whose residual
    against the matrix argument alone is 1/2. *)
Lemma RegularizedSolveAfter_residual_is_regularized :
  ~ (forall norm minReductionFactor A reg sparseLDLFact B relTol'
            maxRefineIts progress time,
        let res :=
          RegularizedSolveAfterNoPromote norm minReductionFactor A reg
            sparseLDLFact B relTol' maxRefineIts progress time in
        metRequestedTol (fst res) = true ->
        norm (UnregularizedResidual A B (snd res)) / norm B <= relTol').
Proof.
  intros H.
  specialize (H Nrm2 2 SampleSparse [1] HalvingFactorization [1] (1 / 4)
                5%Z false false).
  cbv zeta in H.
  assert (E : RegularizedSolveAfterNoPromote Nrm2 2 SampleSparse [1]
                HalvingFactorization [1] (1 / 4) 5%Z false false
              = (mkRegSolveInfo 0%Z
                   (Nrm2 (Axpy (-1) (applyA SampleSparse [1] [1 / 2]) [1])
                    / Nrm2 [1]) true, [1 / 2])).
  { unfold RegularizedSolveAfterNoPromote, RefinedSolve. cbv zeta.
    change (applyAInv HalvingFactorization [1]) with [1 / 2].
    rewrite RefineLoop_met; [reflexivity |].
    rewrite (Nrm2_singleton 1 1) by lra. eval_vec.
    rewrite (Nrm2_singleton _ 0); lra. }
  rewrite E in H. cbn [fst snd metRequestedTol] in H.
  specialize (H eq_refl).
  unfold UnregularizedResidual in H. eval_vec_in H.
  rewrite (Nrm2_singleton _ (1 / 2)) in H by lra.
  rewrite (Nrm2_singleton 1 1) in H by lra.
  lra.
Qed.

Lemma rsum_ext f g n :
  (forall j, (j < n)%nat -> f j = g j) -> rsum f n = rsum g n.
Proof.
  induction n as [| n IH]; intros H; simpl; [reflexivity |].
  rewrite IH by (intros; apply H; lia). rewrite H by lia. reflexivity.
Qed.

Lemma rsum_plus f g n :
  rsum (fun j => f j + g j) n = rsum f n + rsum g n.
Proof. induction n as [| n IH]; simpl; [lra | rewrite IH; lra]. Qed.

Lemma rsum_zero n : rsum (fun _ => 0) n = 0.
Proof. induction n as [| n IH]; simpl; [lra | rewrite IH; lra]. Qed.

Lemma rsum_single c v (f : nat -> Real) n :
  rsum (fun j => (if (c =? j)%nat then v else 0) * f j) n
  = if (c <? n)%nat then v * f c else 0.
Proof.
  induction n as [| n IH]; simpl; [reflexivity |].
  rewrite IH.
  destruct (Nat.ltb_spec c n), (Nat.ltb_spec c (S n)),
    (Nat.eqb_spec c n); try lia; subst; lra.
Qed.

Lemma SparseRowDot_entries A i X n :
  Forall (fun e => (snd (fst e) < n)%nat) (sEntries A) ->
  SparseRowDot A i X = rsum (fun j => SparseEntry A i j * Get X j) n.
Proof.
  unfold SparseRowDot, SparseEntry.
  induction (sEntries A) as [| [[r c] v] l IH]; intros H; simpl.
  - transitivity (rsum (fun _ => 0) n);
      [symmetry; apply rsum_zero | apply rsum_ext; intros; lra].
  - inversion H as [| ? ? Hc Hl]; subst. simpl in Hc.
    rewrite (IH Hl).
    set (E := fun j => fold_right
                (fun e acc =>
                   if ((fst (fst e) =? i) && (snd (fst e) =? j))%nat
                   then snd e + acc else acc) 0 l).
    transitivity
      (rsum (fun j => (if (c =? j)%nat
                       then (if (r =? i)%nat then v else 0) else 0)
                      * Get X j + E j * Get X j) n).
    + rewrite rsum_plus, rsum_single. unfold E.
      destruct (Nat.ltb_spec c n); [| lia].
      destruct (r =? i)%nat; lra.
    + apply rsum_ext. intros j _. unfold E.
      destruct (r =? i)%nat, (c =? j)%nat; simpl; lra.
Qed.

Lemma DiagonalSolve_length d X : length (DiagonalSolve d X) = length X.
Proof.
  revert d. induction X as [| v X IH]; intros [| a d]; simpl; auto.
Qed.

Lemma DiagonalScale_length d X : length (DiagonalScale d X) = length X.
Proof.
  revert d. induction X as [| v X IH]; intros [| a d]; simpl; auto.
Qed.

Lemma DiagonalScale_Get d X i :
  (length X <= length d)%nat ->
  Get (DiagonalScale d X) i = Get d i * Get X i.
Proof.
  unfold Get. revert d i.
  induction X as [| v X IH]; intros [| a d] [| i] L; simpl in *;
    try lra; try lia.
  all: try (destruct i; lra).
  apply IH. lia.
Qed.

Lemma applyA_Get A reg X i n :
  Forall (fun e => (snd (fst e) < n)%nat) (sEntries A) ->
  sWidth A = n -> length reg = n -> length X = n -> (i < n)%nat ->
  Get (applyA A reg X) i
  = rsum (fun j => RegularizedEntry A reg i j * Get X j) (sWidth A).
Proof.
  intros HA Hw Lr LX Hi. unfold applyA, Multiply.
  rewrite DiagonalScale_length.
  rewrite Get_map_seq by lia.
  rewrite DiagonalScale_Get by lia.
  rewrite (SparseRowDot_entries A i X n HA), Hw.
  unfold RegularizedEntry.
  transitivity
    (rsum (fun j => SparseEntry A i j * Get X j
                    + (if (i =? j)%nat then Get reg i else 0) * Get X j) n).
  - rewrite rsum_plus, rsum_single.
    destruct (Nat.ltb_spec i n); [lra | lia].
  - apply rsum_ext. intros j _. lra.
Qed.

(** The residual the refinement loop measures is the residual of the
    regularized system. *)
Lemma applyA_residual A reg B X n :
  SquareSparse A n -> length reg = n -> length B = n -> length X = n ->
  Axpy (-1) (applyA A reg X) B = RegularizedResidual A reg B X.
Proof.
  intros (_ & Hw & HA) Lr LB LX.
  assert (HA' : Forall (fun e => (snd (fst e) < n)%nat) (sEntries A)).
  { eapply Forall_impl; [| exact HA]. intros e [_ H]. exact H. }
  apply vec_ext.
  - unfold RegularizedResidual.
    now rewrite Axpy_length, length_map, length_seq.
  - intros i Hi. rewrite Axpy_length in Hi.
    rewrite Axpy_Get by assumption.
    unfold RegularizedResidual.
    rewrite Get_map_seq by assumption.
    rewrite (applyA_Get A reg X i n) by (assumption || lia). lra.
Qed.

Lemma RefineLoop_length norm mrf applyA' applyAInv' relTol' bOrig bNorm its :
  forall x r errorNorm k,
    length (snd (RefineLoop norm mrf applyA' applyAInv' relTol' bOrig bNorm
                   its x r errorNorm k)) = length x.
Proof.
  induction its as [| its IH]; intros x r errorNorm k; simpl.
  - destruct (Rleb (errorNorm / bNorm) relTol'); reflexivity.
  - destruct (Rleb (errorNorm / bNorm) relTol'); [reflexivity |].
    destruct (Rleb _ errorNorm).
    + rewrite IH. apply Axpy_length.
    + destruct (Rlt_dec _ errorNorm); simpl; [apply Axpy_length |].
      reflexivity.
Qed.

(** [RefinedSolve] meets the contract of a refinement routine. *)
Lemma RefinedSolve_contract norm mrf :
  RefinementContract norm (RefinedSolve norm mrf).
Proof.
  intros applyA' applyAInv' B relTol' maxRefineIts progress. cbv zeta.
  split.
  - apply RefinedSolve_residual.
  - intros H. unfold RefinedSolve. cbv zeta.
    rewrite RefineLoop_length. apply H.
Qed.

Lemma applyAInv_length sparseLDLFact :
  (forall Y, length (Solve sparseLDLFact Y) = length Y) ->
  forall Y, length (applyAInv sparseLDLFact Y) = length Y.
Proof. intros H Y. apply H. Qed.

Lemma applyAInvScaled_length d sparseLDLFact :
  (forall Y, length (Solve sparseLDLFact Y) = length Y) ->
  forall Y, length (applyAInvScaled d sparseLDLFact Y) = length Y.
Proof.
  intros H Y. unfold applyAInvScaled.
  now rewrite DiagonalSolve_length, H, DiagonalSolve_length.
Qed.

Lemma Contract_regularized norm solve A reg inv B relTol' maxRefineIts
    progress n :
  RefinementContract norm solve ->
  SquareSparse A n -> length reg = n -> length B = n ->
  (forall Y, length (inv Y) = length Y) ->
  let res := solve (applyA A reg) inv B relTol' maxRefineIts progress in
  refined_metRequestedTol (fst res) = true ->
  norm (RegularizedResidual A reg B (snd res)) / norm B <= relTol'.
Proof.
  intros HC HA Lr LB Hinv res Hmet.
  destruct (HC (applyA A reg) inv B relTol' maxRefineIts progress)
    as [Hres Hlen].
  fold res in Hres, Hlen.
  rewrite <- (applyA_residual A reg B (snd res) n);
    try assumption.
  - now apply Hres.
  - rewrite Hlen by assumption. exact LB.
Qed.

(** C6 (amended): when [RegularizedSolveAfter] reports the requested
    tolerance as met, the relative residual of the returned solution is
    within [relTol] for the regularized system, whose matrix is the
    argument [A] plus the diagonal regularization [reg]: for the overloads
    without promotion, with and without the scaling [d], and for
    [RegularizedSolveAfter] itself, whichever overload the numeric type
    selects, the promoted refinement routine meeting the contract of a
    refinement routine.  [A] is an n x n matrix, [reg] and [B] have height
    n, and the factorization solves in place. *)
Theorem RegularizedSolveAfter_residual norm minReductionFactor
    PromotedRefinedSolve (FieldType : Type)
    (FieldType_eq_dec : forall F G : FieldType, {F = G} + {F <> G})
    (Promote : FieldType -> FieldType) (Field : FieldType)
    A reg d sparseLDLFact B relTol' maxRefineIts progress time n :
  RefinementContract norm PromotedRefinedSolve ->
  SquareSparse A n -> length reg = n -> length B = n ->
  (forall Y, length (Solve sparseLDLFact Y) = length Y) ->
  (let res :=
     RegularizedSolveAfterNoPromote norm minReductionFactor A reg
       sparseLDLFact B relTol' maxRefineIts progress time in
   metRequestedTol (fst res) = true ->
   norm (RegularizedResidual A reg B (snd res)) / norm B <= relTol')
  /\ (let res :=
        RegularizedSolveAfterNoPromoteScaled norm minReductionFactor A reg d
          sparseLDLFact B relTol' maxRefineIts progress time in
      metRequestedTol (fst res) = true ->
      norm (RegularizedResidual A reg B (snd res)) / norm B <= relTol')
  /\ (let res :=
        RegularizedSolveAfter norm minReductionFactor PromotedRefinedSolve
          FieldType FieldType_eq_dec Promote Field A reg sparseLDLFact B
          relTol' maxRefineIts progress time in
      metRequestedTol (fst res) = true ->
      norm (RegularizedResidual A reg B (snd res)) / norm B <= relTol')
  /\ (let res :=
        RegularizedSolveAfterScaled norm minReductionFactor
          PromotedRefinedSolve FieldType FieldType_eq_dec Promote Field A
          reg d sparseLDLFact B relTol' maxRefineIts progress time in
      metRequestedTol (fst res) = true ->
      norm (RegularizedResidual A reg B (snd res)) / norm B <= relTol').
Proof.
  intros HC HA Lr LB HS.
  pose proof (RefinedSolve_contract norm minReductionFactor) as HR.
  pose proof (applyAInv_length sparseLDLFact HS) as H1.
  pose proof (applyAInvScaled_length d sparseLDLFact HS) as H2.
  assert (G1 : let res :=
                 RegularizedSolveAfterNoPromote norm minReductionFactor A
                   reg sparseLDLFact B relTol' maxRefineIts progress time in
               metRequestedTol (fst res) = true ->
               norm (RegularizedResidual A reg B (snd res)) / norm B
               <= relTol').
  { apply (Contract_regularized norm _ A reg _ B relTol' maxRefineIts
             progress n HR HA Lr LB H1). }
  assert (G2 : let res :=
                 RegularizedSolveAfterNoPromoteScaled norm
                   minReductionFactor A reg d sparseLDLFact B relTol'
                   maxRefineIts progress time in
               metRequestedTol (fst res) = true ->
               norm (RegularizedResidual A reg B (snd res)) / norm B
               <= relTol').
  { apply (Contract_regularized norm _ A reg _ B relTol' maxRefineIts
             progress n HR HA Lr LB H2). }
  repeat apply conj.
  - exact G1.
  - exact G2.
  - unfold RegularizedSolveAfter, RegularizedSolveAfterPromote.
    destruct (IsSame FieldType FieldType_eq_dec Field (Promote Field)).
    + exact G1.
    + apply (Contract_regularized norm _ A reg _ B relTol' maxRefineIts
               progress n HC HA Lr LB H1).
  - unfold RegularizedSolveAfterScaled, RegularizedSolveAfterPromoteScaled.
    destruct (IsSame FieldType FieldType_eq_dec Field (Promote Field)).
    + exact G2.
    + apply (Contract_regularized norm _ A reg _ B relTol' maxRefineIts
               progress n HC HA Lr LB H2).
Qed.

(** The promoted overload on the 1 x 1 system: the numeric type [false]
    has the promotion [true]. *)
Lemma Sample_promoted_met :
  metRequestedTol
    (fst (RegularizedSolveAfter Nrm2 2 (RefinedSolve Nrm2 2) bool
            Bool.bool_dec (fun _ => true) false SampleSparse [1]
            HalvingFactorization [1] (1 / 4) 5%Z false false)) = true.
Proof.
  unfold RegularizedSolveAfter, RegularizedSolveAfterPromote.
  change (IsSame bool Bool.bool_dec false true) with false.
  cbv iota zeta.
  unfold RefinedSolve. cbv zeta.
  rewrite RefineLoop_met; [reflexivity |].
  rewrite (Nrm2_singleton 1 1) by lra. eval_vec.
  rewrite (Nrm2_singleton _ 0); lra.
Qed.

Lemma RegularizedSolveAfter_residual_witness :
  let res :=
    RegularizedSolveAfter Nrm2 2 (RefinedSolve Nrm2 2) bool Bool.bool_dec
      (fun _ => true) false SampleSparse [1] HalvingFactorization [1]
      (1 / 4) 5%Z false false in
  IsSame bool Bool.bool_dec false true = false
  /\ metRequestedTol (fst res) = true
  /\ Nrm2 (RegularizedResidual SampleSparse [1] [1] (snd res)) / Nrm2 [1]
     <= 1 / 4.
Proof.
  cbv zeta. split; [reflexivity |]. split; [exact Sample_promoted_met |].
  refine (proj1 (proj2 (proj2
            (RegularizedSolveAfter_residual Nrm2 2 (RefinedSolve Nrm2 2)
               bool Bool.bool_dec (fun _ => true) false SampleSparse [1]
               [1] HalvingFactorization [1] (1 / 4) 5%Z false false 1%nat
               (RefinedSolve_contract Nrm2 2) _ eq_refl eq_refl _)))
            Sample_promoted_met).
  - repeat split. repeat constructor.
  - intros Y. apply length_map.
Defined.

(** C9: for a numeric type that is its own promotion,
    [RegularizedSolveAfter] and [RegularizedSolveAfterPromote] return what
    [RegularizedSolveAfterNoPromote] returns on the same arguments (with
    and without the scaling [d]), whatever the promoted refinement routine
    is; the refinement is [RefinedSolve] with the working-precision
    operator. *)
Theorem RegularizedSolveAfter_without_promotion norm minReductionFactor
    PromotedRefinedSolve (FieldType : Type)
    (FieldType_eq_dec : forall F G : FieldType, {F = G} + {F <> G})
    (Promote : FieldType -> FieldType) (Field : FieldType)
    A reg d sparseLDLFact B relTol' maxRefineIts progress time :
  Promote Field = Field ->
  RegularizedSolveAfter norm minReductionFactor PromotedRefinedSolve
    FieldType FieldType_eq_dec Promote Field A reg sparseLDLFact B relTol'
    maxRefineIts progress time
  = RegularizedSolveAfterNoPromote norm minReductionFactor A reg
      sparseLDLFact B relTol' maxRefineIts progress time
  /\ RegularizedSolveAfterPromote norm minReductionFactor
       PromotedRefinedSolve FieldType FieldType_eq_dec Promote Field A reg
       sparseLDLFact B relTol' maxRefineIts progress time
     = RegularizedSolveAfterNoPromote norm minReductionFactor A reg
         sparseLDLFact B relTol' maxRefineIts progress time
  /\ RegularizedSolveAfterScaled norm minReductionFactor
       PromotedRefinedSolve FieldType FieldType_eq_dec Promote Field A reg
       d sparseLDLFact B relTol' maxRefineIts progress time
     = RegularizedSolveAfterNoPromoteScaled norm minReductionFactor A reg d
         sparseLDLFact B relTol' maxRefineIts progress time
  /\ RegularizedSolveAfterPromoteScaled norm minReductionFactor
       PromotedRefinedSolve FieldType FieldType_eq_dec Promote Field A reg
       d sparseLDLFact B relTol' maxRefineIts progress time
     = RegularizedSolveAfterNoPromoteScaled norm minReductionFactor A reg d
         sparseLDLFact B relTol' maxRefineIts progress time
  /\ RegularizedSolveAfter norm minReductionFactor PromotedRefinedSolve
       FieldType FieldType_eq_dec Promote Field A reg sparseLDLFact B
       relTol' maxRefineIts progress time
     = (toRegSolveInfo
          (fst (RefinedSolve norm minReductionFactor (applyA A reg)
                  (applyAInv sparseLDLFact) B relTol' maxRefineIts
                  progress)),
        snd (RefinedSolve norm minReductionFactor (applyA A reg)
               (applyAInv sparseLDLFact) B relTol' maxRefineIts progress)).
Proof.
  intros HP.
  unfold RegularizedSolveAfter, RegularizedSolveAfterScaled,
    RegularizedSolveAfterPromote, RegularizedSolveAfterPromoteScaled, IsSame.
  destruct (FieldType_eq_dec Field (Promote Field)) as [_ | Hne].
  - repeat split.
  - exfalso. apply Hne. now symmetry.
Qed.

Lemma RegularizedSolveAfter_without_promotion_witness :
  (fun _ : bool => true) true = true
  /\ RegularizedSolveAfter Nrm2 2
       (fun _ _ B _ _ _ => (mkRefinedSolveInfo 0%Z 0 false, B))
       bool Bool.bool_dec (fun _ => true) true
       SampleSparse [1] HalvingFactorization [1] (1 / 4) 5%Z false false
     = RegularizedSolveAfterNoPromote Nrm2 2 SampleSparse [1]
         HalvingFactorization [1] (1 / 4) 5%Z false false.
Proof.
  split; [reflexivity |].
  exact (proj1 (RegularizedSolveAfter_without_promotion Nrm2 2
                  (fun _ _ B _ _ _ => (mkRefinedSolveInfo 0%Z 0 false, B))
                  bool Bool.bool_dec (fun _ => true) true
                  SampleSparse [1] [] HalvingFactorization [1] (1 / 4) 5%Z
                  false false eq_refl)).
Defined.
(** ** The indexing helpers *)

Section IndexingFacts.

Local Open Scope Z_scope.

Lemma Mod__floor a b : 0 < b -> Mod_ a b = a mod b.
Proof.
  intros Hb. unfold Mod_.
  pose proof (Z.rem_bound_abs a b ltac:(lia)) as Hr.
  pose proof (Z.quot_rem' a b) as E.
  destruct (Z.geb_spec (Z.rem a b) 0) as [H | H].
  - apply (Z.mod_unique_pos a b (Z.quot a b)); lia.
  - apply (Z.mod_unique_pos a b (Z.quot a b - 1)); lia.
Qed.

(** X1: for a positive modulus [Mod_] returns the nonnegative residue:
    a value in [0, b) that differs from [a] by a multiple of [b] (the
    remainder of the floored division), also for negative [a], where the
    machine remainder [%] is negative. *)
Theorem Mod__is_residue a b :
  0 < b ->
  0 <= Mod_ a b < b /\ (b | a - Mod_ a b) /\ Mod_ a b = a mod b.
Proof.
  intros Hb. rewrite Mod__floor by assumption.
  split; [now apply Z.mod_pos_bound |].
  split; [| reflexivity].
  exists (a / b). pose proof (Z.div_mod a b ltac:(lia)). lia.
Qed.

Lemma Mod__is_residue_witness :
  0 <= Mod_ (-7) 3 < 3 /\ (3 | -7 - Mod_ (-7) 3) /\ Mod_ (-7) 3 = (-7) mod 3.
Proof. apply (Mod__is_residue (-7) 3). lia. Defined.

Lemma Shift__range rank align stride :
  0 < stride -> 0 <= Shift_ rank align stride < stride.
Proof.
  intros Hs. unfold Shift_. rewrite Mod__floor by assumption.
  now apply Z.mod_pos_bound.
Qed.

(** X2: for a valid rank and alignment [Shift_] returns a shift in
    [0, stride), adding the alignment back recovers the rank modulo the
    stride, and the shift is 0 exactly for the process the data is aligned
    with. *)
Theorem Shift__inverse rank align stride :
  0 <= rank < stride -> 0 <= align < stride ->
  0 <= Shift_ rank align stride < stride
  /\ Mod_ (Shift_ rank align stride + align) stride = rank
  /\ (Shift_ rank align stride = 0 <-> rank = align).
Proof.
  intros Hr Ha.
  split; [apply Shift__range; lia |].
  unfold Shift_.
  rewrite !Mod__floor by lia.
  assert (Hb : 0 <= (rank - align) mod stride < stride)
    by (apply Z.mod_pos_bound; lia).
  split.
  - rewrite Zplus_mod_idemp_l. replace (rank - align + align) with rank by lia.
    apply Z.mod_small; lia.
  - destruct (Z_lt_le_dec rank align) as [Hlt | Hge].
    + replace ((rank - align) mod stride) with (rank - align + stride).
      * lia.
      * apply (Z.mod_unique_pos _ stride (-1)); lia.
    + rewrite Z.mod_small by lia. lia.
Qed.

Lemma Shift__inverse_witness :
  0 <= Shift_ 1 3 4 < 4
  /\ Mod_ (Shift_ 1 3 4 + 3) 4 = 1
  /\ (Shift_ 1 3 4 = 0 <-> 1 = 3).
Proof. apply (Shift__inverse 1 3 4); lia. Defined.

(** Appending the index [n] adds one entry to the process whose shift is
    the residue of [n]. *)
Lemma Length__succ n shift stride :
  0 <= n -> 0 <= shift < stride ->
  Length_ (n + 1) shift stride =
  Length_ n shift stride + (if n mod stride =? shift then 1 else 0).
Proof.
  intros Hn Hs.
  assert (Hr : 0 < stride) by lia.
  assert (H0 : 0 <= Length_ n shift stride).
  { unfold Length_. destruct (Z.gtb_spec n shift); [| lia].
    rewrite Z.quot_div_nonneg by lia.
    pose proof (Z.div_pos (n - shift - 1) stride ltac:(lia) Hr). lia. }
  assert (H1 : 0 <= Length_ (n + 1) shift stride).
  { unfold Length_. destruct (Z.gtb_spec (n + 1) shift); [| lia].
    rewrite Z.quot_div_nonneg by lia.
    pose proof (Z.div_pos (n + 1 - shift - 1) stride ltac:(lia) Hr). lia. }
  pose proof (Length_spec n shift stride) as S0.
  pose proof (Length_spec (n + 1) shift stride) as S1.
  pose proof (Z.div_mod n stride ltac:(lia)) as Hd.
  pose proof (Z.mod_pos_bound n stride Hr) as Hm.
  destruct (Z.eqb_spec (n mod stride) shift) as [E | E].
  - (* n = shift + (n / stride) * stride *)
    assert (Hq : 0 <= n / stride) by (apply Z.div_pos; lia).
    assert (A1 : n / stride < Length_ (n + 1) shift stride)
      by (apply S1; nia).
    assert (A2 : ~ n / stride < Length_ n shift stride)
      by (intros C; apply S0 in C; nia).
    assert (A3 : ~ n / stride + 1 < Length_ (n + 1) shift stride)
      by (intros C; apply S1 in C; nia).
    destruct (Z_lt_le_dec (n / stride - 1) 0) as [Hz | Hz].
    + lia.
    + assert (A4 : n / stride - 1 < Length_ n shift stride)
        by (apply S0; nia).
      lia.
  - apply Z.le_antisymm.
    + destruct (Z_lt_le_dec (Length_ n shift stride + 0)
                  (Length_ (n + 1) shift stride)) as [C | C]; [| lia].
      exfalso.
      assert (C1 : Length_ n shift stride < Length_ (n + 1) shift stride)
        by lia.
      apply S1 in C1; try lia.
      assert (C2 : ~ Length_ n shift stride < Length_ n shift stride) by lia.
      rewrite S0 in C2 by lia.
      assert (Ek : shift + Length_ n shift stride * stride = n) by lia.
      apply E. rewrite <- Ek. rewrite Z.mod_add by lia.
      apply Z.mod_small; lia.
    + destruct (Z_lt_le_dec (Length_ (n + 1) shift stride)
                  (Length_ n shift stride + 0)) as [C | C]; [| lia].
      exfalso.
      assert (C1 : Length_ (n + 1) shift stride < Length_ n shift stride)
        by lia.
      apply S0 in C1; try lia.
      assert (C2 : Length_ (n + 1) shift stride
                   < Length_ (n + 1) shift stride) by (apply S1; lia).
      lia.
Qed.

End IndexingFacts.


Section IndexingFacts2.

Local Open Scope Z_scope.

Lemma Length__nonneg n shift stride :
  0 <= n -> 0 <= shift -> 0 < stride -> 0 <= Length_ n shift stride.
Proof.
  intros Hn Hs Hr. unfold Length_. destruct (Z.gtb_spec n shift); [| lia].
  rewrite Z.quot_div_nonneg by lia.
  pose proof (Z.div_pos (n - shift - 1) stride ltac:(lia) Hr). lia.
Qed.

(** X3: [Length_] is the number of local entries.  For a representable
    length and stride it is not negative; the global index of a local
    index below it is computed by [GlobalIndex] within the range of [Int]
    and is below [n]; and a local index whose global index is computed
    within that range and is below [n] is below [Length_]. *)
Theorem Length__counts_local_indices n shift stride :
  0 <= n <= IntMax -> 0 <= shift < stride -> stride <= IntMax ->
  0 <= Length_ n shift stride
  /\ (forall iLoc, 0 <= iLoc < Length_ n shift stride ->
        GlobalIndexInRange iLoc shift stride
        /\ 0 <= GlobalIndex iLoc shift stride < n)
  /\ (forall iLoc, 0 <= iLoc ->
        GlobalIndexInRange iLoc shift stride ->
        GlobalIndex iLoc shift stride < n ->
        iLoc < Length_ n shift stride).
Proof.
  intros Hn Hs Hr. split; [apply Length__nonneg; lia |]. split.
  - intros iLoc [Hi Hlt].
    apply (Length_spec n shift stride iLoc) in Hlt; try lia.
    assert (0 <= iLoc * stride) by (apply Z.mul_nonneg_nonneg; lia).
    unfold GlobalIndexInRange, InIntRange, GlobalIndex, IntMin, IntMax in *.
    lia.
  - intros iLoc Hi _ Hlt. unfold GlobalIndex in Hlt.
    apply (Length_spec n shift stride iLoc); lia.
Qed.

Lemma Length__counts_local_indices_witness :
  0 <= Length_ 10 1 4
  /\ (forall iLoc, 0 <= iLoc < Length_ 10 1 4 ->
        GlobalIndexInRange iLoc 1 4 /\ 0 <= GlobalIndex iLoc 1 4 < 10)
  /\ (forall iLoc, 0 <= iLoc ->
        GlobalIndexInRange iLoc 1 4 ->
        GlobalIndex iLoc 1 4 < 10 -> iLoc < Length_ 10 1 4).
Proof.
  apply (Length__counts_local_indices 10 1 4); unfold IntMax; lia.
Defined.

Lemma SumOverShifts_indicator (t : Z) a len :
  fold_right Z.add 0
    (map (fun k => if t =? Z.of_nat k then 1 else 0) (seq a len)) =
  if (Z.of_nat a <=? t) && (t <? Z.of_nat (a + len)) then 1 else 0.
Proof.
  revert a. induction len as [| len IH]; intros a; simpl.
  - destruct (Z.leb_spec (Z.of_nat a) t), (Z.ltb_spec t (Z.of_nat (a + 0)));
      simpl; lia.
  - rewrite IH.
    destruct (Z.eqb_spec t (Z.of_nat a)),
      (Z.leb_spec (Z.of_nat (S a)) t),
      (Z.ltb_spec t (Z.of_nat (S a + len))),
      (Z.leb_spec (Z.of_nat a) t),
      (Z.ltb_spec t (Z.of_nat (a + S len))); simpl; lia.
Qed.

Lemma SumOverShifts_add f g stride :
  SumOverShifts (fun s => f s + g s) stride =
  SumOverShifts f stride + SumOverShifts g stride.
Proof.
  unfold SumOverShifts. induction (seq 0 stride) as [| k l IH]; simpl; lia.
Qed.

Lemma SumOverShifts_ext f g stride :
  (forall s, 0 <= s < Z.of_nat stride -> f s = g s) ->
  SumOverShifts f stride = SumOverShifts g stride.
Proof.
  intros H. unfold SumOverShifts. f_equal. apply map_ext_in.
  intros k Hk. apply in_seq in Hk. apply H. lia.
Qed.

Lemma SumOverShifts_one t stride :
  0 <= t < Z.of_nat stride ->
  SumOverShifts (fun s => if t =? s then 1 else 0) stride = 1.
Proof.
  intros Ht. unfold SumOverShifts. rewrite SumOverShifts_indicator.
  destruct (Z.leb_spec (Z.of_nat 0) t), (Z.ltb_spec t (Z.of_nat (0 + stride)));
    simpl; lia.
Qed.

Lemma SumOverShifts_zero stride :
  SumOverShifts (fun _ => 0) stride = 0.
Proof.
  unfold SumOverShifts. induction (seq 0 stride); simpl; lia.
Qed.

(** X4: the local lengths of the processes of one grid dimension add up
    to the global length: no index is lost or held twice. *)
Theorem Length__partition n (stride : nat) :
  0 <= n -> (0 < stride)%nat ->
  SumOverShifts (fun shift => Length_ n shift (Z.of_nat stride)) stride = n.
Proof.
  intros Hn Hr. revert n Hn.
  apply natlike_ind.
  - rewrite (SumOverShifts_ext _ (fun _ => 0)).
    + apply SumOverShifts_zero.
    + intros s Hs. unfold Length_. destruct (Z.gtb_spec 0 s); lia.
  - intros n Hn IH. unfold Z.succ.
    rewrite (SumOverShifts_ext _
               (fun s => Length_ n s (Z.of_nat stride)
                         + (if n mod Z.of_nat stride =? s then 1 else 0))).
    + rewrite SumOverShifts_add, IH, SumOverShifts_one; [lia |].
      apply Z.mod_pos_bound. lia.
    + intros s Hs. apply Length__succ; lia.
Qed.

Lemma Length__partition_witness :
  SumOverShifts (fun shift => Length_ 10 shift (Z.of_nat 4)) 4 = 10.
Proof. apply (Length__partition 10 4); lia. Defined.

(** X5: every representable global index is the [GlobalIndex] of exactly
    one pair of a shift below the stride and a local index, among the pairs
    on which [GlobalIndex] computes within the range of [Int]: the shift is
    the residue and the local index the quotient of the index by the
    stride. *)
Theorem GlobalIndex_round_trip i stride :
  0 < stride <= IntMax -> 0 <= i <= IntMax ->
  0 <= i mod stride < stride /\ 0 <= i / stride
  /\ GlobalIndexInRange (i / stride) (i mod stride) stride
  /\ GlobalIndex (i / stride) (i mod stride) stride = i
  /\ forall iLoc shift,
       0 <= shift < stride ->
       GlobalIndexInRange iLoc shift stride ->
       GlobalIndex iLoc shift stride = i ->
       shift = i mod stride /\ iLoc = i / stride.
Proof.
  intros [Hr Hr'] [Hi Hi'].
  pose proof (Z.div_mod i stride ltac:(lia)) as Hd.
  pose proof (Z.mod_pos_bound i stride Hr) as Hm.
  assert (Hq : 0 <= i / stride) by (apply Z.div_pos; lia).
  split; [assumption |].
  split; [assumption |].
  split.
  { assert (0 <= i / stride * stride)
      by (apply Z.mul_nonneg_nonneg; lia).
    unfold GlobalIndexInRange, InIntRange, IntMin, IntMax in *. lia. }
  unfold GlobalIndex. split; [lia |].
  intros iLoc shift Hs _ E.
  assert (Es : shift = i mod stride).
  { rewrite <- E. rewrite Z.mod_add by lia. symmetry.
    apply Z.mod_small; lia. }
  split; [assumption |].
  subst shift. nia.
Qed.

Lemma GlobalIndex_round_trip_witness :
  0 <= 10 mod 4 < 4 /\ 0 <= 10 / 4
  /\ GlobalIndexInRange (10 / 4) (10 mod 4) 4
  /\ GlobalIndex (10 / 4) (10 mod 4) 4 = 10
  /\ forall iLoc shift,
       0 <= shift < 4 ->
       GlobalIndexInRange iLoc shift 4 ->
       GlobalIndex iLoc shift 4 = 10 ->
       shift = 10 mod 4 /\ iLoc = 10 / 4.
Proof. apply (GlobalIndex_round_trip 10 4); unfold IntMax; lia. Defined.

(** X6: [MaxLength_] is the local length of the process with shift 0,
    no process holds more than that, and none holds fewer than one less:
    the element-wise distribution is balanced to within one entry. *)
Theorem MaxLength__bounds n shift stride :
  0 <= n -> 0 <= shift < stride ->
  MaxLength_ n stride = Length_ n 0 stride
  /\ Length_ n shift stride <= MaxLength_ n stride
  /\ MaxLength_ n stride <= Length_ n shift stride + 1.
Proof.
  intros Hn Hs.
  assert (Hr : 0 < stride) by lia.
  assert (E : MaxLength_ n stride = Length_ n 0 stride).
  { unfold MaxLength_, Length_. rewrite Z.sub_0_r. reflexivity. }
  split; [assumption |]. rewrite E.
  pose proof (Length__nonneg n shift stride Hn ltac:(lia) Hr) as P1.
  pose proof (Length__nonneg n 0 stride Hn ltac:(lia) Hr) as P0.
  pose proof (Length_spec n shift stride) as S1.
  pose proof (Length_spec n 0 stride) as S0.
  split.
  - destruct (Z_lt_le_dec (Length_ n 0 stride) (Length_ n shift stride))
      as [C | C]; [| lia].
    exfalso. apply S1 in C; try lia.
    assert (C' : Length_ n 0 stride < Length_ n 0 stride)
      by (apply S0; try lia).
    lia.
  - destruct (Z_lt_le_dec (Length_ n shift stride + 1) (Length_ n 0 stride))
      as [C | C]; [| lia].
    exfalso. apply S0 in C; try lia.
    assert (C' : Length_ n shift stride < Length_ n shift stride)
      by (apply S1; try lia; nia).
    lia.
Qed.

Lemma MaxLength__bounds_witness :
  MaxLength_ 10 4 = Length_ 10 0 4
  /\ Length_ 10 3 4 <= MaxLength_ 10 4
  /\ MaxLength_ 10 4 <= Length_ 10 3 4 + 1.
Proof. apply (MaxLength__bounds 10 3 4); lia. Defined.

(** X11: for positive [n] and block size, [LastOffset] is the start of
    the last block of [n] entries: a nonnegative multiple of the block size,
    below [n] and within one block of it. *)
Theorem LastOffset_last_block n bsize :
  0 < n -> 0 < bsize ->
  0 <= LastOffset n bsize
  /\ (bsize | LastOffset n bsize)
  /\ LastOffset n bsize < n <= LastOffset n bsize + bsize.
Proof.
  intros Hn Hb. unfold LastOffset.
  rewrite Mod__floor by assumption.
  rewrite Z.quot_div_nonneg by lia.
  pose proof (Z.div_mod n bsize ltac:(lia)) as Hd.
  pose proof (Z.mod_pos_bound n bsize Hb) as Hm.
  assert (Hq : 0 <= n / bsize) by (apply Z.div_pos; lia).
  destruct (Z.eqb_spec (n mod bsize) 0) as [E | E]; simpl.
  - assert (1 <= n / bsize) by nia.
    split; [nia |]. split; [now exists (n / bsize - 1); lia | nia].
  - split; [nia |]. split; [now exists (n / bsize); lia | nia].
Qed.

Lemma LastOffset_last_block_witness :
  0 <= LastOffset 12 4
  /\ (4 | LastOffset 12 4)
  /\ LastOffset 12 4 < 12 <= LastOffset 12 4 + 4.
Proof. apply (LastOffset_last_block 12 4); lia. Defined.

(** X12: for a matrix with representable nonnegative dimensions and a
    representable offset, the difference [width-offset] or the sum
    [height+offset] that [DiagonalLength] forms is representable, and
    [DiagonalLength] is the number of entries of the diagonal with the
    given offset: the [k]-th entry, in row [k + max(0,-offset)] and column
    [k + max(0,offset)], lies inside the matrix exactly when [k] is below
    it; it is between 0 and the smaller dimension; and, when the offset can
    be negated, transposing the matrix and negating the offset gives the
    same length. *)
Theorem DiagonalLength_counts_diagonal height width offset :
  0 <= height <= IntMax -> 0 <= width <= IntMax -> InIntRange offset ->
  (if offset >? 0 then InIntRange (width - offset)
   else InIntRange (height + offset))
  /\ (forall k, 0 <= k ->
        (k < DiagonalLength height width offset
         <-> k + Z.max 0 (- offset) < height
             /\ k + Z.max 0 offset < width))
  /\ 0 <= DiagonalLength height width offset <= Z.min height width
  /\ (IntMin < offset ->
      DiagonalLength width height (- offset)
      = DiagonalLength height width offset).
Proof.
  unfold DiagonalLength, InIntRange, IntMin, IntMax.
  intros Hh Hw Ho. split; [| split; [| split]].
  - destruct (Z.gtb_spec offset 0); lia.
  - intros k Hk. destruct (Z.gtb_spec offset 0); lia.
  - destruct (Z.gtb_spec offset 0); lia.
  - intros _.
    destruct (Z.gtb_spec offset 0), (Z.gtb_spec (- offset) 0); lia.
Qed.

Lemma DiagonalLength_counts_diagonal_witness :
  InIntRange (4 - 1)
  /\ (forall k, 0 <= k ->
        (k < DiagonalLength 5 4 1
         <-> k + Z.max 0 (- 1) < 5 /\ k + Z.max 0 1 < 4))
  /\ 0 <= DiagonalLength 5 4 1 <= Z.min 5 4
  /\ (IntMin < 1 -> DiagonalLength 4 5 (- 1) = DiagonalLength 5 4 1).
Proof.
  apply (DiagonalLength_counts_diagonal 5 4 1);
    unfold InIntRange, IntMin, IntMax; lia.
Defined.

Lemma GCD__abs a b : Z.abs (GCD_ a b) = Z.gcd a b.
Proof.
  functional induction (GCD_ a b) as [a b Hb | a b Hb IH].
  - apply Z.eqb_eq in Hb. subst b. now rewrite Z.gcd_0_r.
  - rewrite IH.
    replace (a - b * Z.quot a b) with (a + (- Z.quot a b) * b) by lia.
    rewrite Z.gcd_add_mult_diag_r. apply Z.gcd_comm.
Qed.

(** X13: on nonnegative arguments [GCD_] returns the greatest common
    divisor, and so does the checked [GCD] in either build; in a debug
    build, where negative arguments are refused, whatever the checked [GCD]
    returns is the greatest common divisor. *)
Theorem GCD__is_gcd a b :
  (0 <= a -> 0 <= b ->
   GCD_ a b = Z.gcd a b
   /\ forall debug, Indexing.GCD debug a b = Returns (Z.gcd a b))
  /\ (forall g, Indexing.GCD true a b = Returns g -> g = Z.gcd a b).
Proof.
  assert (G : forall a b, 0 <= a -> 0 <= b -> 0 <= GCD_ a b).
  { clear. intros a b.
    functional induction (GCD_ a b) as [a b Hb | a b Hb IH].
    - trivial.
    - intros Ha Hb'. apply Z.eqb_neq in Hb. apply IH; [assumption |].
      pose proof (Z.quot_rem' a b) as E.
      pose proof (Z.rem_bound_pos a b Ha ltac:(lia)). lia. }
  assert (P : 0 <= a -> 0 <= b -> GCD_ a b = Z.gcd a b).
  { intros Ha Hb. rewrite <- GCD__abs. symmetry. apply Z.abs_eq.
    now apply G. }
  split.
  - intros Ha Hb. split; [now apply P |].
    intros debug. unfold Indexing.GCD.
    destruct (Z.ltb_spec a 0), (Z.ltb_spec b 0); try lia.
    rewrite Bool.andb_false_r. f_equal. now apply P.
  - intros g. unfold Indexing.GCD. simpl.
    destruct (Z.ltb_spec a 0), (Z.ltb_spec b 0); simpl; try discriminate.
    intros E. injection E as <-. now apply P.
Qed.

Lemma GCD__is_gcd_witness :
  GCD_ 12 18 = Z.gcd 12 18
  /\ forall debug, Indexing.GCD debug 12 18 = Returns (Z.gcd 12 18).
Proof. apply (proj1 (GCD__is_gcd 12 18)); lia. Defined.

End IndexingFacts2.


Section BlockedFacts.

Local Open Scope Z_scope.

Lemma Length__zero shift stride : 0 <= shift -> Length_ 0 shift stride = 0.
Proof. intros H. unfold Length_. destruct (Z.gtb_spec 0 shift); lia. Qed.

Lemma cycled_owner q shift stride :
  0 <= shift < stride ->
  let s1 := (shift - 1) mod stride in
  ((s1 - q) mod stride = 0 <-> (q + 1) mod stride = shift)
  /\ (q mod stride = s1 <-> (q + 1) mod stride = shift).
Proof.
  intros Hs s1. subst s1.
  assert (Hr : 0 < stride) by lia.
  assert (E1 : (q + 1) mod stride = shift
               <-> (q + 1 - shift) mod stride = 0).
  { rewrite <- Z.cong_iff_0. now rewrite (Z.mod_small shift) by lia. }
  assert (E2 : q mod stride = (shift - 1) mod stride
               <-> (q + 1 - shift) mod stride = 0).
  { rewrite Z.cong_iff_0. now replace (q - (shift - 1)) with (q + 1 - shift)
      by lia. }
  split; [| tauto].
  assert (E3 : ((shift - 1) mod stride - q) mod stride = 0
               <-> q mod stride = (shift - 1) mod stride).
  { rewrite <- Z.cong_iff_0. rewrite Z.mod_mod by lia.
    split; intros H; now symmetry. }
  tauto.
Qed.

(** Appending the index [n] adds one entry to the process that owns the
    block of [n]. *)
Lemma BlockedLength__succ n shift bsize cut stride :
  0 <= n -> 0 <= shift < stride -> 0 < bsize -> 0 <= cut < bsize ->
  BlockedLength_ (n + 1) shift bsize cut stride =
  BlockedLength_ n shift bsize cut stride
  + (if ((n + cut) / bsize) mod stride =? shift then 1 else 0).
Proof.
  intros Hn Hs Hb Hc.
  assert (Hr : 0 < stride) by lia.
  unfold BlockedLength_. rewrite !Mod__floor by assumption.
  set (s1 := (shift - 1) mod stride).
  assert (Hs1 : 0 <= s1 < stride) by (apply Z.mod_pos_bound; lia).
  destruct (Z_lt_le_dec n (bsize - cut)) as [Hlt | Hge].
  - (* the index lies in the first block *)
    rewrite !Z.min_l by lia.
    replace (n + 1 - (n + 1)) with 0 by lia.
    replace (n - n) with 0 by lia.
    rewrite Z.quot_0_l by lia. rewrite !Length__zero by lia.
    rewrite (Z.div_small (n + cut)) by lia. rewrite Z.mod_0_l by lia.
    destruct (Z.eqb_spec shift 0), (Z.eqb_spec 0 shift),
      (Z.eqb_spec ((s1 - 0) mod stride) 0); lia.
  - rewrite !Z.min_r by lia.
    set (n' := n - (bsize - cut)).
    replace (n + 1 - (bsize - cut)) with (n' + 1) by (unfold n'; lia).
    assert (Hn' : 0 <= n') by (unfold n'; lia).
    rewrite !Z.quot_div_nonneg by lia.
    replace (n + cut) with (n' + 1 * bsize) by (unfold n'; lia).
    rewrite Z.div_add by lia.
    pose proof (Z.div_mod n' bsize ltac:(lia)) as Hd.
    pose proof (Z.mod_pos_bound n' bsize Hb) as Hm.
    set (q := n' / bsize) in *.
    assert (Hq : 0 <= q) by (apply Z.div_pos; lia).
    destruct (cycled_owner q shift stride Hs) as [Ea Eb].
    fold s1 in Ea, Eb.
    destruct (Z_lt_le_dec (n' mod bsize + 1) bsize) as [Hin | Hend].
    + (* the last block grows *)
      assert (Eq : (n' + 1) / bsize = q).
      { symmetry. apply (Z.div_unique_pos _ _ _ (n' mod bsize + 1)); lia. }
      rewrite Eq.
      destruct (Z.eqb_spec shift 0),
        (Z.eqb_spec ((s1 - q) mod stride) 0),
        (Z.eqb_spec ((q + 1) mod stride) shift); try lia; tauto.
    + (* the last block is completed *)
      assert (Eq : (n' + 1) / bsize = q + 1).
      { symmetry. apply (Z.div_unique_pos _ _ _ 0); lia. }
      rewrite Eq. rewrite Length__succ by lia.
      assert (Ec : (s1 - (q + 1)) mod stride = 0 -> True) by trivial.
      destruct (Z.eqb_spec shift 0),
        (Z.eqb_spec ((s1 - q) mod stride) 0),
        (Z.eqb_spec ((s1 - (q + 1)) mod stride) 0),
        (Z.eqb_spec (q mod stride) s1),
        (Z.eqb_spec ((q + 1) mod stride) shift); try tauto; nia.
Qed.

Lemma BlockedLength__zero shift bsize cut stride :
  0 <= shift < stride -> 0 < bsize -> 0 <= cut < bsize ->
  BlockedLength_ 0 shift bsize cut stride = 0.
Proof.
  intros Hs Hb Hc. unfold BlockedLength_.
  rewrite !Mod__floor by lia.
  rewrite Z.min_l by lia.
  replace (0 - 0) with 0 by lia.
  rewrite Z.quot_0_l by lia.
  rewrite Length__zero by (apply Z.mod_pos_bound; lia).
  destruct (Z.eqb_spec shift 0),
    (Z.eqb_spec (((shift - 1) mod stride - 0) mod stride) 0); lia.
Qed.

(** X7: in a blocked distribution with block size [bsize] and first
    block cut by [cut], the local lengths of the processes of one grid
    dimension add up to the global length. *)
Theorem BlockedLength__partition n bsize cut (stride : nat) :
  0 <= n -> 0 < bsize -> 0 <= cut < bsize -> (0 < stride)%nat ->
  SumOverShifts
    (fun shift => BlockedLength_ n shift bsize cut (Z.of_nat stride))
    stride = n.
Proof.
  intros Hn Hb Hc Hr. revert n Hn.
  apply natlike_ind.
  - rewrite (SumOverShifts_ext _ (fun _ => 0)).
    + apply SumOverShifts_zero.
    + intros s Hs. now apply BlockedLength__zero.
  - intros n Hn IH. unfold Z.succ.
    rewrite (SumOverShifts_ext _
               (fun s => BlockedLength_ n s bsize cut (Z.of_nat stride)
                         + (if ((n + cut) / bsize) mod Z.of_nat stride =? s
                            then 1 else 0))).
    + rewrite SumOverShifts_add, IH, SumOverShifts_one; [lia |].
      apply Z.mod_pos_bound. lia.
    + intros s Hs. apply BlockedLength__succ; lia.
Qed.

Lemma BlockedLength__partition_witness :
  SumOverShifts (fun shift => BlockedLength_ 10 shift 3 1 (Z.of_nat 2)) 2
  = 10.
Proof. apply (BlockedLength__partition 10 3 1 2); lia. Defined.

(** With block size 1 and no cut the blocked local length is the
    element-wise one. *)
Lemma BlockedLength__elementwise n shift stride :
  0 <= n -> 0 <= shift < stride ->
  BlockedLength_ n shift 1 0 stride = Length_ n shift stride.
Proof.
  intros Hn Hs. revert n Hn. apply natlike_ind.
  - rewrite BlockedLength__zero by lia. now rewrite Length__zero by lia.
  - intros n Hn IH. unfold Z.succ.
    rewrite BlockedLength__succ, Length__succ by lia.
    rewrite IH. now rewrite Z.add_0_r, Z.div_1_r.
Qed.

End BlockedFacts.


Section GlobalBlockedFacts.

Local Open Scope Z_scope.

Variables shift bsize cut numProcs : Int.
Hypothesis Hshift : 0 <= shift < numProcs.
Hypothesis Hbsize : 0 < bsize.
Hypothesis Hcut : 0 <= cut < bsize.

(** The global index in terms of the adjusted local index. *)
Lemma GlobalBlockedIndex_eq iLoc :
  0 <= iLoc ->
  let a := if shift =? 0 then iLoc + cut else iLoc in
  0 <= a
  /\ GlobalBlockedIndex iLoc shift bsize cut numProcs + cut
     = bsize * (shift + (a / bsize) * numProcs) + a mod bsize.
Proof.
  intros Hi a.
  assert (Ha : 0 <= a) by (unfold a; destruct (shift =? 0); lia).
  split; [assumption |].
  unfold GlobalBlockedIndex. fold a.
  rewrite Z.quot_div_nonneg by lia.
  pose proof (Z.div_mod a bsize ltac:(lia)). lia.
Qed.

Lemma GlobalBlockedIndex_owner_aux iLoc :
  0 <= iLoc ->
  0 <= GlobalBlockedIndex iLoc shift bsize cut numProcs
  /\ ((GlobalBlockedIndex iLoc shift bsize cut numProcs + cut) / bsize)
       mod numProcs = shift.
Proof.
  intros Hi.
  destruct (GlobalBlockedIndex_eq iLoc Hi) as [Ha E].
  set (a := if shift =? 0 then iLoc + cut else iLoc) in *.
  pose proof (Z.mod_pos_bound a bsize Hbsize) as Hm.
  pose proof (Z.div_mod a bsize ltac:(lia)) as Hd.
  assert (Hq : 0 <= a / bsize) by (apply Z.div_pos; lia).
  split.
  - unfold a in *. destruct (Z.eqb_spec shift 0); nia.
  - rewrite E.
    rewrite <- (Z.div_unique_pos _ bsize (shift + a / bsize * numProcs)
                  (a mod bsize)) by lia.
    rewrite Z.mod_add by lia. apply Z.mod_small. lia.
Qed.

Lemma GlobalBlockedIndex_lt iLoc iLoc' :
  0 <= iLoc -> iLoc < iLoc' ->
  GlobalBlockedIndex iLoc shift bsize cut numProcs
  < GlobalBlockedIndex iLoc' shift bsize cut numProcs.
Proof.
  intros Hi Hlt.
  destruct (GlobalBlockedIndex_eq iLoc Hi) as [Ha E].
  destruct (GlobalBlockedIndex_eq iLoc' ltac:(lia)) as [Ha' E'].
  set (a := if shift =? 0 then iLoc + cut else iLoc) in *.
  set (a' := if shift =? 0 then iLoc' + cut else iLoc') in *.
  assert (Hlt' : a < a') by (unfold a, a'; destruct (shift =? 0); lia).
  pose proof (Z.div_mod a bsize ltac:(lia)) as Hd.
  pose proof (Z.div_mod a' bsize ltac:(lia)) as Hd'.
  pose proof (Z.div_le_mono a a' bsize Hbsize ltac:(lia)) as Hq.
  set (q := a / bsize) in *. set (q' := a' / bsize) in *.
  set (r := a mod bsize) in *. set (r' := a' mod bsize) in *.
  assert (Hp : 0 <= (q' - q) * (bsize * (numProcs - 1))).
  { apply Z.mul_nonneg_nonneg; [lia |].
    apply Z.mul_nonneg_nonneg; lia. }
  assert (Ediff :
            bsize * (shift + q' * numProcs) + r'
            - (bsize * (shift + q * numProcs) + r)
            = (a' - a) + (q' - q) * (bsize * (numProcs - 1))) by lia.
  lia.
Qed.

Lemma GlobalBlockedIndex_le iLoc iLoc' :
  0 <= iLoc -> iLoc <= iLoc' ->
  GlobalBlockedIndex iLoc shift bsize cut numProcs
  <= GlobalBlockedIndex iLoc' shift bsize cut numProcs.
Proof.
  intros Hi Hle. destruct (Z.eq_dec iLoc iLoc') as [-> | Hne]; [lia |].
  pose proof (GlobalBlockedIndex_lt iLoc iLoc' Hi ltac:(lia)). lia.
Qed.

Lemma GlobalBlockedIndex_onto i :
  0 <= i -> ((i + cut) / bsize) mod numProcs = shift ->
  exists iLoc,
    0 <= iLoc /\ GlobalBlockedIndex iLoc shift bsize cut numProcs = i.
Proof.
  intros Hi Ho.
  pose proof (Z.div_mod (i + cut) bsize ltac:(lia)) as Hd.
  pose proof (Z.mod_pos_bound (i + cut) bsize Hbsize) as Hm.
  set (bi := (i + cut) / bsize) in *.
  set (r := (i + cut) mod bsize) in *.
  assert (Hbi : 0 <= bi) by (apply Z.div_pos; lia).
  pose proof (Z.div_mod bi numProcs ltac:(lia)) as Hd2.
  rewrite Ho in Hd2.
  set (Q := bi / numProcs) in *.
  assert (HQ : 0 <= Q) by (apply Z.div_pos; lia).
  set (a := Q * bsize + r).
  assert (Eq : a / bsize = Q)
    by (symmetry; apply (Z.div_unique_pos _ _ _ r); unfold a; lia).
  assert (Er : a mod bsize = r)
    by (symmetry; apply (Z.mod_unique_pos _ _ Q); unfold a; lia).
  exists (if shift =? 0 then a - cut else a).
  assert (Hi0 : 0 <= (if shift =? 0 then a - cut else a)).
  { destruct (Z.eqb_spec shift 0) as [E0 | E0]; [| unfold a; nia].
    destruct (Z.eq_dec Q 0) as [EQ | EQ]; unfold a; nia. }
  split; [assumption |].
  destruct (GlobalBlockedIndex_eq _ Hi0) as [_ E].
  assert (Ea : (if shift =? 0
                then (if shift =? 0 then a - cut else a) + cut
                else (if shift =? 0 then a - cut else a)) = a)
    by (destruct (shift =? 0); lia).
  rewrite Ea, Eq, Er in E. nia.
Qed.

End GlobalBlockedFacts.

Section BlockedRoundTrip.

Local Open Scope Z_scope.

Lemma BlockedLength__nonneg n shift bsize cut stride :
  0 <= n -> 0 <= shift < stride -> 0 < bsize -> 0 <= cut < bsize ->
  0 <= BlockedLength_ n shift bsize cut stride.
Proof.
  intros Hn Hs Hb Hc. revert n Hn. apply natlike_ind.
  - rewrite BlockedLength__zero by lia. lia.
  - intros n Hn IH. unfold Z.succ. rewrite BlockedLength__succ by lia.
    destruct (_ =? _); lia.
Qed.

Lemma BlockedLength__spec n shift bsize cut stride :
  0 <= n -> 0 <= shift < stride -> 0 < bsize -> 0 <= cut < bsize ->
  forall iLoc, 0 <= iLoc ->
    (iLoc < BlockedLength_ n shift bsize cut stride
     <-> GlobalBlockedIndex iLoc shift bsize cut stride < n).
Proof.
  intros Hn Hs Hb Hc. pattern n. apply natlike_ind; [| | exact Hn]; clear n Hn.
  - intros iLoc Hi. rewrite BlockedLength__zero by lia.
    pose proof (GlobalBlockedIndex_owner_aux shift bsize cut stride Hs Hb Hc
                  iLoc Hi). lia.
  - intros n Hn IH iLoc Hi. unfold Z.succ.
    rewrite BlockedLength__succ by lia.
    pose proof (BlockedLength__nonneg n shift bsize cut stride Hn Hs Hb Hc)
      as Hnn.
    destruct (Z.eqb_spec (((n + cut) / bsize) mod stride) shift) as [E | E].
    + destruct (GlobalBlockedIndex_onto shift bsize cut stride Hs Hb Hc n
                  Hn E) as (j & Hj & Ej).
      assert (Ejl : j = BlockedLength_ n shift bsize cut stride).
      { assert (A1 : ~ j < BlockedLength_ n shift bsize cut stride)
          by (rewrite IH by lia; lia).
        destruct (Z_lt_le_dec (BlockedLength_ n shift bsize cut stride) j)
          as [C | C]; [| lia].
        exfalso.
        pose proof (GlobalBlockedIndex_lt shift bsize cut stride Hs Hb Hc
                      _ j Hnn C) as Hlt.
        rewrite Ej in Hlt. apply IH in Hlt; lia. }
      rewrite <- Ejl. split; intros H.
      * pose proof (GlobalBlockedIndex_le shift bsize cut stride Hs Hb Hc
                      iLoc j Hi ltac:(lia)). lia.
      * destruct (Z_lt_le_dec j iLoc) as [C | C]; [| lia].
        pose proof (GlobalBlockedIndex_lt shift bsize cut stride Hs Hb Hc
                      j iLoc Hj C). lia.
    + rewrite Z.add_0_r, IH by lia.
      destruct (GlobalBlockedIndex_owner_aux shift bsize cut stride Hs Hb Hc
                  iLoc Hi) as [_ Ho].
      assert (GlobalBlockedIndex iLoc shift bsize cut stride <> n)
        by (intros C; rewrite C in Ho; contradiction).
      lia.
Qed.

(** X9: where [GlobalBlockedIndex] computes within the range of [Int],
    the global index of a local entry in a blocked distribution is not
    negative, lies in a block owned by the process (the block number
    [(i + cut) / bsize] is congruent to the shift modulo the number of
    processes), and grows strictly with the local index. *)
Theorem GlobalBlockedIndex_owner iLoc shift bsize cut numProcs :
  0 <= iLoc -> 0 <= shift < numProcs -> 0 < bsize -> 0 <= cut < bsize ->
  GlobalBlockedIndexInRange iLoc shift bsize cut numProcs ->
  0 <= GlobalBlockedIndex iLoc shift bsize cut numProcs
  /\ ((GlobalBlockedIndex iLoc shift bsize cut numProcs + cut) / bsize)
       mod numProcs = shift
  /\ (forall iLoc', iLoc < iLoc' ->
        GlobalBlockedIndexInRange iLoc' shift bsize cut numProcs ->
        GlobalBlockedIndex iLoc shift bsize cut numProcs
        < GlobalBlockedIndex iLoc' shift bsize cut numProcs).
Proof.
  intros Hi Hs Hb Hc _.
  destruct (GlobalBlockedIndex_owner_aux shift bsize cut numProcs Hs Hb Hc
              iLoc Hi) as [H0 Ho].
  repeat split; try assumption; try lia.
  intros iLoc' Hlt _. now apply GlobalBlockedIndex_lt.
Qed.

Lemma GlobalBlockedIndex_owner_witness :
  GlobalBlockedIndexInRange 2 0 3 1 2
  /\ 0 <= GlobalBlockedIndex 2 0 3 1 2
  /\ ((GlobalBlockedIndex 2 0 3 1 2 + 1) / 3) mod 2 = 0
  /\ (forall iLoc', 2 < iLoc' ->
        GlobalBlockedIndexInRange iLoc' 0 3 1 2 ->
        GlobalBlockedIndex 2 0 3 1 2 < GlobalBlockedIndex iLoc' 0 3 1 2).
Proof.
  assert (H : GlobalBlockedIndexInRange 2 0 3 1 2)
    by (unfold GlobalBlockedIndexInRange, InIntRange; vm_compute;
        intuition discriminate).
  split; [exact H |].
  apply (GlobalBlockedIndex_owner 2 0 3 1 2); [lia | lia | lia | lia |].
  exact H.
Defined.

(** X8: [BlockedLength_] is the number of local entries of a blocked
    distribution: for representable arguments it is not negative, and a
    local index on which [GlobalBlockedIndex] computes within the range of
    [Int] is below it exactly when the global index assigned to it is
    below [n]. *)
Theorem BlockedLength__counts_local_indices n shift bsize cut stride :
  0 <= n <= IntMax -> 0 <= shift < stride -> stride <= IntMax ->
  0 < bsize <= IntMax -> 0 <= cut < bsize ->
  0 <= BlockedLength_ n shift bsize cut stride
  /\ forall iLoc, 0 <= iLoc ->
       GlobalBlockedIndexInRange iLoc shift bsize cut stride ->
       (iLoc < BlockedLength_ n shift bsize cut stride
        <-> GlobalBlockedIndex iLoc shift bsize cut stride < n).
Proof.
  intros [Hn _] Hs _ [Hb _] Hc.
  split; [now apply BlockedLength__nonneg |].
  intros iLoc Hi _. now apply BlockedLength__spec.
Qed.

Lemma BlockedLength__counts_local_indices_witness :
  0 <= BlockedLength_ 10 1 3 1 2
  /\ forall iLoc, 0 <= iLoc ->
       GlobalBlockedIndexInRange iLoc 1 3 1 2 ->
       (iLoc < BlockedLength_ 10 1 3 1 2
        <-> GlobalBlockedIndex iLoc 1 3 1 2 < 10).
Proof.
  apply (BlockedLength__counts_local_indices 10 1 3 1 2);
    unfold IntMax; lia.
Defined.

Lemma GlobalBlockedIndex_shift0 iLoc shift bsize numProcs :
  0 <= shift -> 0 < bsize ->
  GlobalBlockedIndex iLoc 0 bsize 0 numProcs
  <= GlobalBlockedIndex iLoc shift bsize 0 numProcs.
Proof.
  intros Hs Hb. unfold GlobalBlockedIndex.
  rewrite Z.eqb_refl. rewrite Z.add_0_r.
  destruct (shift =? 0); rewrite ?Z.add_0_r; nia.
Qed.

(** X10: without a cut [MaxBlockedLength_], the local length of the
    process with shift 0, bounds the local length of every process; with a
    cut it does not: for 5 entries in blocks of 3 cut by 2 on 2 processes
    the process with shift 0 holds 2 entries and the other one 3. *)
Theorem MaxBlockedLength__bound :
  (forall n shift bsize stride,
      0 <= n -> 0 <= shift < stride -> 0 < bsize ->
      BlockedLength_ n shift bsize 0 stride
      <= MaxBlockedLength_ n bsize 0 stride)
  /\ MaxBlockedLength_ 5 3 2 2 < BlockedLength_ 5 1 3 2 2.
Proof.
  split; [| reflexivity].
  intros n shift bsize stride Hn Hs Hb. unfold MaxBlockedLength_.
  destruct (Z_lt_le_dec (BlockedLength_ n 0 bsize 0 stride)
              (BlockedLength_ n shift bsize 0 stride)) as [C | C]; [| lia].
  exfalso.
  pose proof (BlockedLength__nonneg n 0 bsize 0 stride Hn ltac:(lia) Hb
                ltac:(lia)) as H0.
  apply (BlockedLength__spec n shift bsize 0 stride Hn Hs Hb ltac:(lia))
    in C; [| assumption].
  pose proof (GlobalBlockedIndex_shift0 (BlockedLength_ n 0 bsize 0 stride)
                shift bsize stride ltac:(lia) Hb) as Hle.
  assert (C0 : BlockedLength_ n 0 bsize 0 stride
               < BlockedLength_ n 0 bsize 0 stride).
  { apply (BlockedLength__spec n 0 bsize 0 stride Hn ltac:(lia) Hb
             ltac:(lia)); [assumption | lia]. }
  lia.
Qed.

Lemma MaxBlockedLength__bound_witness :
  BlockedLength_ 10 1 3 0 2 <= MaxBlockedLength_ 10 3 0 2
  /\ MaxBlockedLength_ 5 3 2 2 < BlockedLength_ 5 1 3 2 2.
Proof.
  destruct MaxBlockedLength__bound as [H1 H2].
  split; [apply H1; lia | exact H2].
Defined.

End BlockedRoundTrip.


Section UnsignedFacts.

Local Open Scope N_scope.

Lemma land_even_odd a b : N.land (2 * a) (2 * b + 1) = 2 * N.land a b.
Proof.
  apply N.bits_inj. intros i.
  rewrite N.land_spec.
  destruct (N.eq_dec i 0) as [-> | Hi].
  - rewrite !N.testbit_even_0, N.testbit_odd_0. reflexivity.
  - replace i with (N.succ (N.pred i)) by (apply N.succ_pred; assumption).
    rewrite !N.testbit_even_succ, N.testbit_odd_succ by apply N.le_0_l.
    now rewrite N.land_spec.
Qed.

Lemma land_odd_even a : N.land (2 * a + 1) (2 * a) = 2 * a.
Proof.
  apply N.bits_inj. intros i.
  rewrite N.land_spec.
  destruct (N.eq_dec i 0) as [-> | Hi].
  - rewrite !N.testbit_even_0, N.testbit_odd_0. reflexivity.
  - replace i with (N.succ (N.pred i)) by (apply N.succ_pred; assumption).
    rewrite !N.testbit_even_succ, N.testbit_odd_succ by apply N.le_0_l.
    apply andb_diag.
Qed.

Lemma pow2_odd k a : 2 ^ k = 2 * a + 1 -> k = 0 /\ a = 0.
Proof.
  intros H. destruct (N.eq_dec k 0) as [-> | Hk].
  - rewrite N.pow_0_r in H. lia.
  - exfalso. replace k with (N.succ (N.pred k)) in H
      by (apply N.succ_pred; assumption).
    rewrite N.pow_succ_r in H by apply N.le_0_l. lia.
Qed.

Lemma land_pred_zero (p : positive) :
  N.land (N.pos p) (N.pos p - 1) = 0 <-> exists k, N.pos p = 2 ^ k.
Proof.
  induction p as [q IH | q IH |].
  - replace (N.pos q~1) with (2 * N.pos q + 1) by reflexivity.
    replace (2 * N.pos q + 1 - 1) with (2 * N.pos q) by lia.
    rewrite land_odd_even. split; [lia |].
    intros (k & Hk). symmetry in Hk. apply pow2_odd in Hk. lia.
  - replace (N.pos q~0) with (2 * N.pos q) by reflexivity.
    replace (2 * N.pos q - 1) with (2 * (N.pos q - 1) + 1) by lia.
    rewrite land_even_odd. split.
    + intros H. assert (H' : N.land (N.pos q) (N.pos q - 1) = 0) by lia.
      apply IH in H'. destruct H' as (k & Hk).
      exists (N.succ k). rewrite N.pow_succ_r by apply N.le_0_l. lia.
    + intros (k & Hk).
      destruct (N.eq_dec k 0) as [-> | Hk0]; [rewrite N.pow_0_r in Hk; lia |].
      replace k with (N.succ (N.pred k)) in Hk
        by (apply N.succ_pred; assumption).
      rewrite N.pow_succ_r in Hk by apply N.le_0_l.
      assert (E : N.pos q = 2 ^ N.pred k) by lia.
      assert (H' : N.land (N.pos q) (N.pos q - 1) = 0)
        by (apply IH; now exists (N.pred k)).
      lia.
  - split; [intros _; now exists 0 | reflexivity].
Qed.

(** X14: [PowerOfTwo] holds exactly of the powers of two; in particular
    it rejects 0. *)
Theorem PowerOfTwo_spec (n : Unsigned) :
  PowerOfTwo n = true <-> exists k, n = 2 ^ k.
Proof.
  unfold PowerOfTwo. destruct n as [| p]; simpl N.eqb; cbv iota.
  - split; [discriminate |].
    intros (k & Hk). symmetry in Hk.
    apply N.pow_eq_0_iff in Hk. lia.
  - rewrite N.eqb_eq. apply land_pred_zero.
Qed.

Lemma FlooredLog2_loop_spec n result :
  FlooredLog2_loop n result = result + N.log2 n.
Proof.
  functional induction (FlooredLog2_loop n result) as [n r Hn | n r Hn IH].
  - apply N.eqb_eq in Hn. rewrite N.shiftr_div_pow2 in Hn.
    change (2 ^ 1) with 2 in Hn.
    assert (Hlt : n < 2).
    { pose proof (N.div_mod n 2 ltac:(lia)) as Hd.
      pose proof (N.mod_lt n 2 ltac:(lia)). lia. }
    assert (E : N.log2 n = 0).
    { destruct (N.eq_dec n 0) as [-> | H0]; [reflexivity |].
      replace n with 1 by lia. reflexivity. }
    lia.
  - rewrite IH. apply N.eqb_neq in Hn.
    rewrite N.log2_shiftr.
    assert (H1 : 1 <= N.log2 n).
    { destruct (N.eq_dec (N.log2 n) 0) as [E | E]; [| lia].
      exfalso. apply Hn. rewrite <- (N.sub_0_r (N.log2 (N.shiftr n 1))) in *.
      apply N.log2_null in E.
      rewrite N.shiftr_div_pow2. change (2 ^ 1) with 2.
      apply N.div_small. lia. }
    lia.
Qed.

(** X15: the shift loop of [FlooredLog2] computes the floored binary
    logarithm: for positive [n], [2^result <= n < 2^(result+1)]; on 0 it
    returns 0. *)
Theorem FlooredLog2_spec (n : Unsigned) :
  FlooredLog2 n = N.log2 n
  /\ (0 < n -> 2 ^ FlooredLog2 n <= n < 2 ^ (FlooredLog2 n + 1)).
Proof.
  unfold FlooredLog2. rewrite FlooredLog2_loop_spec, N.add_0_l.
  split; [reflexivity |].
  intros Hn. rewrite N.add_1_r. now apply N.log2_spec.
Qed.

Lemma FlooredLog2_spec_witness :
  FlooredLog2 1000 = N.log2 1000
  /\ 2 ^ FlooredLog2 1000 <= 1000 < 2 ^ (FlooredLog2 1000 + 1).
Proof.
  destruct (FlooredLog2_spec 1000) as [H1 H2].
  split; [exact H1 | apply H2; lia].
Defined.

End UnsignedFacts.


Section CheckedFacts.

Local Open Scope Z_scope.

(** X16: in the checked [Length], [BlockedLength] and [Shift] the test
    of the stride comes after a test that already fails for every stride
    that is not positive, so the errors "Modulus must be positive" and
    "Stride must be positive" are never raised by them, in no build. *)
Theorem Indexing_stride_check_unreachable debug n shift rank align bsize cut
    stride :
  Indexing.Length debug n shift stride
    <> Throws (LogicError [AStr "Modulus must be positive"])
  /\ Indexing.BlockedLength debug n shift bsize cut stride
       <> Throws (LogicError [AStr "Modulus must be positive"])
  /\ Indexing.Shift debug rank align stride
       <> Throws (LogicError [AStr "Stride must be positive"]).
Proof.
  unfold Indexing.Length, Indexing.BlockedLength, Indexing.Shift.
  destruct debug; simpl; [| repeat split; discriminate].
  repeat split.
  - destruct (Z.ltb_spec n 0), (Z.ltb_spec shift 0),
      (Z.geb_spec shift stride), (Z.leb_spec stride 0); simpl;
      try discriminate; lia.
  - destruct (Z.ltb_spec n 0), (Z.ltb_spec shift 0),
      (Z.geb_spec shift stride), (Z.leb_spec stride 0); simpl;
      try discriminate; lia.
  - destruct (Z.ltb_spec rank 0), (Z.geb_spec rank stride),
      (Z.ltb_spec align 0), (Z.geb_spec align stride),
      (Z.leb_spec stride 0); simpl; try discriminate; lia.
Qed.

(** X17: with a nonnegative length and a valid rank and alignment the
    overload of [Length] that takes a rank returns, in both builds, the
    unchecked local length: the shift it computes always passes the checks
    of the three-argument [Length]; the result is between 0 and [n]. *)
Theorem Indexing_RankLength_returns debug n rank align stride :
  0 <= n -> 0 <= rank < stride -> 0 <= align < stride ->
  Indexing.RankLength debug n rank align stride
  = Returns (RankLength_ n rank align stride)
  /\ 0 <= RankLength_ n rank align stride <= n.
Proof.
  intros Hn Hr Ha.
  pose proof (Shift__range rank align stride ltac:(lia)) as Hs.
  unfold Indexing.RankLength, Indexing.Shift, Indexing.Length, RankLength_.
  set (shift := Shift_ rank align stride) in *.
  assert (Hlen : 0 <= Length_ n shift stride <= n).
  { split; [apply Length__nonneg; lia |].
    destruct (Z_lt_le_dec n (Length_ n shift stride)) as [C | C]; [| lia].
    exfalso. apply (Length_spec n shift stride n) in C; try lia. nia. }
  split; [| exact Hlen].
  destruct debug; simpl; [| reflexivity].
  destruct (Z.ltb_spec rank 0), (Z.geb_spec rank stride),
    (Z.ltb_spec align 0), (Z.geb_spec align stride),
    (Z.leb_spec stride 0); simpl; try lia.
  destruct (Z.ltb_spec n 0), (Z.ltb_spec shift 0),
    (Z.geb_spec shift stride); simpl; try lia.
  reflexivity.
Qed.

Lemma Indexing_RankLength_returns_witness :
  Indexing.RankLength true 10 1 3 4 = Returns (RankLength_ 10 1 3 4)
  /\ 0 <= RankLength_ 10 1 3 4 <= 10.
Proof. apply (Indexing_RankLength_returns true 10 1 3 4); lia. Defined.

End CheckedFacts.
(** ** Further facts about the dense drivers *)

Section DriverFacts.

Variable B : Backend.
Variable A : Matrix.
Variables b c : vec.
Variable ctrl : MehrotraCtrl.

Lemma Converged_ext s s' :
  v_x s' = v_x s -> v_y s' = v_y s -> v_z s' = v_z s ->
  (Converged A b c ctrl s' <-> Converged A b c ctrl s).
Proof. intros Ex Ey Ez. unfold Converged. now rewrite Ex, Ey, Ez. Qed.

Lemma InCone_ext s s' :
  v_x s' = v_x s -> v_z s' = v_z s -> (InCone s' <-> InCone s).
Proof. intros Ex Ez. unfold InCone. now rewrite Ex, Ez. Qed.

(** A run that has ended is not changed by a larger budget. *)
Lemma Loop_more_fuel fuel d k s :
  (forall s', Loop B A b c ctrl fuel k s <> Unfinished s') ->
  Loop B A b c ctrl (fuel + d) k s = Loop B A b c ctrl fuel k s.
Proof.
  revert k s. induction fuel as [| fuel IH]; intros k s H.
  - exfalso. now apply (H s).
  - replace (S fuel + d)%nat with (S (fuel + d)) by lia.
    destruct (InCone_dec s) as [Hc | Hc].
    2:{ now rewrite !Loop_cone_fail by assumption. }
    destruct (Converged_dec A b c ctrl s) as [Hv | Hv].
    { now rewrite !Loop_converged by assumption. }
    destruct (Z.eq_dec k (maxIts ctrl)) as [Hk | Hk].
    { now rewrite !Loop_cap by assumption. }
    rewrite Loop_continue in H by assumption.
    rewrite !Loop_continue by assumption.
    now apply IH.
Qed.

Lemma Step_height_y s :
  length (v_y (final_state (Step B A c ctrl s))) = length (v_y s).
Proof.
  destruct (SearchDirection_frame B A c ctrl s) as (s1 & E & _ & Ey & _).
  unfold Step. rewrite (bind_Ok _ _ _ _ _ E), TakeStep_run. simpl.
  rewrite Axpy_length. now rewrite Ey.
Qed.

Lemma Advance_height_y s :
  length (v_y (Advance B A b c ctrl s)) = length (v_y s).
Proof.
  rewrite Advance_eq.
  destruct (ConvergenceTest_frame A b c ctrl s) as (_ & Ey & _).
  rewrite Step_height_y. now rewrite Ey.
Qed.

Lemma Loop_heights fuel k s :
  let s' := final_state (Loop B A b c ctrl fuel k s) in
  length (v_x s') = length (v_x s)
  /\ length (v_y s') = length (v_y s)
  /\ length (v_z s') = length (v_z s).
Proof.
  revert k s. induction fuel as [| fuel IH]; intros k s; [simpl; auto |].
  destruct (ConvergenceTest_frame A b c ctrl s) as (Ex & Ey & Ez).
  destruct (InCone_dec s) as [Hc | Hc].
  2:{ rewrite Loop_cone_fail by assumption. simpl. auto. }
  destruct (Converged_dec A b c ctrl s) as [Hv | Hv].
  { rewrite Loop_converged by assumption.
    set (t := final_state (ConvergenceTest A b c ctrl s)) in *.
    simpl. auto. }
  destruct (Z.eq_dec k (maxIts ctrl)) as [Hk | Hk].
  { rewrite Loop_cap by assumption.
    set (t := final_state (ConvergenceTest A b c ctrl s)) in *.
    simpl. auto. }
  rewrite Loop_continue by assumption.
  destruct (IH (k + 1)%Z (Advance B A b c ctrl s)) as (Hx & Hy & Hz).
  destruct (Advance_heights B A b c ctrl s) as (Ax & Az).
  pose proof (Advance_height_y s) as Ay.
  cbv zeta. rewrite Hx, Hy, Hz. auto.
Qed.

End DriverFacts.

(** X18: with an iteration cap that is not negative the call ends,
    by returning or by raising, within [maxIts + 1] passes through the
    loop: a larger budget does not change the outcome. *)
Theorem Mehrotra_ends_within_cap B A b c ctrl x y z fuel :
  (0 <= maxIts ctrl)%Z -> (Z.to_nat (maxIts ctrl) < fuel)%nat ->
  Mehrotra B A b c ctrl fuel x y z
  = Mehrotra B A b c ctrl (Z.to_nat (maxIts ctrl) + 1) x y z
  /\ forall s, Mehrotra B A b c ctrl fuel x y z <> Unfinished s.
Proof.
  intros H0 Hf.
  assert (E : Mehrotra B A b c ctrl fuel x y z
              = Mehrotra B A b c ctrl (Z.to_nat (maxIts ctrl) + 1) x y z).
  { replace fuel
      with ((Z.to_nat (maxIts ctrl) + 1)
            + (fuel - (Z.to_nat (maxIts ctrl) + 1)))%nat by lia.
    rewrite !Mehrotra_Loop. apply Loop_more_fuel.
    intros s'. rewrite <- Mehrotra_Loop. now apply Mehrotra_terminates. }
  split; [exact E |].
  intros s. rewrite E. now apply Mehrotra_terminates.
Qed.

Lemma Mehrotra_ends_within_cap_witness :
  Mehrotra NullBackend SampleA [1] [1] SampleCtrl 200 [1] [1] [1]
  = Mehrotra NullBackend SampleA [1] [1] SampleCtrl
      (Z.to_nat (maxIts SampleCtrl) + 1) [1] [1] [1]
  /\ forall s,
       Mehrotra NullBackend SampleA [1] [1] SampleCtrl 200 [1] [1] [1]
       <> Unfinished s.
Proof.
  apply (Mehrotra_ends_within_cap NullBackend SampleA [1] [1] SampleCtrl
           [1] [1] [1] 200); simpl; lia.
Defined.

(** X19: the cap is tested by equality with the iteration counter, which
    starts at 0 and grows by one with every pass: with a negative
    [ctrl.maxIts] the call does not raise the [RuntimeError] of the cap in
    any of its first [IntMax] passes, through which the counter is
    representable. *)
Theorem Mehrotra_negative_cap B A b c ctrl x y z fuel what s :
  (maxIts ctrl < 0)%Z -> (Z.of_nat fuel <= IntMax)%Z ->
  Mehrotra B A b c ctrl fuel x y z <> Raise (RuntimeError what) s.
Proof.
  intros Hneg _ E.
  destruct (Mehrotra_stops B A b c ctrl x y z fuel _ E)
    as [(s' & H) | [(j & _ & _ & H) | [(j & _ & _ & _ & H)
       | (j & _ & _ & _ & Hk & _)]]]; try discriminate H.
  lia.
Qed.

Lemma Mehrotra_negative_cap_witness :
  (maxIts UncappedCtrl < 0)%Z
  /\ Mehrotra NullBackend SampleA [1] [1] UncappedCtrl 5 [1] [1] [1]
     <> Raise (RuntimeError []) (InitialState [1] [1] [1]).
Proof.
  split; [simpl; lia |].
  apply (Mehrotra_negative_cap NullBackend SampleA [1] [1] UncappedCtrl
           [1] [1] [1] 5 [] (InitialState [1] [1] [1])).
  - simpl. lia.
  - unfold IntMax. lia.
Defined.

(** X20: when the call returns, the x, y, z it leaves in the arguments
    are in the cone and satisfy the three convergence criteria. *)
Theorem Mehrotra_returns_converged B A b c ctrl x y z fuel s :
  Mehrotra B A b c ctrl fuel x y z = Ok tt s ->
  InCone s /\ Converged A b c ctrl s.
Proof.
  intros E.
  destruct (Mehrotra_stops B A b c ctrl x y z fuel _ E)
    as [(s' & H) | [(j & _ & _ & H) | [(j & _ & Hc & Hv & H)
       | (j & _ & _ & _ & _ & H)]]]; try discriminate H.
  assert (Es : s = final_state (ConvergenceTest A b c ctrl
                                  (TopState B A b c ctrl x y z j))).
  { apply (f_equal final_state) in H. exact H. }
  destruct (ConvergenceTest_frame A b c ctrl
              (TopState B A b c ctrl x y z j)) as (Ex & Ey & Ez).
  rewrite <- Es in Ex, Ey, Ez.
  split.
  - now apply (InCone_ext _ _ Ex Ez).
  - now apply (Converged_ext A b c ctrl _ _ Ex Ey Ez).
Qed.

(** The sample problem [A = (1)], [b = (1)], [c = (1)] at the iterate
    [x = (1)], [y = (-1)], [z = (1/100)]. *)
Lemma Sample_converged :
  InCone (InitialState [1] [-1] [1 / 100])
  /\ Converged SampleA [1] [1] SampleCtrl (InitialState [1] [-1] [1 / 100]).
Proof.
  split.
  - split; repeat constructor; lra.
  - unfold Converged, RelativeGap. cbn. unfold MGet, Get. simpl.
    rewrite (Nrm2_singleton 1 1) by lra.
    rewrite (Nrm2_singleton _ 0) by lra.
    rewrite (Nrm2_singleton_opp _ (1 / 100)) by lra.
    rewrite (Rabs_zero_expr (1 * 1 + 0 - - (1 * -1 + 0))) by lra.
    repeat split; lra.
Qed.

Lemma Sample_returns :
  Mehrotra NullBackend SampleA [1] [1] SampleCtrl 1 [1] [-1] [1 / 100]
  = Ok tt (final_state
             (ConvergenceTest SampleA [1] [1] SampleCtrl
                (InitialState [1] [-1] [1 / 100]))).
Proof.
  destruct Sample_converged as [Hc Hv].
  rewrite Mehrotra_Loop.
  change (EntryState NullBackend SampleA [1] [1] SampleCtrl [1] [-1]
            [1 / 100]) with (InitialState [1] [-1] [1 / 100]).
  now apply Loop_converged.
Qed.

Lemma Mehrotra_returns_converged_witness :
  let s := final_state
             (ConvergenceTest SampleA [1] [1] SampleCtrl
                (InitialState [1] [-1] [1 / 100])) in
  InCone s /\ Converged SampleA [1] [1] SampleCtrl s.
Proof.
  exact (Mehrotra_returns_converged NullBackend SampleA [1] [1] SampleCtrl
           [1] [-1] [1 / 100] 1 _ Sample_returns).
Defined.

Lemma EntryState_J B A b c ctrl x y z :
  let e := EntryState B A b c ctrl x y z in
  v_J e = EmptyMatrix /\ v_dx e = [] /\ v_dy e = [] /\ v_dz e = []
  /\ (initialized ctrl = true -> v_x e = x /\ v_y e = y /\ v_z e = z).
Proof.
  unfold EntryState, Initialization.
  destruct (initialized ctrl); simpl; repeat split; try reflexivity;
    discriminate.
Qed.

(** X21: when the iterate the loop is entered with is in the cone and
    already satisfies the convergence criteria, the call returns it
    unchanged after the first convergence test: nothing is factored and no
    search direction is formed. *)
Theorem Mehrotra_converged_start B A b c ctrl x y z fuel :
  let e := EntryState B A b c ctrl x y z in
  InCone e -> Converged A b c ctrl e ->
  exists s,
    Mehrotra B A b c ctrl (S fuel) x y z = Ok tt s
    /\ v_x s = v_x e /\ v_y s = v_y e /\ v_z s = v_z e
    /\ v_J s = EmptyMatrix /\ v_dx s = [] /\ v_dy s = [] /\ v_dz s = [].
Proof.
  intros e Hc Hv.
  destruct (EntryState_J B A b c ctrl x y z) as (EJ & Edx & Edy & Edz & _).
  fold e in EJ, Edx, Edy, Edz.
  rewrite Mehrotra_Loop. fold e.
  rewrite Loop_converged by assumption.
  destruct (ConvergenceTest_run A b c ctrl e) as (bo & E & _).
  rewrite E. eexists. split; [reflexivity |].
  cbn [final_state v_x v_y v_z v_J v_dx v_dy v_dz set_rc set_rb].
  auto 10.
Qed.

Lemma Mehrotra_converged_start_witness :
  exists s,
    Mehrotra NullBackend SampleA [1] [1] SampleCtrl 1 [1] [-1] [1 / 100]
    = Ok tt s
    /\ v_x s = [1] /\ v_y s = [-1] /\ v_z s = [1 / 100]
    /\ v_J s = EmptyMatrix /\ v_dx s = [] /\ v_dy s = [] /\ v_dz s = [].
Proof.
  exact (Mehrotra_converged_start NullBackend SampleA [1] [1] SampleCtrl
           [1] [-1] [1 / 100] 0 (proj1 Sample_converged)
           (proj2 Sample_converged)).
Defined.

(** X22: however the call ends, x, y and z have the heights they had
    when the loop was entered: the updates never resize them. *)
Theorem Mehrotra_keeps_heights B A b c ctrl x y z fuel :
  let e := EntryState B A b c ctrl x y z in
  let s := final_state (Mehrotra B A b c ctrl fuel x y z) in
  length (v_x s) = length (v_x e)
  /\ length (v_y s) = length (v_y e)
  /\ length (v_z s) = length (v_z e).
Proof.
  cbv zeta. rewrite Mehrotra_Loop. apply Loop_heights.
Qed.

(** X23: when the call raises the [LogicError] of the cone check, the x,
    z left in the arguments are the offending iterate and the message
    carries their numbers of nonpositive entries; when, under a cap
    [maxIts] that is not negative, it raises the [RuntimeError] of the cap,
    x, y, z are the iterate after exactly [maxIts] updates, which is in the
    cone and fails the convergence test. *)
Theorem Mehrotra_error_states B A b c ctrl x y z fuel what s :
  (Mehrotra B A b c ctrl fuel x y z = Raise (LogicError what) s ->
   ~ InCone s
   /\ what = [AInt (Z.of_nat (NumNonPositive (v_x s)));
              AStr " entries of x were nonpositive and ";
              AInt (Z.of_nat (NumNonPositive (v_z s)));
              AStr " entries of z were nonpositive"])
  /\ ((0 <= maxIts ctrl <= IntMax)%Z ->
      Mehrotra B A b c ctrl fuel x y z = Raise (RuntimeError what) s ->
      let t := TopState B A b c ctrl x y z (Z.to_nat (maxIts ctrl)) in
      InCone s /\ ~ Converged A b c ctrl s
      /\ v_x s = v_x t /\ v_y s = v_y t /\ v_z s = v_z t).
Proof.
  split; [intros E | intros Hcap E].
  - destruct (Mehrotra_stops B A b c ctrl x y z fuel _ E)
      as [(s' & H) | [(j & _ & Hc & H) | [(j & _ & _ & _ & H)
         | (j & _ & _ & _ & _ & H)]]]; try discriminate H.
    pose proof (f_equal final_state H) as Es.
    cbv beta iota delta [final_state] in Es. subst s.
    split; [assumption |].
    apply (f_equal raised) in H. cbv beta iota delta [raised] in H.
    now injection H.
  - destruct (Mehrotra_stops B A b c ctrl x y z fuel _ E)
      as [(s' & H) | [(j & _ & _ & H) | [(j & _ & _ & _ & H)
         | (j & _ & Hc & Hv & Hk & H)]]]; try discriminate H.
    assert (Es : s = final_state (ConvergenceTest A b c ctrl
                                    (TopState B A b c ctrl x y z j))).
    { apply (f_equal final_state) in H. exact H. }
    destruct (ConvergenceTest_frame A b c ctrl
                (TopState B A b c ctrl x y z j)) as (Ex & Ey & Ez).
    rewrite <- Es in Ex, Ey, Ez.
    replace (Z.to_nat (maxIts ctrl)) with j by lia.
    cbv zeta.
    split; [now apply (InCone_ext _ _ Ex Ez) |].
    split; [| auto].
    intros Hv'. apply Hv.
    now apply (Converged_ext A b c ctrl _ _ Ex Ey Ez).
Qed.

Lemma Sample_raises :
  Mehrotra NullBackend SampleA [1] [0] StrictCtrl 1 [0] [1] [1]
  = Raise (LogicError
             [AInt 1%Z; AStr " entries of x were nonpositive and ";
              AInt 0%Z; AStr " entries of z were nonpositive"])
          (InitialState [0] [1] [1]).
Proof.
  rewrite Mehrotra_Loop.
  change (EntryState NullBackend SampleA [1] [0] StrictCtrl [0] [1] [1])
    with (InitialState [0] [1] [1]).
  rewrite Loop_cone_fail.
  - f_equal. f_equal. simpl.
    destruct (Rle_dec 0 0) as [_ | H]; [| exfalso; lra].
    destruct (Rle_dec 1 0) as [H | _]; [exfalso; lra |].
    reflexivity.
  - intros [Hx _]. now apply Positive_singleton_zero in Hx.
Qed.

(** On the problem [A = (1)], [b = (1)], [c = (1)] with tolerance 0 and
    the cap 0, the iterate [x = y = z = (1)] is in the cone and has the
    relative gap 1: the first pass raises the [RuntimeError] of the cap. *)
Lemma Sample_hits_cap :
  Mehrotra NullBackend SampleA [1] [1] StrictCtrl 1 [1] [1] [1]
  = Raise (RuntimeError
             [AStr "Maximum number of iterations ("; AInt 0%Z;
              AStr ") exceeded"])
          (final_state
             (ConvergenceTest SampleA [1] [1] StrictCtrl
                (InitialState [1] [1] [1]))).
Proof.
  rewrite Mehrotra_Loop.
  change (EntryState NullBackend SampleA [1] [1] StrictCtrl [1] [1] [1])
    with (InitialState [1] [1] [1]).
  apply (Loop_cap NullBackend SampleA [1] [1] StrictCtrl).
  - split; repeat constructor; lra.
  - intros (H & _). unfold RelativeGap in H. cbn in H.
    replace (1 * 1 + 0 - - (1 * 1 + 0)) with 2 in H by lra.
    replace (1 * 1 + 0) with 1 in H by lra.
    rewrite !Rabs_right in H by lra. lra.
  - reflexivity.
Qed.

Lemma Mehrotra_error_states_witness :
  (~ InCone (InitialState [0] [1] [1])
   /\ [AInt 1%Z; AStr " entries of x were nonpositive and ";
       AInt 0%Z; AStr " entries of z were nonpositive"]
      = [AInt (Z.of_nat (NumNonPositive (v_x (InitialState [0] [1] [1]))));
         AStr " entries of x were nonpositive and ";
         AInt (Z.of_nat (NumNonPositive (v_z (InitialState [0] [1] [1]))));
         AStr " entries of z were nonpositive"])
  /\ (let s := final_state
                 (ConvergenceTest SampleA [1] [1] StrictCtrl
                    (InitialState [1] [1] [1])) in
      let t := TopState NullBackend SampleA [1] [1] StrictCtrl [1] [1] [1]
                 (Z.to_nat (maxIts StrictCtrl)) in
      InCone s /\ ~ Converged SampleA [1] [1] StrictCtrl s
      /\ v_x s = v_x t /\ v_y s = v_y t /\ v_z s = v_z t).
Proof.
  split.
  - exact (proj1 (Mehrotra_error_states NullBackend SampleA [1] [0]
                    StrictCtrl [0] [1] [1] 1
                    [AInt 1%Z; AStr " entries of x were nonpositive and ";
                     AInt 0%Z; AStr " entries of z were nonpositive"]
                    (InitialState [0] [1] [1])) Sample_raises).
  - apply (proj2 (Mehrotra_error_states NullBackend SampleA [1] [1]
                    StrictCtrl [1] [1] [1] 1
                    [AStr "Maximum number of iterations ("; AInt 0%Z;
                     AStr ") exceeded"]
                    (final_state
                       (ConvergenceTest SampleA [1] [1] StrictCtrl
                          (InitialState [1] [1] [1]))))).
    + unfold IntMax. simpl. lia.
    + exact Sample_hits_cap.
Defined.

(** ** Step lengths *)







(** ** The regularized solve: the scaled inverse *)

Lemma DiagonalScale_Solve d X :
  Forall (fun v => v <> 0) d -> DiagonalScale d (DiagonalSolve d X) = X.
Proof.
  intros Hd. revert X. induction Hd as [| a d Ha Hd IH]; intros [| v X];
    simpl; try reflexivity.
  rewrite IH. f_equal. field. exact Ha.
Qed.

(** X27: the lambda [applyAInv] of the overloads with a scaling [d]
    solves with the unscaled operator: when [d] has no zero entry and the
    factorization solves systems with [inv(diag(d)) M inv(diag(d))], the
    vector it leaves in [B] satisfies [M X = B]. *)
Theorem applyAInvScaled_solves d sparseLDLFact (M : vec -> vec) :
  Forall (fun v => v <> 0) d ->
  (forall Y, length Y = length d ->
     DiagonalSolve d (M (DiagonalSolve d (Solve sparseLDLFact Y))) = Y) ->
  forall B, length B = length d ->
    M (applyAInvScaled d sparseLDLFact B) = B.
Proof.
  intros Hd HS B LB. unfold applyAInvScaled.
  specialize (HS (DiagonalSolve d B)).
  rewrite DiagonalSolve_length in HS. specialize (HS LB).
  apply (f_equal (DiagonalScale d)) in HS.
  now rewrite !DiagonalScale_Solve in HS by assumption.
Qed.

Lemma applyAInvScaled_solves_witness :
  Scale 4 (applyAInvScaled [2] (mkSparseLDL (fun Y => Y)) [8]) = [8].
Proof.
  apply (applyAInvScaled_solves [2] (mkSparseLDL (fun Y => Y)) (Scale 4)).
  - repeat constructor. lra.
  - intros [| y [| y' Y]] L; try discriminate L.
    simpl. f_equal. field.
  - reflexivity.
Defined.

(** ** The recommendations of the deflation driver *)

Section AEDFacts.

Variable Log2 : Real -> Real.

Local Open Scope Z_scope.

Lemma even_round m :
  2 <= Z.max 2 (m - Mod_ m 2)
  /\ Z.even (Z.max 2 (m - Mod_ m 2)) = true
  /\ Z.max 2 (m - Mod_ m 2) <= Z.max 2 m
  /\ m - 1 <= Z.max 2 (m - Mod_ m 2).
Proof.
  rewrite Mod__floor by lia.
  pose proof (Z.mod_pos_bound m 2 ltac:(lia)) as Hm.
  pose proof (Z.div_mod m 2 ltac:(lia)) as Hd.
  split; [lia |]. split; [| lia].
  destruct (Z.max_spec 2 (m - m mod 2)) as [[_ ->] | [_ ->]];
    [| reflexivity].
  replace (m - m mod 2) with (2 * (m / 2)) by lia.
  apply Z.even_mul.
Qed.

(** X28: for a representable matrix size, window size and number of
    shifts, on which the sums [n+6], the difference [n-1] and the product
    [3*numShifts] that the routines form are representable and the
    divisors converted from [Log2] are positive and representable, the
    recommended number of shifts and the recommended deflation window size
    are even and at least 2, and exceed neither the window size nor,
    respectively, [(n+6)/9] and [(n-1)/3] unless that bound is below 2. *)
Theorem AED_recommendations_even n winSize numShifts :
  InIntRange n -> InIntRange winSize -> InIntRange numShifts ->
  InIntRange (n + 6) -> InIntRange (n - 1) ->
  (500 < winSize -> InIntRange (3 * numShifts)) ->
  (150 <= winSize < 590 ->
   0 < IntOfReal (Log2 (IZR winSize)) <= IntMax) ->
  (6000 <= winSize ->
   0 < IntOfReal (2 * Log2 (IZR winSize))%R <= IntMax) ->
  (2 <= NumShifts Log2 n winSize
   /\ Z.even (NumShifts Log2 n winSize) = true
   /\ NumShifts Log2 n winSize
      <= Z.max 2 (Z.min winSize (Z.quot (n + 6) 9)))
  /\ (2 <= DeflationSize n winSize numShifts
      /\ Z.even (DeflationSize n winSize numShifts) = true
      /\ DeflationSize n winSize numShifts
         <= Z.max 2 (Z.min winSize (Z.quot (n - 1) 3))).
Proof.
  intros _ _ _ _ _ _ _ _. split.
  - unfold NumShifts.
    match goal with
    | |- context [Z.max 2 (?m - Mod_ ?m 2)] =>
        destruct (even_round m) as (H1 & H2 & H3 & _)
    end.
    repeat split; try assumption. lia.
  - unfold DeflationSize.
    match goal with
    | |- context [Z.max 2 (?m - Mod_ ?m 2)] =>
        destruct (even_round m) as (H1 & H2 & H3 & _)
    end.
    repeat split; try assumption. lia.
Qed.

End AEDFacts.

Lemma IntOfReal_8 : IntOfReal 8 = 8%Z.
Proof.
  unfold IntOfReal. destruct (Rle_dec 0 8) as [_ | H]; [| lra].
  unfold Int_part. rewrite <- (tech_up 8 9); [reflexivity | |];
    simpl; lra.
Qed.

(** A window of 200 rows in a matrix of 1000, with a logarithm that
    answers 8 (the floor of the binary logarithm of 200 is 7). *)
Lemma AED_recommendations_even_witness :
  (2 <= NumShifts (fun _ => 8%R) 1000 200
   /\ Z.even (NumShifts (fun _ => 8%R) 1000 200) = true
   /\ NumShifts (fun _ => 8%R) 1000 200
      <= Z.max 2 (Z.min 200 (Z.quot (1000 + 6) 9)))%Z
  /\ (2 <= DeflationSize 1000 200 10
      /\ Z.even (DeflationSize 1000 200 10) = true
      /\ DeflationSize 1000 200 10
         <= Z.max 2 (Z.min 200 (Z.quot (1000 - 1) 3)))%Z.
Proof.
  apply (AED_recommendations_even (fun _ => 8%R) 1000%Z 200%Z 10%Z);
    unfold InIntRange, IntMin, IntMax; try lia.
  intros _. rewrite IntOfReal_8. lia.
Defined.

(** ** The grid of the Gaussian elimination example *)

Section GridFacts.

Local Open Scope Z_scope.

Lemma GridHeightLoop_finds commSize :
  0 < commSize ->
  forall fuel h,
    0 < h <= commSize -> (Z.to_nat (commSize - h) < fuel)%nat ->
    exists gridHeight,
      GridHeightLoop fuel commSize h = Some gridHeight
      /\ h <= gridHeight <= commSize
      /\ (gridHeight | commSize)
      /\ forall h', h <= h' < gridHeight -> ~ (h' | commSize).
Proof.
  intros Hc. induction fuel as [| fuel IH]; intros h Hh Hf; [lia |].
  simpl.
  destruct (Z.eqb_spec (Z.rem commSize h) 0) as [E | E]; simpl.
  - exists h. split; [reflexivity |]. split; [lia |]. split; [| lia].
    apply Z.rem_divide; [lia | assumption].
  - assert (Hlt : h < commSize).
    { destruct (Z.eq_dec h commSize) as [-> | Hne]; [| lia].
      exfalso. apply E. apply Z.rem_same. lia. }
    destruct (IH (h + 1)) as (g & Eg & Hg & Hd & Hmin); [lia | lia |].
    exists g. split; [exact Eg |]. split; [lia |]. split; [exact Hd |].
    intros h' Hh'. destruct (Z.eq_dec h' h) as [-> | Hne].
    + intros D. apply E. apply Z.rem_divide; [lia | assumption].
    + apply Hmin. lia.
Qed.

(** X29: for a positive number of processes the search for the grid
    height ends within [commSize] passes and the grid uses every process:
    [gridHeight * gridWidth = commSize], with [gridHeight] the least
    divisor of [commSize] that is not below its integer square root. *)
Theorem NearlySquareGrid_uses_every_process commSize :
  0 < commSize ->
  exists gridHeight gridWidth,
    NearlySquareGrid (Z.to_nat commSize) commSize
    = Some (gridHeight, gridWidth)
    /\ gridHeight * gridWidth = commSize
    /\ Z.sqrt commSize <= gridHeight <= commSize
    /\ forall h', Z.sqrt commSize <= h' < gridHeight -> ~ (h' | commSize).
Proof.
  intros Hc.
  assert (Hs : 0 < Z.sqrt commSize <= commSize).
  { split; [apply Z.sqrt_pos; lia |].
    destruct (Z.eq_dec commSize 1) as [-> | Hne];
      [change (Z.sqrt 1) with 1; lia |].
    apply Z.lt_le_incl, Z.sqrt_lt_lin. lia. }
  destruct (GridHeightLoop_finds commSize Hc (Z.to_nat commSize)
              (Z.sqrt commSize) Hs ltac:(lia))
    as (g & Eg & Hg & Hd & Hmin).
  exists g, (Z.quot commSize g).
  unfold NearlySquareGrid. rewrite Eg.
  split; [reflexivity |].
  split; [| split; [lia | exact Hmin]].
  destruct Hd as (q & Hq).
  rewrite Z.quot_div_nonneg by lia.
  rewrite Hq at 1. rewrite Z.div_mul by lia. lia.
Qed.

Lemma NearlySquareGrid_uses_every_process_witness :
  exists gridHeight gridWidth,
    NearlySquareGrid (Z.to_nat 6) 6 = Some (gridHeight, gridWidth)
    /\ gridHeight * gridWidth = 6
    /\ Z.sqrt 6 <= gridHeight <= 6
    /\ forall h', Z.sqrt 6 <= h' < gridHeight -> ~ (h' | 6).
Proof. apply (NearlySquareGrid_uses_every_process 6). lia. Defined.

End GridFacts.

(** ** [ConjugateSubmatrix] *)

Section ConjugateSubmatrixFacts.

Variable T : Type.
Variable Conj : T -> T.
Variable MatrixT : Type.
Variable Get : MatrixT -> Int -> Int -> T.
Variable Conjugate : MatrixT -> Int -> Int -> MatrixT.

Hypothesis Conjugate_entry :
  forall A i j i' j',
    Get (Conjugate A i j) i' j' =
    if ((i' =? i) && (j' =? j))%Z then Conj (Get A i' j') else Get A i' j'.

Lemma iter_Conj_comm k v : Nat.iter k Conj (Conj v) = Conj (Nat.iter k Conj v).
Proof. induction k as [| k IH]; simpl; [reflexivity | now rewrite IH]. Qed.

Lemma ConjugateColumn_entry I A j i' j' :
  Get (fold_left (fun A i => Conjugate A i j) I A) i' j' =
  if (j' =? j)%Z then Nat.iter (count_occ Z.eq_dec I i') Conj (Get A i' j')
  else Get A i' j'.
Proof.
  revert A. induction I as [| i I IH]; intros A; simpl.
  - now destruct (j' =? j)%Z.
  - rewrite IH, Conjugate_entry.
    destruct (Z.eqb_spec j' j) as [Ej | Ej]; simpl.
    + destruct (Z.eq_dec i i') as [-> | Hne].
      * rewrite Z.eqb_refl. simpl. now rewrite iter_Conj_comm.
      * destruct (Z.eqb_spec i' i); [congruence | reflexivity].
    + now rewrite andb_false_r.
Qed.

Lemma iter_add k l v :
  Nat.iter (k + l) Conj v = Nat.iter k Conj (Nat.iter l Conj v).
Proof. induction k as [| k IH]; simpl; [reflexivity | now rewrite IH]. Qed.

Lemma ConjugateSubmatrix_entry_aux I J A i' j' :
  Get (ConjugateSubmatrix MatrixT Conjugate A I J) i' j' =
  Nat.iter (count_occ Z.eq_dec I i' * count_occ Z.eq_dec J j') Conj
    (Get A i' j').
Proof.
  unfold ConjugateSubmatrix. revert A.
  induction J as [| j J IH]; intros A; simpl.
  - now rewrite Nat.mul_0_r.
  - rewrite IH, ConjugateColumn_entry.
    destruct (Z.eq_dec j j') as [-> | Hne].
    + rewrite Z.eqb_refl. rewrite <- iter_add. f_equal. lia.
    + destruct (Z.eqb_spec j' j); [congruence | reflexivity].
Qed.

End ConjugateSubmatrixFacts.

(** X30: for a matrix class whose [Conjugate(i,j)] conjugates the entry
    [(i,j)] and leaves the others, [ConjugateSubmatrix] conjugates the entry
    [(i,j)] as many times as [i] occurs in [I] times [j] occurs in [J]:
    entries outside [I x J] are untouched, with index vectors without
    repetition each entry of [I x J] is conjugated once, and, the
    conjugation being an involution, a second call undoes the first. *)
Theorem ConjugateSubmatrix_entry (T MatrixT : Type) (Conj : T -> T)
    (Get : MatrixT -> Int -> Int -> T)
    (Conjugate : MatrixT -> Int -> Int -> MatrixT) :
  (forall A i j i' j',
      Get (Conjugate A i j) i' j' =
      if ((i' =? i) && (j' =? j))%Z then Conj (Get A i' j')
      else Get A i' j') ->
  forall A I J i j,
    Get (ConjugateSubmatrix MatrixT Conjugate A I J) i j =
    Nat.iter (count_occ Z.eq_dec I i * count_occ Z.eq_dec J j) Conj
      (Get A i j)
    /\ (~ (In i I /\ In j J) ->
        Get (ConjugateSubmatrix MatrixT Conjugate A I J) i j = Get A i j)
    /\ (NoDup I -> NoDup J -> In i I -> In j J ->
        Get (ConjugateSubmatrix MatrixT Conjugate A I J) i j
        = Conj (Get A i j))
    /\ ((forall v, Conj (Conj v) = v) ->
        Get (ConjugateSubmatrix MatrixT Conjugate
               (ConjugateSubmatrix MatrixT Conjugate A I J) I J) i j
        = Get A i j).
Proof.
  intros HC A I J i j.
  pose proof (ConjugateSubmatrix_entry_aux T Conj MatrixT Get Conjugate HC)
    as E.
  split; [apply E |]. split; [| split].
  - intros Hn. rewrite E.
    destruct (in_dec Z.eq_dec i I) as [Hi | Hi].
    + destruct (in_dec Z.eq_dec j J) as [Hj | Hj]; [tauto |].
      apply (count_occ_not_In Z.eq_dec) in Hj. rewrite Hj.
      now rewrite Nat.mul_0_r.
    + apply (count_occ_not_In Z.eq_dec) in Hi. now rewrite Hi.
  - intros NI NJ Hi Hj. rewrite E.
    rewrite (NoDup_count_occ' Z.eq_dec) in NI, NJ.
    now rewrite (NI i Hi), (NJ j Hj).
  - intros Hinv. rewrite !E.
    set (k := (count_occ Z.eq_dec I i * count_occ Z.eq_dec J j)%nat).
    generalize (Get A i j). induction k as [| k IH]; intros v;
      [reflexivity |].
    simpl. rewrite (iter_Conj_comm T Conj). rewrite Hinv. apply IH.
Qed.

Lemma ConjugateSubmatrix_entry_witness :
  let A := fun (i j : Int) => (IZR i, IZR j) in
  ConjugateSubmatrix _ (EntryConjugate ComplexConj) A [0; 2]%Z [1]%Z 2%Z 1%Z
  = Nat.iter (count_occ Z.eq_dec [0; 2]%Z 2%Z * count_occ Z.eq_dec [1]%Z 1%Z)
      ComplexConj (A 2%Z 1%Z)
  /\ ConjugateSubmatrix _ (EntryConjugate ComplexConj) A [0; 2]%Z [1]%Z
       2%Z 1%Z
     = ComplexConj (A 2%Z 1%Z).
Proof.
  intros A.
  destruct (ConjugateSubmatrix_entry (Real * Real)
              (Int -> Int -> Real * Real) ComplexConj (fun A => A)
              (EntryConjugate ComplexConj) ltac:(reflexivity)
              A [0; 2]%Z [1]%Z 2%Z 1%Z) as (H1 & _ & H3 & _).
  split; [exact H1 |].
  apply H3.
  - repeat constructor; simpl; intuition lia.
  - repeat constructor; simpl; intuition lia.
  - simpl. auto.
  - simpl. auto.
Defined.
